(** * The spaced-repetition engine of [src/services/LearningEngine.ts]

    A shallow embedding of the scheduling core (result processing, daily
    queue assembly, category interleaving) and the properties its
    specification states about it; then of the rest of the engine (progress
    summary, day streak, sessions, resets, game scores), of the edit
    distance of [src/utils/text.ts] and of the record loop of
    [scripts/csv-to-words-json.js], with properties read off the code.

    Modelling conventions, used throughout:
    - a JavaScript [number] holding a counter or a level is a [Z];
    - a [Date] object is the number of milliseconds since the epoch it
      wraps; the local time zone is a [TimeZone], the two conversions
      between instants and wall-clock readings by which
      [setDate(getDate() + d)] moves the local calendar day;
    - a calendar-date string ['YYYY-MM-DD'] (what
      [toISOString().split('T')[0]] yields) is the number of days since
      1970-01-01 that it denotes; [new Date('YYYY-MM-DD')] is UTC midnight
      of that day; a nullable date string is an [option];
    - an operation reads the clock at one instant [now];
    - a [Word] object is known by its reference, [Array.prototype.includes]
      compares references;
    - the statistics map and the summary tables are plain objects read as
      finite maps: [o[k]] is the lookup in the map when [k] is a property
      of [o] itself or no name that objects inherit ([Object_prototype]);
      the properties that depend on such a lookup carry this as a
      hypothesis ([reads_own] for the identifiers, [own_categories] for
      the categories of the summary). The grouping object of the
      interleaver is modelled with the inherited names. *)

From stdpp Require Import gmap strings list sorting pretty.
From stdpp Require functions.

Local Open Scope Z_scope.

(* ================================================================== *)
(** ** Types *)

Record Word := {
  id : string;
  spanish : string;
  english : string;
  category : string;
  pronunciation : option string;
  example : option string
}.

Record WordStats := {
  wordId : string;
  seen : Z;
  correct : Z;
  wrong : Z;
  streak : Z;
  level : Z;
  lastSeen : option Z;
  nextDue : option Z;
  hardFlag : bool;
  lastWrongDate : option Z
}.

Inductive LearningResult := Correct | Wrong | Skipped.

(** Field assignments [stats.f = v]. *)
Definition set_seen (v : Z) (s : WordStats) : WordStats :=
  {| wordId := wordId s; seen := v; correct := correct s; wrong := wrong s;
     streak := streak s; level := level s; lastSeen := lastSeen s;
     nextDue := nextDue s; hardFlag := hardFlag s;
     lastWrongDate := lastWrongDate s |}.
Definition set_correct (v : Z) (s : WordStats) : WordStats :=
  {| wordId := wordId s; seen := seen s; correct := v; wrong := wrong s;
     streak := streak s; level := level s; lastSeen := lastSeen s;
     nextDue := nextDue s; hardFlag := hardFlag s;
     lastWrongDate := lastWrongDate s |}.
Definition set_wrong (v : Z) (s : WordStats) : WordStats :=
  {| wordId := wordId s; seen := seen s; correct := correct s; wrong := v;
     streak := streak s; level := level s; lastSeen := lastSeen s;
     nextDue := nextDue s; hardFlag := hardFlag s;
     lastWrongDate := lastWrongDate s |}.
Definition set_streak (v : Z) (s : WordStats) : WordStats :=
  {| wordId := wordId s; seen := seen s; correct := correct s; wrong := wrong s;
     streak := v; level := level s; lastSeen := lastSeen s;
     nextDue := nextDue s; hardFlag := hardFlag s;
     lastWrongDate := lastWrongDate s |}.
Definition set_level (v : Z) (s : WordStats) : WordStats :=
  {| wordId := wordId s; seen := seen s; correct := correct s; wrong := wrong s;
     streak := streak s; level := v; lastSeen := lastSeen s;
     nextDue := nextDue s; hardFlag := hardFlag s;
     lastWrongDate := lastWrongDate s |}.
Definition set_lastSeen (v : option Z) (s : WordStats) : WordStats :=
  {| wordId := wordId s; seen := seen s; correct := correct s; wrong := wrong s;
     streak := streak s; level := level s; lastSeen := v;
     nextDue := nextDue s; hardFlag := hardFlag s;
     lastWrongDate := lastWrongDate s |}.
Definition set_nextDue (v : option Z) (s : WordStats) : WordStats :=
  {| wordId := wordId s; seen := seen s; correct := correct s; wrong := wrong s;
     streak := streak s; level := level s; lastSeen := lastSeen s;
     nextDue := v; hardFlag := hardFlag s;
     lastWrongDate := lastWrongDate s |}.
Definition set_hardFlag (v : bool) (s : WordStats) : WordStats :=
  {| wordId := wordId s; seen := seen s; correct := correct s; wrong := wrong s;
     streak := streak s; level := level s; lastSeen := lastSeen s;
     nextDue := nextDue s; hardFlag := v;
     lastWrongDate := lastWrongDate s |}.
Definition set_lastWrongDate (v : option Z) (s : WordStats) : WordStats :=
  {| wordId := wordId s; seen := seen s; correct := correct s; wrong := wrong s;
     streak := streak s; level := level s; lastSeen := lastSeen s;
     nextDue := nextDue s; hardFlag := hardFlag s;
     lastWrongDate := v |}.

(* ================================================================== *)
(** ** Constants *)

(** [SRS_INTERVALS]: days until the next review, by level. *)
Definition SRS_INTERVALS (lvl : Z) : option Z :=
  match lvl with
  | 0 => Some 0
  | 1 => Some 1
  | 2 => Some 3
  | 3 => Some 7
  | 4 => Some 14
  | 5 => Some 30
  | _ => None
  end.

Definition msPerDay : Z := 86400000.

(** The names every object inherits: the properties of
    [Object.prototype]. *)
Definition Object_prototype : list string :=
  ["constructor"; "__defineGetter__"; "__defineSetter__"; "hasOwnProperty";
   "__lookupGetter__"; "__lookupSetter__"; "isPrototypeOf";
   "propertyIsEnumerable"; "toString"; "valueOf"; "__proto__";
   "toLocaleString"].

(** The error thrown by a call of what is not a function. *)
Definition TypeError : string := "TypeError".

(* ================================================================== *)
(** ** Utility functions *)

(** [new Date(now).toISOString().split('T')[0]]: the UTC calendar day. *)
Definition toISODate (t : Z) : Z := t `div` msPerDay.

(** [new Date('YYYY-MM-DD')]: UTC midnight of the day. *)
Definition parseDate (d : Z) : Z := d * msPerDay.

Definition getTodayString (now : Z) : Z := toISODate now.

(** The time zone of the device: [LocalTime] gives the wall-clock reading
    at an instant, [UTC] the instant a wall-clock reading stands for (the
    conversions of these names in the language standard), both in
    milliseconds. A wall clock is never more than a day from UTC. With
    daylight saving the two are not inverse to one another around a
    change of the clock. *)
Class TimeZone := {
  LocalTime : Z → Z;
  UTC : Z → Z;
  LocalTime_near : ∀ t, Z.abs (LocalTime t - t) ≤ msPerDay;
  UTC_near : ∀ t, Z.abs (UTC t - t) ≤ msPerDay
}.

(** [result.setDate(result.getDate() + days)]: the wall-clock reading is
    moved by [days] calendar days, the time of day kept, and read back as
    an instant. *)
Definition addDays `{!TimeZone} (date : Z) (days : Z) : Z :=
  UTC (LocalTime date + days * msPerDay).

Definition isDue (now : Z) (nextDue : option Z) : bool :=
  match nextDue with
  | None => true
  | Some d =>
      let today := parseDate (getTodayString now) in
      let dueDate := parseDate d in
      bool_decide (dueDate ≤ today)
  end.

Definition wasWrongRecently `{!TimeZone} (now : Z) (lastWrongDate : option Z) (days : Z) : bool :=
  match lastWrongDate with
  | None => false
  | Some d =>
      let cutoff := addDays now (- days) in
      bool_decide (cutoff ≤ parseDate d)
  end.

(* ================================================================== *)
(** ** Storage and randomness

    The world an operation runs in: the key-value store behind [get] and
    [set] (only two keys matter here, the word-statistics map and the day
    streak), and the draws [Math.random] will make. [faults] schedules the
    outcome of the coming store accesses: [Some e] makes the next access
    reject with [e], [None] (or an exhausted schedule) lets it through. *)

Definition Err := string.

Record World := {
  word_stats : option (gmap string WordStats);
  current_streak : option Z;
  faults : list (option Err);
  random : list nat
}.

(** Computations that read and write the world and may reject. *)
Definition M (A : Type) : Type := World → (Err + A) * World.

#[global] Instance M_ret : MRet M := λ A a st, (inr a, st).

#[global] Instance M_bind : MBind M := λ A B k m st,
  match m st with
  | (inl e, st') => (inl e, st')
  | (inr a, st') => k a st'
  end.

(** [throw e], or the rejection of the promise an [async] function
    returns. *)
Definition throw {A} (e : Err) : M A := λ st, (inl e, st).

(** [try { m } catch { handler }] *)
Definition try_catch {A} (m : M A) (handler : M A) : M A :=
  λ st, match m st with
        | (inl _, st') => handler st'
        | r => r
        end.

(** One access to the store: consume the head of the fault schedule. *)
Definition access : M unit :=
  λ st,
    let st' := {| word_stats := word_stats st;
                  current_streak := current_streak st;
                  faults := tail (faults st);
                  random := random st |} in
    match faults st with
    | Some e :: _ => (inl e, st')
    | _ => (inr tt, st')
    end.

Definition gets {A} (f : World → A) : M A := λ st, (inr (f st), st).

Definition put_word_stats (v : gmap string WordStats) : M unit :=
  λ st, (inr tt, {| word_stats := Some v;
                    current_streak := current_streak st;
                    faults := faults st;
                    random := random st |}).

Definition get_WORD_STATS : M (option (gmap string WordStats)) :=
  access ;; gets word_stats.

Definition set_WORD_STATS (v : gmap string WordStats) : M unit :=
  access ;; put_word_stats v.

Definition get_CURRENT_STREAK : M (option Z) :=
  access ;; gets current_streak.

Definition getWordStats : M (gmap string WordStats) :=
  try_catch
    (stats ← get_WORD_STATS; mret (default ∅ stats))
    (mret ∅).

Definition saveWordStats (stats : gmap string WordStats) : M unit :=
  set_WORD_STATS stats.

(** [streak || 0]: a stored 0 is falsy too and reads as 0. *)
Definition getStreak : M Z :=
  try_catch
    (s ← get_CURRENT_STREAK; mret (default 0 s))
    (mret 0).

(* ================================================================== *)
(** ** SRS algorithm *)

Definition computeNextDue `{!TimeZone} (now : Z) (lvl : Z) : Z :=
  let days := default 0 (SRS_INTERVALS (Z.min lvl 5)) in
  let nextDate := addDays now days in
  toISODate nextDate.

(** The record created for a word met for the first time. *)
Definition freshStats (w : string) (hard : bool) : WordStats :=
  {| wordId := w; seen := 0; correct := 0; wrong := 0; streak := 0;
     level := 0; lastSeen := None; nextDue := None; hardFlag := hard;
     lastWrongDate := None |}.

(** The body of [updateStatsOnResult] between the read and the write:
    the record of the word, or a fresh one, after the result. *)
Definition apply_result `{!TimeZone} (now : Z) (w : string) (result : LearningResult)
    (old : option WordStats) : WordStats :=
  let today := getTodayString now in
  let stats := default (freshStats w false) old in
  let stats := set_seen (seen stats + 1) stats in
  let stats := set_lastSeen (Some today) stats in
  let stats :=
    match result with
    | Correct =>
        let stats := set_correct (correct stats + 1) stats in
        let stats := set_streak (streak stats + 1) stats in
        if bool_decide (2 ≤ streak stats) && bool_decide (level stats < 5)
        then set_level (level stats + 1) stats
        else stats
    | Wrong =>
        let stats := set_wrong (wrong stats + 1) stats in
        let stats := set_streak 0 stats in
        let stats := set_lastWrongDate (Some today) stats in
        if bool_decide (0 < level stats)
        then set_level (level stats - 1) stats
        else stats
    | Skipped => stats
    end in
  set_nextDue (Some (computeNextDue now (level stats))) stats.

Definition updateStatsOnResult `{!TimeZone} (now : Z) (w : string) (result : LearningResult)
  : M WordStats :=
  allStats ← getWordStats;
  let stats := apply_result now w result (allStats !! w) in
  let allStats := <[w := stats]> allStats in
  saveWordStats allStats ;;
  mret stats.

Definition toggleHardFlag (w : string) : M bool :=
  allStats ← getWordStats;
  let allStats :=
    match allStats !! w with
    | None => <[w := freshStats w true]> allStats
    | Some s => <[w := set_hardFlag (negb (hardFlag s)) s]> allStats
    end in
  saveWordStats allStats ;;
  mret (from_option hardFlag false (allStats !! w)).

(* ================================================================== *)
(** ** Shuffling *)

(** [Math.floor(Math.random() * n)]: some index below [n], here the next
    draw reduced modulo [n] (0 once the draws are used up). *)
Definition random_below (n : nat) : M nat :=
  λ st,
    (inr (hd 0%nat (random st) `mod` n)%nat,
     {| word_stats := word_stats st;
        current_streak := current_streak st;
        faults := faults st;
        random := tail (random st) |}).

(** [[a[i], a[j]] = [a[j], a[i]]] *)
Definition swap {A} (i j : nat) (a : list A) : list A :=
  match a !! j, a !! i with
  | Some y, Some x => <[j := x]> (<[i := y]> a)
  | _, _ => a
  end.

(** The loop [for (let i = ...; i > 0; i--)] of [shuffleArray]. *)
Fixpoint shuffle_loop {A} (i : nat) (shuffled : list A) : M (list A) :=
  match i with
  | O => mret shuffled
  | S i' =>
      j ← random_below (i + 1);
      shuffle_loop i' (swap i j shuffled)
  end.

Definition shuffleArray {A} (array : list A) : M (list A) :=
  shuffle_loop (length array - 1)%nat array.

(** [array.slice(0, n)] for an integer [n]: a negative [n] counts from
    the end. *)
Definition slice0 {A} (n : Z) (array : list A) : list A :=
  if bool_decide (n < 0)
  then take (Z.to_nat (Z.of_nat (length array) + n)) array
  else take (Z.to_nat n) array.

(* ================================================================== *)
(** ** Daily queue builder *)

Record DailyQueue := {
  dueWords : list nat;
  recentlyWrong : list nat;
  hardWords : list nat;
  newWords : list nat;
  mixedReview : list nat;
  total : Z;
  estimatedMinutes : Z
}.

(** The five arrays filled by the classification loop. *)
Record Buckets := {
  b_dueWords : list nat;
  b_recentlyWrong : list nat;
  b_hardWords : list nat;
  b_newWords : list nat;
  b_seenWords : list nat
}.

Definition push_if {A} (c : bool) (x : A) (l : list A) : list A :=
  if c then l ++ [x] else l.

Definition includes (w : nat) (l : list nat) : bool := bool_decide (w ∈ l).

Definition b2z (b : bool) : Z := if b then 1 else 0.

(** [Math.ceil(total * 0.5)] for an integer [total]. *)
Definition ceil_half (n : Z) : Z := (n + 1) `div` 2.

Section Queue.
Context `{!TimeZone}.
(** The [Word] object behind each reference. *)
Variable heap : nat → Word.

(** One iteration of [for (const word of words)]. *)
Definition classify_step (now : Z) (allStats : gmap string WordStats)
    (b : Buckets) (word : nat) : Buckets :=
  match allStats !! id (heap word) with
  | None =>
      {| b_dueWords := b_dueWords b; b_recentlyWrong := b_recentlyWrong b;
         b_hardWords := b_hardWords b; b_newWords := b_newWords b ++ [word];
         b_seenWords := b_seenWords b |}
  | Some stats =>
      if bool_decide (seen stats = 0) then
        {| b_dueWords := b_dueWords b; b_recentlyWrong := b_recentlyWrong b;
           b_hardWords := b_hardWords b; b_newWords := b_newWords b ++ [word];
           b_seenWords := b_seenWords b |}
      else
        {| b_dueWords := push_if (isDue now (nextDue stats)) word (b_dueWords b);
           b_recentlyWrong :=
             push_if (wasWrongRecently now (lastWrongDate stats) 7) word
                     (b_recentlyWrong b);
           b_hardWords := push_if (hardFlag stats) word (b_hardWords b);
           b_newWords := b_newWords b;
           b_seenWords := b_seenWords b ++ [word] |}
  end.

Definition classify (now : Z) (allStats : gmap string WordStats)
    (words : list nat) : Buckets :=
  fold_left (classify_step now allStats) words
    {| b_dueWords := []; b_recentlyWrong := []; b_hardWords := [];
       b_newWords := []; b_seenWords := [] |}.

(** [dueWords.length + recentlyWrong.length + hardWords.length] *)
Definition priorityCount (b : Buckets) : Z :=
  Z.of_nat (length (b_dueWords b)) + Z.of_nat (length (b_recentlyWrong b))
  + Z.of_nat (length (b_hardWords b)).

Definition buildDailyQueue (now : Z) (words : list nat) (dailyGoal : Z)
  : M DailyQueue :=
  allStats ← getWordStats;
  let b := classify now allStats words in
  let newWordsToAdd := Z.max 0 (dailyGoal - priorityCount b) in
  shuffledNew ← shuffleArray (b_newWords b);
  let selectedNewWords := slice0 newWordsToAdd shuffledNew in
  let remainingForMix :=
    dailyGoal - priorityCount b - Z.of_nat (length selectedNewWords) in
  shuffledRest ← shuffleArray
    (filter (λ w, negb (includes w (b_dueWords b))
                  && negb (includes w (b_recentlyWrong b))
                  && negb (includes w (b_hardWords b)))
            (b_seenWords b));
  let mixed := slice0 (Z.max 0 remainingForMix) shuffledRest in
  let tot :=
    Z.of_nat (length (b_dueWords b)) + Z.of_nat (length (b_recentlyWrong b))
    + Z.of_nat (length (b_hardWords b)) + Z.of_nat (length selectedNewWords)
    + Z.of_nat (length mixed) in
  due ← shuffleArray (b_dueWords b);
  rw ← shuffleArray (b_recentlyWrong b);
  hard ← shuffleArray (b_hardWords b);
  mret {| dueWords := due; recentlyWrong := rw; hardWords := hard;
          newWords := selectedNewWords; mixedReview := mixed;
          total := tot; estimatedMinutes := ceil_half tot |}.

(** The array [prioritized] of [getDailySessionQueue]. *)
Definition prioritized (queue : DailyQueue) : list nat :=
  dueWords queue
  ++ filter (λ w, negb (includes w (dueWords queue))) (recentlyWrong queue)
  ++ filter (λ w, negb (includes w (dueWords queue))
                  && negb (includes w (recentlyWrong queue)))
            (hardWords queue)
  ++ newWords queue
  ++ mixedReview queue.
End Queue.

(* ================================================================== *)
(** ** Category interleaving *)

(** A decimal digit. *)
Definition digit_of (c : Ascii.ascii) : option N :=
  let n := Ascii.N_of_ascii c in
  if bool_decide (48 ≤ n)%N && bool_decide (n ≤ 57)%N
  then Some (n - 48)%N else None.

Fixpoint parse_digits (acc : N) (s : string) : option N :=
  match s with
  | EmptyString => Some acc
  | String c s' => d ← digit_of c; parse_digits (10 * acc + d)%N s'
  end.

(** A property key is an array index when it is the canonical decimal form
    of an integer below 2^32 - 1. *)
Definition array_index (s : string) : option N :=
  match s with
  | EmptyString => None
  | String c s' =>
      if bool_decide (Ascii.N_of_ascii c = 48%N) && negb (bool_decide (s' = EmptyString))
      then None
      else n ← parse_digits 0%N s;
           if bool_decide (n < 4294967295)%N then Some n else None
  end.

Definition index_le (a b : string) : Prop :=
  (default 0 (array_index a) ≤ default 0 (array_index b))%N.

#[global] Instance index_le_dec a b : Decision (index_le a b).
Proof. unfold index_le. apply _. Defined.

(** [Object.keys(o)] of an object whose properties were created in the
    order of the list: array indices first, ascending, then the other
    keys in creation order. *)
Definition Object_keys {V} (o : list (string * V)) : list string :=
  merge_sort index_le (filter (λ k, is_Some (array_index k)) o.*1)
  ++ filter (λ k, ¬ is_Some (array_index k)) o.*1.

(** [o[k]] *)
Fixpoint prop_get {V} (k : string) (o : list (string * V)) : option V :=
  match o with
  | [] => None
  | (k', v) :: o' => if bool_decide (k' = k) then Some v else prop_get k o'
  end.

(** [o[k].push(w)] on an existing property. *)
Fixpoint prop_push {V} (k : string) (w : V) (o : list (string * list V))
  : list (string * list V) :=
  match o with
  | [] => []
  | (k', v) :: o' =>
      if bool_decide (k' = k) then (k', v ++ [w]) :: o'
      else (k', v) :: prop_push k w o'
  end.

(** One pass [for (const cat of categories)] of the [while] loop. *)
Definition interleave_pass (byCategory : list (string * list nat))
    (categories : list string) (index : nat) (result : list nat) : list nat :=
  fold_left
    (λ res cat,
       match prop_get cat byCategory with
       | Some ws =>
           if bool_decide (index < length ws)%nat
           then res ++ option_list (ws !! index)
           else res
       | None => res
       end)
    categories result.

(** [while (result.length < n) { pass; index++ }], at most [fuel] times. *)
Fixpoint interleave_loop (fuel : nat) (byCategory : list (string * list nat))
    (categories : list string) (n : nat) (result : list nat) (index : nat)
  : option (list nat) :=
  if bool_decide (length result < n)%nat then
    match fuel with
    | O => None
    | S fuel' =>
        interleave_loop fuel' byCategory categories n
          (interleave_pass byCategory categories index result) (S index)
    end
  else Some result.

Section Interleave.
Context `{!TimeZone}.
Variable heap : nat → Word.

(** One iteration of the first loop,
    [if (!byCategory[cat]) byCategory[cat] = []; byCategory[cat].push(word)].
    [byCategory] starts as [{}]: a category of its own is read from the
    list; a category that names an inherited property and is not yet its
    own reads as that property, a function or the prototype, which is
    truthy and has no [push], so that the call throws; any other category
    is created. The list holds the own properties in creation order. *)
Definition group_step (byCategory : list (string * list nat)) (word : nat)
  : Err + list (string * list nat) :=
  let cat := category (heap word) in
  match prop_get cat byCategory with
  | Some _ => inr (prop_push cat word byCategory)
  | None =>
      if decide (cat ∈ Object_prototype) then inl TypeError
      else inr (prop_push cat word (byCategory ++ [(cat, [])]))
  end.

(** The first loop: group the words by category. *)
Fixpoint group_loop (words : list nat) (byCategory : list (string * list nat))
  : Err + list (string * list nat) :=
  match words with
  | [] => inr byCategory
  | word :: words' =>
      match group_step byCategory word with
      | inl e => inl e
      | inr byCategory' => group_loop words' byCategory'
      end
  end.

(** [inl] when the first loop throws; [inr None] when the [while] loop is
    still running after [fuel] passes. *)
Definition interleaveByCategory_fuel (fuel : nat) (words : list nat)
  : Err + option (list nat) :=
  match group_loop words [] with
  | inl e => inl e
  | inr byCategory =>
      let categories := Object_keys byCategory in
      inr (interleave_loop fuel byCategory categories (length words) [] 0)
  end.

Definition interleaveByCategory (words : list nat)
  : Err + option (list nat) :=
  interleaveByCategory_fuel (length words) words.

Definition getDailySessionQueue (now : Z) (words : list nat) (dailyGoal : Z)
  : M (option (list nat)) :=
  queue ← buildDailyQueue heap now words dailyGoal;
  match interleaveByCategory (prioritized queue) with
  | inl e => throw e
  | inr res => mret res
  end.

(** What the first loop builds when it does not throw: the step that
    creates or finds the category, and its iteration. *)
Definition group_add (byCategory : list (string * list nat)) (word : nat)
  : list (string * list nat) :=
  let cat := category (heap word) in
  let byCategory :=
    match prop_get cat byCategory with
    | None => byCategory ++ [(cat, [])]
    | Some _ => byCategory
    end in
  prop_push cat word byCategory.

Definition group_words (words : list nat) : list (string * list nat) :=
  fold_left group_add words [].

(** No word of the list has a category that names an inherited
    property. *)
Definition own_categories (words : list nat) : Prop :=
  Forall (λ w, category (heap w) ∉ Object_prototype) words.
End Interleave.

(* ================================================================== *)
(** ** Progress tracking *)

(** The summary, with the two totals from which [accuracy] is rounded
    ([totalSeen > 0 ? Math.round(totalCorrect / totalSeen * 100) : 0])
    in place of the floating-point percentage. *)
Record ProgressSummary := {
  totalWords : Z;
  wordsLearned : Z;
  wordsMastered : Z;
  wordsInProgress : Z;
  wordsNew : Z;
  dueToday : Z;
  streakDays : Z;
  totalCorrect : Z;
  totalSeen : Z;
  byLevel : gmap Z Z;
  byCategory : gmap string (Z * Z)
}.

Section Progress.
Variable heap : nat → Word.

(** One iteration of the loop of [getProgressSummary]. *)
Definition progress_step (now : Z) (allStats : gmap string WordStats)
    (acc : ProgressSummary) (word : nat) : ProgressSummary :=
  let cat := category (heap word) in
  let byCat :=
    match byCategory acc !! cat with
    | None => <[cat := (0, 0)]> (byCategory acc)
    | Some _ => byCategory acc
    end in
  let byCat := alter (λ tl, (tl.1 + 1, tl.2)) cat byCat in
  let never_seen :=
    {| totalWords := totalWords acc; wordsLearned := wordsLearned acc;
       wordsMastered := wordsMastered acc;
       wordsInProgress := wordsInProgress acc;
       wordsNew := wordsNew acc + 1; dueToday := dueToday acc;
       streakDays := streakDays acc; totalCorrect := totalCorrect acc;
       totalSeen := totalSeen acc;
       byLevel := <[0 := default 0 (byLevel acc !! 0) + 1]> (byLevel acc);
       byCategory := byCat |} in
  match allStats !! id (heap word) with
  | None => never_seen
  | Some stats =>
      if bool_decide (seen stats = 0) then never_seen
      else
        let mastered := bool_decide (4 ≤ level stats) in
        let learned := negb mastered && bool_decide (1 ≤ level stats) in
        {| totalWords := totalWords acc;
           wordsLearned := wordsLearned acc + b2z learned;
           wordsMastered := wordsMastered acc + b2z mastered;
           wordsInProgress :=
             wordsInProgress acc + b2z (bool_decide (level stats < 4));
           wordsNew := wordsNew acc;
           dueToday := dueToday acc + b2z (isDue now (nextDue stats));
           streakDays := streakDays acc;
           totalCorrect := totalCorrect acc + correct stats;
           totalSeen := totalSeen acc + seen stats;
           byLevel :=
             <[level stats := default 0 (byLevel acc !! level stats) + 1]>
               (byLevel acc);
           byCategory :=
             if mastered || learned
             then alter (λ tl, (tl.1, tl.2 + 1)) cat byCat
             else byCat |}
  end.

Definition getProgressSummary (now : Z) (words : list nat)
  : M ProgressSummary :=
  allStats ← getWordStats;
  s ← getStreak;
  mret (fold_left (progress_step now allStats) words
          {| totalWords := Z.of_nat (length words); wordsLearned := 0;
             wordsMastered := 0; wordsInProgress := 0; wordsNew := 0;
             dueToday := 0; streakDays := s; totalCorrect := 0;
             totalSeen := 0;
             byLevel := list_to_map [(0,0); (1,0); (2,0); (3,0); (4,0); (5,0)];
             byCategory := ∅ |}).
End Progress.

(* ================================================================== *)
(** ** Vocabulary of the properties *)

(** A mastery level within its bounds. *)
Definition level_ok (s : WordStats) : Prop := 0 ≤ level s ≤ 5.

(** Every persisted record has its level within bounds. *)
Definition store_ok (st : World) : Prop :=
  map_Forall (λ _ s, level_ok s) (default ∅ (word_stats st)).

(** The error, if any, with which the [n]-th coming store access rejects. *)
Definition fault_at (n : nat) (st : World) : option Err :=
  mjoin (faults st !! n).

(** The world after [n] store accesses that wrote nothing. *)
Definition after_accesses (n : nat) (st : World) : World :=
  {| word_stats := word_stats st; current_streak := current_streak st;
     faults := drop n (faults st); random := random st |}.

(** What [getWordStats] hands to its caller. *)
Definition read_stats (st : World) : gmap string WordStats :=
  match fault_at 0 st with
  | Some _ => ∅
  | None => default ∅ (word_stats st)
  end.

(** A learner's session: results recorded one after the other, each at its
    own instant; every call is listed with its outcome and the world it
    leaves. *)
Fixpoint session `{!TimeZone} (events : list (Z * string * LearningResult)) (st : World)
  : list ((Err + WordStats) * World) :=
  match events with
  | [] => []
  | (now, w, r) :: events' =>
      let res := updateStatsOnResult now w r st in
      res :: session events' res.2
  end.

(** The interval table read at a level, [SRS_INTERVALS[level] || 0]. *)
Definition interval (lvl : Z) : Z := default 0 (SRS_INTERVALS (Z.min lvl 5)).

(** Moving the instant [t] by [d] local calendar days moves it by [d] times
    24 hours: no change of the local clock comes in between. A zone with
    daylight saving has this for most [t] and [d], a zone that keeps one
    offset from UTC has it for all. *)
Definition whole_days `{!TimeZone} (t d : Z) : Prop :=
  addDays t d = t + d * msPerDay.

Definition fixed_offset `{!TimeZone} : Prop := ∀ t d, whole_days t d.

(** [o[k]] reads the finite map [o]: [k] is a property of the object
    itself, or no inherited name. *)
Definition reads_own {V} (o : gmap string V) (k : string) : Prop :=
  is_Some (o !! k) ∨ k ∉ Object_prototype.

#[global] Instance reads_own_dec {V} (o : gmap string V) k :
  Decision (reads_own o k) :=
  decide (is_Some (o !! k) ∨ k ∉ Object_prototype).

(** A corpus all of whose ids the statistics map reads as its own. *)
Definition corpus_reads_own {V} (heap : nat → Word) (o : gmap string V)
    (words : list nat) : Prop :=
  Forall (λ w, reads_own o (id (heap w))) words.

(** The world once a statistics map has been written. *)
Definition with_stats (m : gmap string WordStats) (st : World) : World :=
  {| word_stats := Some m; current_streak := current_streak st;
     faults := faults st; random := random st |}.

(** The record an update starts from: the one read, or a fresh one. *)
Definition stats_before (w : string) (st : World) : WordStats :=
  default (freshStats w false) (read_stats st !! w).

(** The world once [Math.random] has been drawn from. *)
Definition with_random (r : list nat) (st : World) : World :=
  {| word_stats := word_stats st; current_streak := current_streak st;
     faults := faults st; random := r |}.

(** The classification predicates of the queue: a word is new when it has
    no record or was never seen; a seen word is due, recently wrong or hard
    by its record. *)
Section Predicates.
Context `{!TimeZone}.
Variable heap : nat → Word.
Variable now : Z.
Variable allStats : gmap string WordStats.

Definition is_new (w : nat) : bool :=
  match allStats !! id (heap w) with
  | None => true
  | Some s => bool_decide (seen s = 0)
  end.

Definition seen_and (p : WordStats → bool) (w : nat) : bool :=
  negb (is_new w) && from_option p false (allStats !! id (heap w)).

Definition is_due : nat → bool := seen_and (λ s, isDue now (nextDue s)).
Definition is_recentlyWrong : nat → bool :=
  seen_and (λ s, wasWrongRecently now (lastWrongDate s) 7).
Definition is_hard : nat → bool := seen_and hardFlag.

(** Seen, and neither due, recently wrong nor hard. *)
Definition is_unclassified (w : nat) : bool :=
  negb (is_new w) && negb (is_due w) && negb (is_recentlyWrong w)
  && negb (is_hard w).

(** The number of priority predicates a word satisfies. *)
Definition priority_matches (w : nat) : Z :=
  b2z (is_due w) + b2z (is_recentlyWrong w) + b2z (is_hard w).
End Predicates.

(** The number of distinct items in the three priority buckets. *)
Definition distinct_priority_count (b : Buckets) : Z :=
  Z.of_nat (size (list_to_set
    (b_dueWords b ++ b_recentlyWrong b ++ b_hardWords b) : gset nat)).

(** The sum of [f] over a list of words. *)
Definition sumZ (f : nat → Z) (l : list nat) : Z :=
  foldr (λ w acc, f w + acc) 0 l.

(** Round-robin interleaving as the specification words it: the items
    grouped by category, each group in the order of the input; round [i]
    emits the item at position [i] of every group that has one; the rounds
    follow one another from [i = 0] until every item is emitted. *)
Definition by_category (heap : nat → Word) (cats : list string)
    (items : list nat) : list (list nat) :=
  (λ c, filter (λ w, category (heap w) = c) items) <$> cats.

Definition emit_round (groups : list (list nat)) (i : nat) : list nat :=
  omap (λ g, g !! i) groups.

Definition rounds (groups : list (list nat)) (k : nat) : list nat :=
  concat (emit_round groups <$> seq 0 k).

Definition round_robin (groups : list (list nat)) : list nat :=
  rounds groups (max_list (length <$> groups)).

(** In how many of the five lists of a queue a word occurs. *)
Definition lists_holding (w : nat) (q : DailyQueue) : Z :=
  b2z (includes w (dueWords q)) + b2z (includes w (recentlyWrong q))
  + b2z (includes w (hardWords q)) + b2z (includes w (newWords q))
  + b2z (includes w (mixedReview q)).

(* ================================================================== *)
(** ** Sample data *)

Module Sample.
(** A device on UTC. *)
Definition utc : TimeZone.
Proof.
  refine {| LocalTime := λ t, t; UTC := λ t, t |};
    intros t; unfold msPerDay; lia.
Defined.

(** A device on US Eastern time in 2024: five hours behind UTC, four from
    2024-03-10 07:00 UTC to 2024-11-03 06:00 UTC. A wall-clock reading of
    the skipped hour is taken with the offset before the change, one of
    the repeated hour as its first occurrence. *)
Definition spring_forward : Z := parseDate 19792 + 7 * 3600000.
Definition fall_back : Z := parseDate 20030 + 6 * 3600000.

Definition eastern_2024 : TimeZone.
Proof.
  refine
    {| LocalTime := λ t,
         if bool_decide (spring_forward ≤ t < fall_back)
         then t - 4 * 3600000 else t - 5 * 3600000;
       UTC := λ w,
         if bool_decide (w + 4 * 3600000 < spring_forward)
         then w + 5 * 3600000
         else if bool_decide (w + 4 * 3600000 < fall_back)
              then w + 4 * 3600000 else w + 5 * 3600000 |};
    intros t; unfold msPerDay; repeat case_bool_decide; lia.
Defined.

(** A world with the given statistics, no fault and no draw. *)
Definition world (m : gmap string WordStats) : World :=
  {| word_stats := Some m; current_streak := None; faults := [];
     random := [] |}.

(** A store that has never been written. *)
Definition blank : World :=
  {| word_stats := None; current_streak := None; faults := [];
     random := [] |}.

(** "hola" after one Correct on day 10: level 0, streak 1. *)
Definition hola_once : WordStats :=
  {| wordId := "hola"; seen := 1; correct := 1; wrong := 0; streak := 1;
     level := 0; lastSeen := Some 10; nextDue := Some 10;
     hardFlag := false; lastWrongDate := None |}.

(** "hola" after two Correct on day 10: level 1, due on day 11. *)
Definition hola_twice : WordStats :=
  {| wordId := "hola"; seen := 2; correct := 2; wrong := 0; streak := 2;
     level := 1; lastSeen := Some 10; nextDue := Some 11;
     hardFlag := false; lastWrongDate := None |}.

(** "adios" at level 3, answered wrong on day 3. *)
Definition adios : WordStats :=
  {| wordId := "adios"; seen := 9; correct := 7; wrong := 2; streak := 2;
     level := 3; lastSeen := Some 8; nextDue := Some 15;
     hardFlag := true; lastWrongDate := Some 3 |}.

(** Noon of a day. *)
Definition noon (d : Z) : Z := parseDate d + 43200000.

(** A corpus of three word objects, at references 0, 1 and 2. *)
Definition heap (r : nat) : Word :=
  match r with
  | 0%nat => {| id := "hola"; spanish := "hola"; english := "hello";
                category := "greetings"; pronunciation := Some "OH-lah";
                example := None |}
  | 1%nat => {| id := "adios"; spanish := "adios"; english := "goodbye";
                category := "greetings"; pronunciation := None;
                example := None |}
  | _ => {| id := "gato"; spanish := "gato"; english := "cat";
            category := "animals"; pronunciation := None;
            example := None |}
  end.

(** A corpus of trades: its first word is filed under "constructor", the
    Spanish for builder, which is also a name every object inherits. *)
Definition trades (r : nat) : Word :=
  match r with
  | 0%nat => {| id := "albanil"; spanish := "albanil"; english := "bricklayer";
                category := "constructor"; pronunciation := None;
                example := None |}
  | _ => {| id := "gato"; spanish := "gato"; english := "cat";
            category := "animals"; pronunciation := None;
            example := None |}
  end.

(** A corpus of numbered words [w0], [w1], ... in one category, and the
    statistics that make the first [n] of them due since day 1. *)
Definition numbered (r : nat) : Word :=
  {| id := "w" +:+ pretty r; spanish := ""; english := "";
     category := "numbers"; pronunciation := None; example := None |}.

Definition due_stats (r : nat) : WordStats :=
  {| wordId := "w" +:+ pretty r; seen := 1; correct := 1; wrong := 0;
     streak := 1; level := 0; lastSeen := Some 1; nextDue := Some 1;
     hardFlag := false; lastWrongDate := None |}.

Definition all_due (n : nat) : gmap string WordStats :=
  list_to_map ((λ r, ("w" +:+ pretty r, due_stats r)) <$> seq 0 n).
End Sample.

(* ================================================================== *)
(** ** Reset of one word *)

Definition resetWordProgress (w : string) : M unit :=
  allStats ← getWordStats;
  saveWordStats (delete w allStats).

(* ================================================================== *)
(** ** The other keys of the store

    The sessions of the last days, the date of the last session and the
    game scores live in the same key-value store as the word statistics
    and the streak; an access to any key consumes the same fault
    schedule. A [DailySession] date is a calendar date; the date of a
    [GameScore] is a full timestamp string that is only carried along. *)

Record DailySession := {
  date : Z;
  wordsStudied : Z;
  correctAnswers : Z;
  wrongAnswers : Z;
  timeSpentMinutes : Z;
  completedGoal : bool
}.

(** [Omit<DailySession, 'date'>], the argument of [recordSession]. *)
Record SessionInput := {
  in_wordsStudied : Z;
  in_correctAnswers : Z;
  in_wrongAnswers : Z;
  in_timeSpentMinutes : Z;
  in_completedGoal : bool
}.

Inductive GameType := quick_match | sprint | type_it | listening.

#[global] Instance GameType_eq_dec : EqDecision GameType.
Proof. solve_decision. Defined.

Module Game.
Record Score := {
  game : GameType;
  score : Z;
  date : string;
  accuracy : option Z;
  streak : option Z;
  timeTaken : option Z
}.
End Game.

(** The score lists by game, [Record<GameType, GameScore[]>]: a game
    without a property reads as the empty list ([allScores[game] || []]). *)
Record Store := {
  world : World;
  sessions : option (list DailySession);
  last_session : option Z;
  game_scores : option (GameType → list Game.Score)
}.

Definition MS (A : Type) : Type := Store → (Err + A) * Store.

#[global] Instance MS_ret : MRet MS := λ A a s, (inr a, s).

#[global] Instance MS_bind : MBind MS := λ A B k m s,
  match m s with
  | (inl e, s') => (inl e, s')
  | (inr a, s') => k a s'
  end.

Definition try_catchS {A} (m : MS A) (handler : MS A) : MS A :=
  λ s, match m s with
       | (inl _, s') => handler s'
       | r => r
       end.

(** An operation on the word statistics and the streak, run in the
    whole store. *)
Definition lift {A} (m : M A) : MS A :=
  λ s, (fst (m (world s)),
        {| world := snd (m (world s)); sessions := sessions s;
           last_session := last_session s; game_scores := game_scores s |}).

Definition getsS {A} (f : Store → A) : MS A := λ s, (inr (f s), s).

Definition put_sessions (v : list DailySession) : MS unit :=
  λ s, (inr tt, {| world := world s; sessions := Some v;
                   last_session := last_session s;
                   game_scores := game_scores s |}).

Definition put_last_session (v : option Z) : MS unit :=
  λ s, (inr tt, {| world := world s; sessions := sessions s;
                   last_session := v; game_scores := game_scores s |}).

Definition put_game_scores (v : GameType → list Game.Score) : MS unit :=
  λ s, (inr tt, {| world := world s; sessions := sessions s;
                   last_session := last_session s; game_scores := Some v |}).

Definition put_current_streak (v : Z) : M unit :=
  λ st, (inr tt, {| word_stats := word_stats st;
                    current_streak := Some v;
                    faults := faults st;
                    random := random st |}).

Definition set_CURRENT_STREAK (v : Z) : M unit :=
  access ;; put_current_streak v.

Definition get_SESSIONS : MS (option (list DailySession)) :=
  lift access ;; getsS sessions.

Definition set_SESSIONS (v : list DailySession) : MS unit :=
  lift access ;; put_sessions v.

(** [null] and [undefined] both read as [None]. *)
Definition get_LAST_SESSION_DATE : MS (option Z) :=
  lift access ;; getsS last_session.

Definition set_LAST_SESSION_DATE (v : option Z) : MS unit :=
  lift access ;; put_last_session v.

Definition get_GAME_SCORES : MS (option (GameType → list Game.Score)) :=
  lift access ;; getsS game_scores.

Definition set_GAME_SCORES (v : GameType → list Game.Score) : MS unit :=
  lift access ;; put_game_scores v.

Definition getSessions : MS (list DailySession) :=
  try_catchS
    (ss ← get_SESSIONS; mret (default [] ss))
    (mret []).

(* ================================================================== *)
(** ** Day streak and sessions *)

Definition updateStreak `{!TimeZone} (now : Z) : MS Z :=
  lastSession ← get_LAST_SESSION_DATE;
  let today := getTodayString now in
  currentStreak ← lift getStreak;
  if bool_decide (lastSession = Some today) then mret currentStreak
  else
    let yesterday := toISODate (addDays now (-1)) in
    let currentStreak :=
      if bool_decide (lastSession = Some yesterday) then currentStreak + 1
      else if bool_decide (lastSession ≠ Some today) then 1
      else currentStreak in
    lift (set_CURRENT_STREAK currentStreak) ;;
    set_LAST_SESSION_DATE (Some today) ;;
    mret currentStreak.

(** [sessions.findIndex(s => s.date === today)], [None] for -1. *)
Fixpoint findIndex_date (today : Z) (ss : list DailySession) : option nat :=
  match ss with
  | [] => None
  | s :: ss' =>
      if bool_decide (date s = today) then Some 0%nat
      else S <$> findIndex_date today ss'
  end.

Definition recordSession `{!TimeZone} (now : Z) (session : SessionInput) : MS unit :=
  ss ← getSessions;
  let today := getTodayString now in
  let newSession :=
    {| date := today; wordsStudied := in_wordsStudied session;
       correctAnswers := in_correctAnswers session;
       wrongAnswers := in_wrongAnswers session;
       timeSpentMinutes := in_timeSpentMinutes session;
       completedGoal := in_completedGoal session |} in
  let ss :=
    match findIndex_date today ss with
    | Some i =>
        match ss !! i with
        | Some old =>
            <[i := {| date := date old;
                      wordsStudied := wordsStudied old + in_wordsStudied session;
                      correctAnswers :=
                        correctAnswers old + in_correctAnswers session;
                      wrongAnswers := wrongAnswers old + in_wrongAnswers session;
                      timeSpentMinutes :=
                        timeSpentMinutes old + in_timeSpentMinutes session;
                      completedGoal :=
                        in_completedGoal session || completedGoal old |}]> ss
        | None => ss
        end
    | None => ss ++ [newSession]
    end in
  let cutoff := toISODate (addDays now (-30)) in
  let recentSessions := filter (λ s, cutoff ≤ date s) ss in
  set_SESSIONS recentSessions ;;
  updateStreak now ;;
  mret tt.

(* ================================================================== *)
(** ** Reset of everything *)

Definition resetAllProgress : MS unit :=
  lift (set_WORD_STATS ∅) ;;
  set_SESSIONS [] ;;
  lift (set_CURRENT_STREAK 0) ;;
  set_LAST_SESSION_DATE None.

(* ================================================================== *)
(** ** Game scores *)

Definition no_scores : GameType → list Game.Score := λ _, [].

Definition getGameScores : MS (GameType → list Game.Score) :=
  try_catchS
    (scores ← get_GAME_SCORES; mret (default no_scores scores))
    (mret no_scores).

(** Where [sort((a, b) => b.score - a.score)] puts an element that stood
    before all the others: before the first one that does not beat it. *)
Fixpoint insert_desc (x : Game.Score) (l : list Game.Score) : list Game.Score :=
  match l with
  | [] => [x]
  | y :: l' =>
      if bool_decide (Game.score x < Game.score y) then y :: insert_desc x l'
      else x :: y :: l'
  end.

(** [sort((a, b) => b.score - a.score)]: by falling score, elements of
    equal score kept in their order (the sort is stable). *)
Fixpoint sort_desc (l : list Game.Score) : list Game.Score :=
  match l with
  | [] => []
  | x :: l' => insert_desc x (sort_desc l')
  end.

Definition saveGameScore (gameScore : Game.Score) : MS unit :=
  allScores ← getGameScores;
  let g := Game.game gameScore in
  let scores := allScores g ++ [gameScore] in
  let allScores := <[g := slice0 10 (sort_desc scores)]> allScores in
  set_GAME_SCORES allScores.



(* ================================================================== *)
(** ** Vocabulary of the further properties *)

(** A well-formed record, stored under its own id: the counters are not
    negative, the graded answers are among the exposures, the streak is
    among the correct answers, the level is within bounds, and the dates
    are set exactly when there is something to date. *)
Definition stats_wf (k : string) (s : WordStats) : Prop :=
  wordId s = k
  ∧ 0 ≤ correct s ∧ 0 ≤ wrong s ∧ correct s + wrong s ≤ seen s
  ∧ 0 ≤ streak s ≤ correct s
  ∧ 0 ≤ level s ≤ 5
  ∧ (seen s = 0 → nextDue s = None ∧ lastSeen s = None)
  ∧ (0 < seen s → is_Some (nextDue s) ∧ is_Some (lastSeen s))
  ∧ (wrong s = 0 → lastWrongDate s = None)
  ∧ (0 < wrong s → is_Some (lastWrongDate s)).

Definition store_wf (st : World) : Prop :=
  map_Forall stats_wf (default ∅ (word_stats st)).

(** What a learner can do to the word statistics. *)
Inductive Op :=
| Answer (now : Z) (w : string) (r : LearningResult)
| ToggleHard (w : string)
| ResetWord (w : string).

Definition run_op `{!TimeZone} (o : Op) : M unit :=
  match o with
  | Answer now w r => updateStatsOnResult now w r ;; mret tt
  | ToggleHard w => toggleHardFlag w ;; mret tt
  | ResetWord w => resetWordProgress w
  end.

(** The world after a series of operations, each run whether or not the
    ones before it succeeded. *)
Fixpoint run_ops `{!TimeZone} (ops : list Op) (st : World) : World :=
  match ops with
  | [] => st
  | o :: ops' => run_ops ops' (run_op o st).2
  end.

(** The record of a word that was seen, for the progress summary. *)
Definition seen_stats (heap : nat → Word) (m : gmap string WordStats)
    (w : nat) : option WordStats :=
  match m !! id (heap w) with
  | Some s => if bool_decide (seen s = 0) then None else Some s
  | None => None
  end.

(** The level under which the summary counts a word: 0 for a new word. *)
Definition counted_level (heap : nat → Word) (m : gmap string WordStats)
    (w : nat) : Z :=
  from_option level 0 (seen_stats heap m w).

(** Seen and at level 4 or 5; seen and at level 1, 2 or 3; seen and below
    level 4. *)
Definition at_mastered (s : WordStats) : bool := bool_decide (4 ≤ level s).
Definition at_learned (s : WordStats) : bool :=
  bool_decide (1 ≤ level s) && bool_decide (level s ≤ 3).
Definition at_in_progress (s : WordStats) : bool := bool_decide (level s < 4).

(** How many words of a list satisfy a test. *)
Definition count (p : nat → bool) (l : list nat) : Z :=
  Z.of_nat (length (filter p l)).

(** Seen and at level 1 or above: what the summary counts as learned
    within a category. *)
Definition at_some_level (s : WordStats) : bool := bool_decide (1 ≤ level s).

(** The words of a category, and those of them seen at level 1 or above. *)
Definition in_category (heap : nat → Word) (c : string) (w : nat) : bool :=
  bool_decide (category (heap w) = c).

Definition learned_in_category (heap : nat → Word)
    (m : gmap string WordStats) (c : string) (w : nat) : bool :=
  in_category heap c w && seen_and heap m at_some_level w.

(** The day streak as [getStreak] reads it, [streak || 0]. *)
Definition streak_of (s : Store) : Z := default 0 (current_streak (world s)).

(** The store once the streak and the date of the last session have been
    written. *)
Definition with_streak (v : Z) (today : Z) (s : Store) : Store :=
  {| world := {| word_stats := word_stats (world s);
                 current_streak := Some v;
                 faults := faults (world s);
                 random := random (world s) |};
     sessions := sessions s;
     last_session := Some today;
     game_scores := game_scores s |}.

(** The streak [updateStreak] arrives at on a day, from the stored streak
    and the date of the last session, given the date it takes for
    yesterday; and the same where yesterday is the day before today. *)
Definition streak_after (today yesterday : Z) (s : Store) : Z :=
  if bool_decide (last_session s = Some today) then streak_of s
  else if bool_decide (last_session s = Some yesterday) then streak_of s + 1
  else 1.

Definition next_streak (today : Z) (s : Store) : Z :=
  streak_after today (today - 1) s.

(** The entry [recordSession] opens for a day, the entry it makes of an
    existing one, and the list of sessions it arrives at: the first entry
    of the day updated, or a new entry at the end. *)
Definition new_session (today : Z) (inp : SessionInput) : DailySession :=
  {| date := today; wordsStudied := in_wordsStudied inp;
     correctAnswers := in_correctAnswers inp;
     wrongAnswers := in_wrongAnswers inp;
     timeSpentMinutes := in_timeSpentMinutes inp;
     completedGoal := in_completedGoal inp |}.

Definition add_session (inp : SessionInput) (old : DailySession) : DailySession :=
  {| date := date old;
     wordsStudied := wordsStudied old + in_wordsStudied inp;
     correctAnswers := correctAnswers old + in_correctAnswers inp;
     wrongAnswers := wrongAnswers old + in_wrongAnswers inp;
     timeSpentMinutes := timeSpentMinutes old + in_timeSpentMinutes inp;
     completedGoal := in_completedGoal inp || completedGoal old |}.

Fixpoint merge_session (today : Z) (inp : SessionInput)
    (ss : list DailySession) : list DailySession :=
  match ss with
  | [] => [new_session today inp]
  | x :: ss' =>
      if bool_decide (date x = today) then add_session inp x :: ss'
      else x :: merge_session today inp ss'
  end.


(** The sessions as [getSessions] reads them, and the store once a list
    of sessions has been written. *)
Definition sessions_of (s : Store) : list DailySession :=
  default [] (sessions s).

Definition with_sessions (v : list DailySession) (s : Store) : Store :=
  {| world := world s; sessions := Some v; last_session := last_session s;
     game_scores := game_scores s |}.

(** The scores of a game as [getGameScores] reads them. *)
Definition scores_of (s : Store) (g : GameType) : list Game.Score :=
  default no_scores (game_scores s) g.


(** More sample data: a store with two recorded sessions, the last one on
    day 40, and a session of day 40 to add. *)
Module SampleStore.
Definition input (studied right wrng minutes : Z) (goal : bool)
  : SessionInput :=
  {| in_wordsStudied := studied; in_correctAnswers := right;
     in_wrongAnswers := wrng; in_timeSpentMinutes := minutes;
     in_completedGoal := goal |}.

Definition two_sessions : Store :=
  {| world := Sample.blank;
     sessions := Some [new_session 2 (input 9 9 0 5 false);
                       new_session 40 (input 2 1 1 1 false)];
     last_session := Some 39;
     game_scores := None |}.

Definition empty : Store :=
  {| world := Sample.blank; sessions := None; last_session := None;
     game_scores := None |}.

Definition a_score (g : GameType) (n : Z) : Game.Score :=
  {| Game.game := g; Game.score := n; Game.date := "2024-01-01T10:00:00.000Z";
     Game.accuracy := None; Game.streak := None; Game.timeTaken := None |}.
End SampleStore.

(* ================================================================== *)
(** ** Edit distance (utils/text.ts)

    A string is the list of its UTF-16 code units, [charAt] the lookup in
    it (the empty string it gives out of range is [None]). The matrix is
    an array of arrays of numbers, built and read through index
    assignments and index reads. *)

Section Levenshtein.
Context {char : Type} `{!EqDecision char}.

(** [array[i] = v]: on an existing index the element is replaced, on the
    index right behind the last element the array grows by one. An
    assignment further out would leave holes; it is [None] here. *)
Definition assign {A} (i : nat) (v : A) (array : list A) : option (list A) :=
  if decide (i < length array)%nat then Some (<[i := v]> array)
  else if decide (i = length array) then Some (array ++ [v])
  else None.

(** [matrix[i][j]] read and written; a row or a cell that is not there
    gives no number. *)
Definition get2 (i j : nat) (matrix : list (list Z)) : option Z :=
  row ← matrix !! i; row !! j.

Definition set2 (i j : nat) (v : Z) (matrix : list (list Z))
  : option (list (list Z)) :=
  row ← matrix !! i; row' ← assign j v row; Some (<[i := row']> matrix).

(** [for (let i = lo; i <= hi; i++) body], over the values of [i]. *)
Fixpoint for_each {S} (range : list nat) (body : nat → S → option S) (s : S)
  : option S :=
  match range with
  | [] => Some s
  | i :: range' => s' ← body i s; for_each range' body s'
  end.

Definition fill_cell (a b : list char) (i j : nat) (matrix : list (list Z))
  : option (list (list Z)) :=
  if decide (b !! (i - 1)%nat = a !! (j - 1)%nat) then
    v ← get2 (i - 1) (j - 1) matrix; set2 i j v matrix
  else
    x ← get2 (i - 1) (j - 1) matrix;
    y ← get2 i (j - 1) matrix;
    z ← get2 (i - 1) j matrix;
    set2 i j (Z.min (x + 1) (Z.min (y + 1) (z + 1))) matrix.

Definition levenshteinDistance (a b : list char) : option Z :=
  if decide (length a = 0%nat) then Some (Z.of_nat (length b))
  else if decide (length b = 0%nat) then Some (Z.of_nat (length a))
  else
    matrix ← for_each (seq 0 (S (length b)))
                (λ i matrix, assign i [Z.of_nat i] matrix) [];
    matrix ← for_each (seq 0 (S (length a)))
                (λ j matrix, set2 0 j (Z.of_nat j) matrix) matrix;
    matrix ← for_each (seq 1 (length b))
                (λ i matrix,
                   for_each (seq 1 (length a)) (fill_cell a b i) matrix)
                matrix;
    get2 (length b) (length a) matrix.

(** The least number of edits, by the recurrence on the first characters. *)
Fixpoint edit (xs ys : list char) {struct xs} : Z :=
  match xs with
  | [] => Z.of_nat (length ys)
  | x :: xs' =>
      (fix edit_x (ys : list char) : Z :=
         match ys with
         | [] => Z.of_nat (length xs)
         | y :: ys' =>
             if decide (x = y) then edit xs' ys'
             else Z.min (edit xs' ys' + 1)
                        (Z.min (edit_x ys' + 1) (edit xs' ys + 1))
         end) ys
  end.

(** Ways to turn one string into the other, with the number of characters
    deleted, inserted or replaced. *)
Inductive edits : list char → list char → nat → Prop :=
  | edits_nil : edits [] [] 0
  | edits_keep x xs ys n : edits xs ys n → edits (x :: xs) (x :: ys) n
  | edits_replace x y xs ys n : edits xs ys n → edits (x :: xs) (y :: ys) (S n)
  | edits_delete x xs ys n : edits xs ys n → edits (x :: xs) ys (S n)
  | edits_insert y xs ys n : edits xs ys n → edits xs (y :: ys) (S n).

(** The matrix while the cell [(i, j)] is the next to fill: the rows
    before [i] are full, row [i] has its first [j] cells, the rows after
    have their first cell. *)
Definition cell (a b : list char) (i j : nat) : Z :=
  edit (reverse (take i b)) (reverse (take j a)).

Definition filled (a b : list char) (i j : nat) : list (list Z) :=
  (λ i', cell a b i' <$>
           seq 0 (if decide (i' < i)%nat then S (length a)
                  else if decide (i' = i) then j else 1%nat))
    <$> seq 0 (S (length b)).
End Levenshtein.

(* ================================================================== *)
(** ** Word list converter (scripts/csv-to-words-json.js)

    The loop over the parsed records of [convertCsvToJson]. A record is
    taken with its columns already chosen by the column mapping: a field
    is the text of its cell, or [None] where the record has no such cell
    (or the mapping no such column). [trim] and [generateId] work on
    Unicode text and are left open; nothing below depends on what they
    return. The loop that looks for a free id runs on fuel. *)

Module Csv.
Record Row := {
  spanish : option string;
  english : option string;
  category : option string;
  pronunciation : option string;
  example : option string
}.
End Csv.

Record Converted := {
  words : list Word;
  skipped : Z;
  seenIds : gset string
}.

Section Converter.
Variables trim generateId : string → string.

(** [record[column]?.trim()] where it is truthy: a text that is not
    empty. *)
Definition trimmed (field : option string) : option string :=
  match field with
  | Some s => if decide (trim s = "") then None else Some (trim s)
  | None => None
  end.

(** [while (seenIds.has(`${id}-${counter}`)) counter++] *)
Fixpoint free_counter (fuel : nat) (seenIds : gset string) (id : string)
    (counter : Z) : option Z :=
  match fuel with
  | O => None
  | S fuel' =>
      if decide (id +:+ "-" +:+ pretty counter ∈ seenIds)
      then free_counter fuel' seenIds id (counter + 1)
      else Some counter
  end.

Definition convert_record (fuel : nat) (record : Csv.Row) (acc : Converted)
  : option Converted :=
  match trimmed (Csv.spanish record), trimmed (Csv.english record) with
  | Some spanish, Some english =>
      let id := generateId spanish in
      id ← (if decide (id ∈ seenIds acc) then
              counter ← free_counter fuel (seenIds acc) id 2;
              Some (id +:+ "-" +:+ pretty counter)
            else Some id);
      let word :=
        {| id := id; spanish := spanish; english := english;
           category :=
             default "General" (trimmed (Csv.category record));
           pronunciation := trimmed (Csv.pronunciation record);
           example := trimmed (Csv.example record) |} in
      Some {| words := words acc ++ [word]; skipped := skipped acc;
              seenIds := {[id]} ∪ seenIds acc |}
  | _, _ =>
      Some {| words := words acc; skipped := skipped acc + 1;
              seenIds := seenIds acc |}
  end.

(** [records.forEach(...)], from the given words, count and ids. *)
Fixpoint convert_from (fuel : nat) (records : list Csv.Row) (acc : Converted)
  : option Converted :=
  match records with
  | [] => Some acc
  | record :: records' =>
      acc' ← convert_record fuel record acc; convert_from fuel records' acc'
  end.

Definition convert_records (fuel : nat) (records : list Csv.Row)
  : option Converted :=
  convert_from fuel records {| words := []; skipped := 0; seenIds := ∅ |}.

(** The rows that are written: those with a Spanish and an English text. *)
Definition written (record : Csv.Row) : Prop :=
  is_Some (trimmed (Csv.spanish record))
  ∧ is_Some (trimmed (Csv.english record)).

#[global] Instance written_dec record : Decision (written record) :=
  decide (is_Some (trimmed (Csv.spanish record))
          ∧ is_Some (trimmed (Csv.english record))).

(** What a written word takes from its record. *)
Definition word_of (record : Csv.Row) (w : Word) : Prop :=
  trimmed (Csv.spanish record) = Some (spanish w)
  ∧ trimmed (Csv.english record) = Some (english w)
  ∧ category w = default "General" (trimmed (Csv.category record))
  ∧ pronunciation w = trimmed (Csv.pronunciation record)
  ∧ example w = trimmed (Csv.example record).

(** An id the converter can give to a word: the id generated from its
    Spanish text, as it is or with a number from 2 on behind a dash. *)
Definition id_of (w : Word) (id : string) : Prop :=
  id = generateId (spanish w)
  ∨ ∃ k, 2 ≤ k ∧ id = generateId (spanish w) +:+ "-" +:+ pretty k.
End Converter.

(** Settles a decidable statement about concrete data by evaluation. *)
Ltac by_evaluation := refine (bool_decide_unpack _ _); vm_compute; exact I.

(* ================================================================== *)
(** * Properties *)

Section Zone.
Context {zone : TimeZone}.

(** ** Dates *)

Lemma toISODate_addDays now d :
  whole_days now d → toISODate (addDays now d) = toISODate now + d.
Proof. intros ->. unfold toISODate, msPerDay. by rewrite Z.div_add. Qed.

(** Whatever the zone, moving by [d] local days ends within two days of
    [d] times 24 hours. *)
Lemma addDays_near now d :
  Z.abs (addDays now d - (now + d * msPerDay)) ≤ 2 * msPerDay.
Proof.
  unfold addDays.
  pose proof (LocalTime_near now).
  pose proof (UTC_near (LocalTime now + d * msPerDay)). lia.
Qed.

Lemma toISODate_addDays_near now d :
  toISODate now + d - 2 ≤ toISODate (addDays now d) ≤ toISODate now + d + 2.
Proof.
  pose proof (addDays_near now d) as Hn. unfold toISODate, msPerDay in *.
  split.
  - replace (now `div` 86400000 + d - 2)
      with ((now + (d - 2) * 86400000) `div` 86400000)
      by (rewrite Z.div_add by lia; lia).
    apply Z.div_le_mono; lia.
  - replace (now `div` 86400000 + d + 2)
      with ((now + (d + 2) * 86400000) `div` 86400000)
      by (rewrite Z.div_add by lia; lia).
    apply Z.div_le_mono; lia.
Qed.

Lemma toISODate_parseDate d : toISODate (parseDate d) = d.
Proof. unfold toISODate, parseDate, msPerDay. by rewrite Z.div_mul. Qed.

Lemma computeNextDue_interval now lvl :
  whole_days now (interval lvl) →
  computeNextDue now lvl = getTodayString now + interval lvl.
Proof. unfold computeNextDue, interval. cbv zeta. apply toISODate_addDays. Qed.

Lemma computeNextDue_near now lvl :
  getTodayString now + interval lvl - 2 ≤ computeNextDue now lvl
  ≤ getTodayString now + interval lvl + 2.
Proof.
  unfold computeNextDue, interval. cbv zeta. apply toISODate_addDays_near.
Qed.

Lemma parseDate_today_le now : parseDate (getTodayString now) ≤ now.
Proof.
  unfold parseDate, getTodayString, toISODate, msPerDay.
  pose proof (Z.mul_div_le now 86400000). lia.
Qed.

Lemma now_lt_tomorrow now : now < parseDate (getTodayString now + 1).
Proof.
  unfold parseDate, getTodayString, toISODate, msPerDay.
  pose proof (Z.mod_pos_bound now 86400000).
  pose proof (Z.div_mod now 86400000). lia.
Qed.


(** ** Running the storage operations *)

Lemma getWordStats_run st :
  getWordStats st = (inr (read_stats st), after_accesses 1 st).
Proof.
  unfold getWordStats, try_catch, get_WORD_STATS, access, read_stats, fault_at,
    after_accesses, gets, mbind, M_bind, mret, M_ret.
  destruct st as [ws cs fs rs]; simpl.
  destruct fs as [|[e|] fs]; simpl; by rewrite ?drop_0.
Qed.

Lemma saveWordStats_run m st :
  saveWordStats m st =
    match fault_at 0 st with
    | Some e => (inl e, after_accesses 1 st)
    | None => (inr (), {| word_stats := Some m;
                          current_streak := current_streak st;
                          faults := drop 1 (faults st);
                          random := random st |})
    end.
Proof.
  unfold saveWordStats, set_WORD_STATS, access, put_word_stats, fault_at,
    after_accesses, mbind, M_bind.
  destruct st as [ws cs fs rs]; simpl.
  destruct fs as [|[e|] fs]; simpl; by rewrite ?drop_0.
Qed.

Lemma getStreak_run st :
  ∃ n, getStreak st = (inr n, after_accesses 1 st).
Proof.
  unfold getStreak, try_catch, get_CURRENT_STREAK, access, after_accesses,
    gets, mbind, M_bind, mret, M_ret.
  destruct st as [ws cs fs rs]; simpl.
  destruct fs as [|[e|] fs]; simpl; rewrite ?drop_0; eauto.
Qed.

Lemma fault_at_after n k st :
  fault_at n (after_accesses k st) = fault_at (k + n) st.
Proof. unfold fault_at, after_accesses; simpl. by rewrite lookup_drop. Qed.

Lemma after_accesses_after n k st :
  after_accesses n (after_accesses k st) = after_accesses (k + n) st.
Proof.
  unfold after_accesses; simpl. f_equal. rewrite drop_drop. done.
Qed.

Lemma updateStatsOnResult_run now w r st :
  updateStatsOnResult now w r st =
    let stats := apply_result now w r (read_stats st !! w) in
    match fault_at 1 st with
    | Some e => (inl e, after_accesses 2 st)
    | None => (inr stats,
               {| word_stats := Some (<[w := stats]> (read_stats st));
                  current_streak := current_streak st;
                  faults := drop 2 (faults st);
                  random := random st |})
    end.
Proof.
  unfold updateStatsOnResult.
  unfold mbind at 1, M_bind at 1. rewrite getWordStats_run.
  unfold mbind, M_bind. rewrite saveWordStats_run.
  rewrite fault_at_after. simpl.
  destruct (fault_at 1 st).
  - by rewrite after_accesses_after.
  - unfold mret, M_ret. by rewrite drop_drop.
Qed.

Lemma toggleHardFlag_run w st :
  toggleHardFlag w st =
    let flag := from_option (λ s, negb (hardFlag s)) true (read_stats st !! w) in
    let stats :=
      from_option (set_hardFlag flag) (freshStats w true) (read_stats st !! w) in
    match fault_at 1 st with
    | Some e => (inl e, after_accesses 2 st)
    | None => (inr flag,
               {| word_stats := Some (<[w := stats]> (read_stats st));
                  current_streak := current_streak st;
                  faults := drop 2 (faults st);
                  random := random st |})
    end.
Proof.
  unfold toggleHardFlag.
  unfold mbind at 1, M_bind at 1. rewrite getWordStats_run.
  unfold mbind, M_bind. rewrite saveWordStats_run.
  rewrite fault_at_after. simpl.
  destruct (fault_at 1 st).
  - by rewrite after_accesses_after.
  - unfold mret, M_ret. rewrite drop_drop.
    destruct (read_stats st !! w) as [s|] eqn:E; simpl;
      by rewrite lookup_insert_eq.
Qed.

(** ** The result processor *)

Lemma read_stats_ok st : store_ok st → map_Forall (λ _ s, level_ok s) (read_stats st).
Proof.
  unfold store_ok, read_stats. intros H.
  destruct (fault_at 0 st); [apply map_Forall_empty | done].
Qed.




(** What a successful update leaves in the store. *)
Lemma updateStatsOnResult_success now w r st :
  fault_at 1 st = None →
  ∃ st',
    updateStatsOnResult now w r st
      = (inr (apply_result now w r (read_stats st !! w)), st')
    ∧ word_stats st'
      = Some (<[w := apply_result now w r (read_stats st !! w)]> (read_stats st)).
Proof.
  intros Hw. rewrite updateStatsOnResult_run. cbv zeta. rewrite Hw.
  eexists. split; reflexivity.
Qed.

(** C2, amended. For a word whose id the statistics map reads as its own
    ([reads_own]): a Skipped result that is saved adds 1 to [seen], sets
    [lastSeen] to today and sets [nextDue] to the date [computeNextDue]
    gives for the (unchanged) level, the UTC date reached by moving now by
    the interval of the level in local calendar days. That date is today
    plus the interval when no change of the local clock lies in between,
    and within two days of it in any zone. [level], [streak], [correct],
    [wrong], [lastWrongDate], [hardFlag] and [wordId] keep their values,
    and so do the records of the other words. The due date therefore
    stays as it was only when it already was that date. *)
Theorem skip_effect (now : Z) (w : string) (st : World) :
  reads_own (read_stats st) w →
  fault_at 1 st = None →
  ∃ s' st',
    updateStatsOnResult now w Skipped st = (inr s', st')
    ∧ seen s' = seen (stats_before w st) + 1
    ∧ lastSeen s' = Some (getTodayString now)
    ∧ nextDue s' = Some (computeNextDue now (level (stats_before w st)))
    ∧ (whole_days now (interval (level (stats_before w st))) →
       nextDue s'
       = Some (getTodayString now + interval (level (stats_before w st))))
    ∧ getTodayString now + interval (level (stats_before w st)) - 2
      ≤ computeNextDue now (level (stats_before w st))
      ≤ getTodayString now + interval (level (stats_before w st)) + 2
    ∧ level s' = level (stats_before w st)
    ∧ streak s' = streak (stats_before w st)
    ∧ correct s' = correct (stats_before w st)
    ∧ wrong s' = wrong (stats_before w st)
    ∧ lastWrongDate s' = lastWrongDate (stats_before w st)
    ∧ hardFlag s' = hardFlag (stats_before w st)
    ∧ wordId s' = wordId (stats_before w st)
    ∧ word_stats st' = Some (<[w := s']> (read_stats st)).
Proof.
  intros _ Hw. destruct (updateStatsOnResult_success now w Skipped st Hw)
    as (st' & Hrun & Hst').
  eexists _, st'. split; [exact Hrun |].
  rewrite Hst'. unfold apply_result, stats_before. simpl.
  split; [done |]. split; [done |]. split; [done |].
  split; [by intros ->%computeNextDue_interval |].
  split; [apply computeNextDue_near |]. by repeat split.
Qed.

Lemma apply_correct_streak now w old :
  streak (apply_result now w Correct old)
  = streak (default (freshStats w false) old) + 1.
Proof.
  unfold apply_result. cbv zeta.
  generalize (default (freshStats w false) old). intros s. simpl.
  repeat case_bool_decide; simpl; lia.
Qed.

Lemma apply_correct_level now w old :
  level (apply_result now w Correct old)
  = level (default (freshStats w false) old)
    + (if bool_decide (1 ≤ streak (default (freshStats w false) old))
          && bool_decide (level (default (freshStats w false) old) < 5)
       then 1 else 0).
Proof.
  unfold apply_result. cbv zeta.
  generalize (default (freshStats w false) old). intros s. simpl.
  repeat case_bool_decide; simpl; lia.
Qed.

Lemma read_stats_fault_free st :
  faults st = [] → read_stats st = default ∅ (word_stats st).
Proof. intros Hf. unfold read_stats, fault_at. by rewrite Hf. Qed.

Lemma updateStatsOnResult_fault_free now w r st :
  faults st = [] →
  updateStatsOnResult now w r st
  = (inr (apply_result now w r (read_stats st !! w)),
     with_stats (<[w := apply_result now w r (read_stats st !! w)]> (read_stats st))
                st).
Proof.
  intros Hf. rewrite updateStatsOnResult_run. cbv zeta.
  unfold fault_at, with_stats. by rewrite Hf.
Qed.

(** C5, amended. For a word whose id the statistics map reads as its own
    ([reads_own]) and a record at level L < 5 whose streak is 0 (an absent
    record, or one whose last graded answer was Wrong), two consecutive
    Correct results leave the level at L on the first and bring it to L+1
    on the second; when the streak is already 1 or more, the first Correct
    brings the level to L+1, and the second to L+2 (at most 5). In both
    cases the streak goes on counting: it is not reset by the level-up. *)
Theorem level_up_rule (now1 now2 : Z) (w : string) (st : World) (L : Z) :
  reads_own (read_stats st) w →
  faults st = [] →
  level (stats_before w st) = L →
  L < 5 →
  0 ≤ streak (stats_before w st) →
  ∃ s1 st1 s2 st2,
    session [(now1, w, Correct); (now2, w, Correct)] st
      = [(inr s1, st1); (inr s2, st2)]
    ∧ streak s1 = streak (stats_before w st) + 1
    ∧ streak s2 = streak (stats_before w st) + 2
    ∧ level s1 = (if bool_decide (streak (stats_before w st) = 0)
                  then L else L + 1)
    ∧ level s2 = (if bool_decide (streak (stats_before w st) = 0)
                  then L + 1 else Z.min 5 (L + 2)).
Proof.
  intros _ Hf HL Hlt Hstreak.
  unfold session.
  rewrite (updateStatsOnResult_fault_free now1) by done.
  cbn [snd].
  rewrite (updateStatsOnResult_fault_free now2) by done.
  eexists _, _, _, _. split; [reflexivity |].
  rewrite (read_stats_fault_free (with_stats _ _)) by done.
  cbn [with_stats word_stats default from_option Datatypes.id].
  rewrite lookup_insert_eq.
  rewrite !apply_correct_streak, !apply_correct_level.
  cbn [default from_option Datatypes.id].
  rewrite ?apply_correct_streak, ?apply_correct_level.
  fold (stats_before w st). rewrite HL.
  repeat (case_bool_decide; simpl); lia.
Qed.

(** C6. A Wrong result that is saved, on a record at level L (the word's
    id being one the statistics map reads as its own, as the id of every
    stored record is): the level becomes L-1 when L > 0 and stays L
    otherwise (so a record at level 0 stays at level 0), the streak is
    reset to 0, [wrong] grows by 1, [lastWrongDate] becomes today and the
    due date is recomputed from the new level, by [computeNextDue]: today
    plus the interval of the new level when no change of the local clock
    lies in between. The new record is the one persisted. *)
Theorem level_down_rule (now : Z) (w : string) (st : World) (L : Z) :
  reads_own (read_stats st) w →
  fault_at 1 st = None →
  level (stats_before w st) = L →
  ∃ s' st',
    updateStatsOnResult now w Wrong st = (inr s', st')
    ∧ level s' = (if bool_decide (0 < L) then L - 1 else L)
    ∧ streak s' = 0
    ∧ wrong s' = wrong (stats_before w st) + 1
    ∧ lastWrongDate s' = Some (getTodayString now)
    ∧ nextDue s' = Some (computeNextDue now (level s'))
    ∧ (whole_days now (interval (level s')) →
       nextDue s' = Some (getTodayString now + interval (level s')))
    ∧ word_stats st' = Some (<[w := s']> (read_stats st)).
Proof.
  intros _ Hw HL.
  destruct (updateStatsOnResult_success now w Wrong st Hw) as (st' & Hrun & Hst').
  eexists _, st'. split; [exact Hrun |].
  rewrite Hst'.
  assert (nextDue (apply_result now w Wrong (read_stats st !! w))
          = Some (computeNextDue now
                    (level (apply_result now w Wrong (read_stats st !! w)))))
    as Hdue.
  { unfold apply_result. cbv zeta.
    generalize (default (freshStats w false) (read_stats st !! w)).
    intros s. simpl. by case_bool_decide. }
  rewrite Hdue.
  split; [| split; [| split; [| split; [| split; [done | split;
    [by intros ->%computeNextDue_interval | done]]]]]];
    unfold stats_before in *; unfold apply_result; cbv zeta;
    revert HL; generalize (default (freshStats w false) (read_stats st !! w));
    intros s HL; simpl; repeat case_bool_decide; simpl; lia || done.
Qed.

(** ** Shuffling *)

Lemma swap_Permutation {A} (i j : nat) (a : list A) : swap i j a ≡ₚ a.
Proof.
  unfold swap.
  destruct (a !! j) as [y|] eqn:Hj; [| done].
  destruct (a !! i) as [x|] eqn:Hi; [| done].
  pose proof (lookup_lt_Some _ _ _ Hj) as Hlj.
  pose proof (lookup_lt_Some _ _ _ Hi) as Hli.
  apply Permutation_inj. split; [by rewrite !length_insert |].
  exists (λ k, if decide (k = i) then j else if decide (k = j) then i else k).
  split.
  - intros k1 k2. repeat case_decide; intros; subst; congruence.
  - intros k. destruct (decide (k = j)) as [->|Hkj].
    + rewrite list_lookup_insert_eq by (by rewrite length_insert).
      case_decide; subst; by rewrite ?decide_True.
    + rewrite list_lookup_insert_ne by done.
      destruct (decide (k = i)) as [->|Hki].
      * by rewrite list_lookup_insert_eq.
      * by rewrite list_lookup_insert_ne.
Qed.

Lemma shuffle_loop_run {A} (i : nat) (l : list A) (st : World) :
  ∃ l' r, shuffle_loop i l st = (inr l', with_random r st) ∧ l' ≡ₚ l.
Proof.
  revert l st. induction i as [|i IH]; intros l st.
  - exists l, (random st). split; [by destruct st | done].
  - cbn [shuffle_loop]. unfold mbind, M_bind, random_below.
    match goal with
    | |- context [shuffle_loop i ?l2 ?st2] =>
        destruct (IH l2 st2) as (l' & r & Hrun & Hp)
    end.
    exists l', r. rewrite Hrun. split; [done |].
    by rewrite Hp, swap_Permutation.
Qed.

Lemma shuffleArray_run {A} (l : list A) (st : World) :
  ∃ l' r, shuffleArray l st = (inr l', with_random r st) ∧ l' ≡ₚ l.
Proof. apply shuffle_loop_run. Qed.

(** ** Classification *)

Section Classification.
Variable heap : nat → Word.
Variable now : Z.
Variable allStats : gmap string WordStats.

Lemma classify_step_buckets b w :
  classify_step heap now allStats b w =
    {| b_dueWords := b_dueWords b ++ filter (is_due heap now allStats) [w];
       b_recentlyWrong :=
         b_recentlyWrong b ++ filter (is_recentlyWrong heap now allStats) [w];
       b_hardWords := b_hardWords b ++ filter (is_hard heap allStats) [w];
       b_newWords := b_newWords b ++ filter (is_new heap allStats) [w];
       b_seenWords :=
         b_seenWords b ++ filter (λ w, negb (is_new heap allStats w)) [w] |}.
Proof.
  unfold classify_step, is_due, is_recentlyWrong, is_hard, seen_and, is_new.
  rewrite !filter_cons, !filter_nil.
  destruct (allStats !! id (heap w)) as [s|]; simpl.
  - case_bool_decide; simpl; rewrite ?app_nil_r; [done |].
    unfold push_if.
    destruct (isDue now (nextDue s)), (hardFlag s),
      (wasWrongRecently now (lastWrongDate s) 7); simpl;
      by rewrite ?app_nil_r.
  - by rewrite ?app_nil_r.
Qed.

Lemma classify_fold b ws :
  fold_left (classify_step heap now allStats) ws b =
    {| b_dueWords := b_dueWords b ++ filter (is_due heap now allStats) ws;
       b_recentlyWrong :=
         b_recentlyWrong b ++ filter (is_recentlyWrong heap now allStats) ws;
       b_hardWords := b_hardWords b ++ filter (is_hard heap allStats) ws;
       b_newWords := b_newWords b ++ filter (is_new heap allStats) ws;
       b_seenWords :=
         b_seenWords b ++ filter (λ w, negb (is_new heap allStats w)) ws |}.
Proof.
  revert b. induction ws as [|w ws IH]; intros b.
  - destruct b; simpl. by rewrite !filter_nil, !app_nil_r.
  - simpl fold_left. rewrite IH, classify_step_buckets. simpl.
    rewrite <- !(assoc_L (++)).
    by rewrite <- !filter_app.
Qed.

(** Each bucket holds, in corpus order, the words its predicate accepts. *)
Lemma classify_buckets ws :
  classify heap now allStats ws =
    {| b_dueWords := filter (is_due heap now allStats) ws;
       b_recentlyWrong := filter (is_recentlyWrong heap now allStats) ws;
       b_hardWords := filter (is_hard heap allStats) ws;
       b_newWords := filter (is_new heap allStats) ws;
       b_seenWords := filter (λ w, negb (is_new heap allStats w)) ws |}.
Proof. unfold classify. by rewrite classify_fold. Qed.
End Classification.

(** ** The recently-wrong window *)

(** C7, amended. [wasWrongRecently] compares instants, not calendar days:
    a last-wrong date counts when its UTC midnight is no earlier than the
    instant reached by moving now back seven local calendar days. When no
    change of the local clock lies in those seven days, that instant is
    seven times 24 hours before now, and in calendar days: a date up to 6
    days before today always counts, a date 8 or more days before today
    never counts, and the date exactly 7 days before today counts only
    when now is exactly UTC midnight. In any zone a date up to 4 days
    before today counts and a date 10 or more days before today does not.
    A missing date never counts. The recently-wrong bucket of the queue
    holds the seen words whose last-wrong date counts in this sense (for a
    corpus whose ids the statistics map reads as its own). *)
Theorem recently_wrong_window (now d : Z) heap allStats words :
  Forall (λ w, reads_own allStats (id (heap w))) words →
  b_recentlyWrong (classify heap now allStats words)
    = filter (λ w, negb (is_new heap allStats w)
                   && from_option
                        (λ s, wasWrongRecently now (lastWrongDate s) 7)
                        false (allStats !! id (heap w)))
             words
  ∧ wasWrongRecently now (Some d) 7
    = bool_decide (addDays now (-7) ≤ parseDate d)
  ∧ (whole_days now (-7) →
     wasWrongRecently now (Some d) 7
     = bool_decide (now - 7 * msPerDay ≤ parseDate d)
     ∧ wasWrongRecently now (Some d) 7
       = (if bool_decide (getTodayString now - 6 ≤ d) then true
          else if bool_decide (d = getTodayString now - 7)
               then bool_decide (now = parseDate (getTodayString now))
               else false))
  ∧ (getTodayString now - 4 ≤ d → wasWrongRecently now (Some d) 7 = true)
  ∧ (d ≤ getTodayString now - 10 → wasWrongRecently now (Some d) 7 = false)
  ∧ wasWrongRecently now None 7 = false.
Proof.
  intros _. split; [by rewrite classify_buckets |].
  pose proof (parseDate_today_le now) as Hle.
  pose proof (now_lt_tomorrow now) as Hlt.
  pose proof (addDays_near now (-7)) as Hnear.
  unfold wasWrongRecently. cbv zeta.
  replace (- (7)) with (-7) by done.
  split; [done |]. split.
  { unfold whole_days. intros ->.
    unfold parseDate, msPerDay in *.
    split; [apply bool_decide_ext; lia |].
    repeat case_bool_decide; try done; lia. }
  unfold parseDate, msPerDay in *.
  split; [| split; [| done]]; intros Hd.
  - apply bool_decide_eq_true. lia.
  - apply bool_decide_eq_false. lia.
Qed.

(** ** Assembling the daily queue *)

(** [buildDailyQueue] always returns: a failed read is taken for an empty
    map, and the five lists are shuffles and prefixes of shuffles of the
    classification buckets. *)
Lemma buildDailyQueue_run heap now words goal st :
  let b := classify heap now (read_stats st) words in
  ∃ q sn sr st',
    buildDailyQueue heap now words goal st = (inr q, st')
    ∧ word_stats st' = word_stats st
    ∧ dueWords q ≡ₚ b_dueWords b
    ∧ recentlyWrong q ≡ₚ b_recentlyWrong b
    ∧ hardWords q ≡ₚ b_hardWords b
    ∧ sn ≡ₚ b_newWords b
    ∧ newWords q = slice0 (Z.max 0 (goal - priorityCount b)) sn
    ∧ sr ≡ₚ filter (λ w, negb (includes w (b_dueWords b))
                         && negb (includes w (b_recentlyWrong b))
                         && negb (includes w (b_hardWords b)))
                   (b_seenWords b)
    ∧ mixedReview q
      = slice0 (Z.max 0 (goal - priorityCount b
                         - Z.of_nat (length (newWords q)))) sr
    ∧ total q = priorityCount b + Z.of_nat (length (newWords q))
                + Z.of_nat (length (mixedReview q))
    ∧ estimatedMinutes q = ceil_half (total q).
Proof.
  intros b. unfold buildDailyQueue.
  unfold mbind at 1, M_bind at 1. rewrite getWordStats_run. fold b.
  unfold mbind at 1, M_bind at 1.
  destruct (shuffleArray_run (b_newWords b) (after_accesses 1 st))
    as (sn & r1 & -> & Hsn).
  unfold mbind at 1, M_bind at 1.
  match goal with
  | |- context [shuffleArray ?l ?st2] =>
      destruct (shuffleArray_run l st2) as (sr & r2 & -> & Hsr)
  end.
  unfold mbind at 1, M_bind at 1.
  match goal with
  | |- context [shuffleArray ?l ?st2] =>
      destruct (shuffleArray_run l st2) as (sd & r3 & -> & Hsd)
  end.
  unfold mbind at 1, M_bind at 1.
  match goal with
  | |- context [shuffleArray ?l ?st2] =>
      destruct (shuffleArray_run l st2) as (srw & r4 & -> & Hsrw)
  end.
  unfold mbind at 1, M_bind at 1.
  match goal with
  | |- context [shuffleArray ?l ?st2] =>
      destruct (shuffleArray_run l st2) as (sh & r5 & -> & Hsh)
  end.
  unfold mret, M_ret.
  eexists _, sn, sr, _. split; [reflexivity |]. simpl.
  repeat split; done.
Qed.

Lemma slice0_0 {A} (l : list A) : slice0 0 l = [].
Proof. done. Qed.

Lemma slice0_length {A} (n : Z) (l : list A) :
  0 ≤ n → Z.of_nat (length (slice0 n l)) = Z.min (Z.of_nat (length l)) n.
Proof.
  intros Hn. unfold slice0. rewrite bool_decide_false by lia.
  rewrite length_take. lia.
Qed.


Lemma slice0_subseteq {A} (n : Z) (l : list A) : slice0 n l ⊆ l.
Proof.
  unfold slice0. intros x.
  case_bool_decide; intros Hx; by apply elem_of_take in Hx as (i & Hi & _);
    eapply list_elem_of_lookup_2.
Qed.

Lemma slice0_NoDup {A} (n : Z) (l : list A) : NoDup l → NoDup (slice0 n l).
Proof.
  unfold slice0. intros Hl.
  case_bool_decide; eapply sublist_NoDup; eauto using sublist_take.
Qed.

Lemma size_list_to_set_le (l : list nat) :
  (size (list_to_set l : gset nat) ≤ length l)%nat.
Proof.
  induction l as [|x l IH].
  - rewrite list_to_set_nil, size_empty. simpl. lia.
  - rewrite list_to_set_cons, size_union_alt, size_singleton. simpl length.
    assert (list_to_set l ∖ {[x]} ⊆ (list_to_set l : gset nat)) as Hsub
      by (by apply subseteq_difference_l).
    apply subseteq_size in Hsub. lia.
Qed.

Lemma distinct_priority_count_le b :
  distinct_priority_count b ≤ priorityCount b.
Proof.
  unfold distinct_priority_count, priorityCount.
  pose proof (size_list_to_set_le
    (b_dueWords b ++ b_recentlyWrong b ++ b_hardWords b)) as H.
  rewrite !length_app in H. lia.
Qed.

(** C9. When the daily goal does not exceed the priority count (the sum of
    the three bucket sizes, or the smaller count of distinct priority
    items), the queue holds every due word, every recently-wrong word and
    every hard word of the corpus, no new word and no mixed-review word;
    its total is the priority count, which may exceed the goal. The
    corpus is one whose identifiers the statistics object reads as its own
    properties: no identifier without a record is a name every object
    inherits. *)
Theorem small_goal_priority_only heap now words goal st :
  corpus_reads_own heap (read_stats st) words →
  goal ≤ priorityCount (classify heap now (read_stats st) words)
  ∨ goal ≤ distinct_priority_count (classify heap now (read_stats st) words) →
  ∃ q st',
    buildDailyQueue heap now words goal st = (inr q, st')
    ∧ dueWords q ≡ₚ filter (is_due heap now (read_stats st)) words
    ∧ recentlyWrong q ≡ₚ filter (is_recentlyWrong heap now (read_stats st)) words
    ∧ hardWords q ≡ₚ filter (is_hard heap (read_stats st)) words
    ∧ newWords q = []
    ∧ mixedReview q = []
    ∧ total q = priorityCount (classify heap now (read_stats st) words)
    ∧ goal ≤ total q.
Proof.
  intros _ Hgoal.
  assert (goal ≤ priorityCount (classify heap now (read_stats st) words)) as Hle.
  { destruct Hgoal as [H|H]; [done |].
    etrans; [exact H | apply distinct_priority_count_le]. }
  destruct (buildDailyQueue_run heap now words goal st)
    as (q & sn & sr & st' & Hrun & _ & Hd & Hrw & Hh & _ & Hnew & _ & Hmix & Htot & _).
  rewrite Z.max_l in Hnew by lia. rewrite slice0_0 in Hnew.
  rewrite Hnew in Hmix. simpl in Hmix.
  rewrite Z.max_l in Hmix by lia. rewrite slice0_0 in Hmix.
  rewrite Hnew, Hmix in Htot. simpl in Htot.
  rewrite classify_buckets in Hd, Hrw, Hh. simpl in Hd, Hrw, Hh.
  exists q, st'. repeat split; try done; lia.
Qed.

(** ** The priority count *)

Lemma includes_true w l : includes w l = true ↔ w ∈ l.
Proof. unfold includes. apply bool_decide_eq_true. Qed.

Lemma includes_false w l : includes w l = false ↔ w ∉ l.
Proof. unfold includes. apply bool_decide_eq_false. Qed.

Lemma includes_filter (p : nat → bool) w l :
  w ∈ l → includes w (filter p l) = p w.
Proof.
  intros Hw. destruct (p w) eqn:E.
  - apply includes_true, list_elem_of_filter. by rewrite E.
  - apply includes_false. rewrite list_elem_of_filter, E. by intros [[] _].
Qed.

Lemma includes_Permutation w l k : l ≡ₚ k → includes w l = includes w k.
Proof. intros H. unfold includes. apply bool_decide_ext. by rewrite H. Qed.

Lemma filter_ext_elem (P Q : nat → Prop) `{∀ x, Decision (P x)}
    `{∀ x, Decision (Q x)} (l : list nat) :
  (∀ x, x ∈ l → P x ↔ Q x) → filter P l = filter Q l.
Proof.
  induction l as [|x l IH]; intros HPQ; [done |].
  rewrite !filter_cons, IH by (intros y Hy; apply HPQ; by right).
  apply decide_ext, HPQ. by left.
Qed.

(** The seen words left for mixed review are the unclassified ones. *)
Lemma rest_unclassified heap now m words :
  filter (λ w, negb (includes w (filter (is_due heap now m) words))
               && negb (includes w (filter (is_recentlyWrong heap now m) words))
               && negb (includes w (filter (is_hard heap m) words)))
         (filter (λ w, negb (is_new heap m w)) words)
  = filter (is_unclassified heap now m) words.
Proof.
  rewrite list_filter_filter. apply filter_ext_elem.
  intros w Hw. rewrite !includes_filter by done.
  unfold is_unclassified. rewrite !andb_True. tauto.
Qed.


Lemma length_filter_sumZ (p : nat → bool) (l : list nat) :
  Z.of_nat (length (filter p l)) = sumZ (λ w, b2z (p w)) l.
Proof.
  induction l as [|w l IH]; [done |].
  rewrite filter_cons. simpl sumZ. rewrite <- IH.
  destruct (p w); simpl; lia.
Qed.

Lemma sumZ_add (f g : nat → Z) (l : list nat) :
  sumZ (λ w, f w + g w) l = sumZ f l + sumZ g l.
Proof. induction l as [|w l IH]; simpl; lia. Qed.

(** C3, amended. The priority count that sets the budgets is the sum of
    the sizes of the due, recently-wrong and hard buckets: every seen word
    is counted once for each of the three predicates it satisfies, so the
    count is at least the number of distinct priority items. The queue
    takes as many new words as that budget and the corpus allow, then as
    many mixed-review words as the remaining budget and the unclassified
    seen words allow. This is stated for a corpus whose identifiers the
    statistics object reads as its own properties: no identifier without
    a record is a name every object inherits. *)
Theorem priority_count_sums_buckets heap now words goal st :
  corpus_reads_own heap (read_stats st) words →
  priorityCount (classify heap now (read_stats st) words)
    = sumZ (priority_matches heap now (read_stats st)) words
  ∧ distinct_priority_count (classify heap now (read_stats st) words)
    ≤ priorityCount (classify heap now (read_stats st) words)
  ∧ ∃ q st',
      buildDailyQueue heap now words goal st = (inr q, st')
      ∧ Z.of_nat (length (newWords q))
        = Z.min (Z.of_nat (length (filter (is_new heap (read_stats st)) words)))
                (Z.max 0 (goal - priorityCount
                                   (classify heap now (read_stats st) words)))
      ∧ Z.of_nat (length (mixedReview q))
        = Z.min (Z.of_nat (length (filter (is_unclassified heap now (read_stats st))
                                          words)))
                (Z.max 0 (goal - priorityCount
                                   (classify heap now (read_stats st) words)
                          - Z.of_nat (length (newWords q)))).
Proof.
  intros _. split; [| split; [apply distinct_priority_count_le |]].
  - rewrite classify_buckets. unfold priorityCount, priority_matches. simpl.
    rewrite !length_filter_sumZ, !sumZ_add. done.
  - destruct (buildDailyQueue_run heap now words goal st)
      as (q & sn & sr & st' & Hrun & _ & _ & _ & _ & Hsn & Hnew & Hsr & Hmix & _).
    exists q, st'. split; [exact Hrun |].
    rewrite classify_buckets in Hsn, Hsr. simpl in Hsn, Hsr.
    rewrite rest_unclassified in Hsr.
    rewrite Hmix, slice0_length by lia.
    rewrite Hnew at 1. rewrite slice0_length by lia.
    by rewrite Hsn, Hsr.
Qed.

(** ** Grouping by category *)

Section AssocList.
Context {V : Type}.
Implicit Types o : list (string * list V).

Lemma prop_get_None {W} k (o : list (string * W)) :
  prop_get k o = None ↔ k ∉ o.*1.
Proof.
  induction o as [|[k' v] o IH]; simpl.
  - split; [intros _; apply not_elem_of_nil | done].
  - case_bool_decide as Hk; rewrite not_elem_of_cons.
    + split; [done | intros [? _]; congruence].
    + rewrite IH. split; [intros ?; split; [congruence | done] | by intros [_ ?]].
Qed.

Lemma prop_get_snoc {W} k k' (v : W) (o : list (string * W)) :
  prop_get k (o ++ [(k', v)])
  = match prop_get k o with
    | Some x => Some x
    | None => if bool_decide (k' = k) then Some v else None
    end.
Proof.
  induction o as [|[k1 v1] o IH]; simpl; [done |].
  destruct (bool_decide (k1 = k)); [done | exact IH].
Qed.

Lemma prop_push_keys k w o : (prop_push k w o).*1 = o.*1.
Proof.
  induction o as [|[k' v] o IH]; [done |].
  cbn [prop_push]. case_bool_decide; rewrite !fmap_cons; [done |].
  by rewrite IH.
Qed.

Lemma prop_get_push k k' w o :
  prop_get k' (prop_push k w o)
  = if bool_decide (k = k') then (λ v, v ++ [w]) <$> prop_get k' o
    else prop_get k' o.
Proof.
  induction o as [|[k1 v1] o IH]; simpl; [by case_bool_decide |].
  repeat (case_bool_decide; simpl; subst); try done;
    rewrite IH; rewrite ?bool_decide_true by done;
    rewrite ?bool_decide_false by done; done.
Qed.
End AssocList.

Section Grouping.
Variable heap : nat → Word.

Lemma filter_category_nil c ws :
  c ∉ (λ w, category (heap w)) <$> ws →
  filter (λ w, category (heap w) = c) ws = [].
Proof.
  intros Hc. induction ws as [|w ws IH]; [done |].
  rewrite fmap_cons, not_elem_of_cons in Hc. destruct Hc as [Hne Hc].
  rewrite filter_cons_False by done. by apply IH.
Qed.

(** After the grouping loop the object has one property per category
    met, created in the order the categories are first met, holding the
    words of the category in corpus order. *)
Lemma group_words_spec ws :
  NoDup (group_words heap ws).*1
  ∧ ∀ c, prop_get c (group_words heap ws)
         = if decide (c ∈ (λ w, category (heap w)) <$> ws)
           then Some (filter (λ w, category (heap w) = c) ws) else None.
Proof.
  induction ws as [|w ws [IHnd IH]] using rev_ind.
  - split; [constructor |]. intros c. rewrite decide_False; [done |].
    apply not_elem_of_nil.
  - unfold group_words in *. rewrite fold_left_app. simpl.
    set (G := fold_left (group_add heap) ws []) in *.
    unfold group_add. set (cat := category (heap w)).
    assert (∀ c, c ∈ (λ w, category (heap w)) <$> ws ++ [w]
                 ↔ c ∈ (λ w, category (heap w)) <$> ws ∨ c = cat) as Hmem.
    { intros c. rewrite fmap_app, elem_of_app. simpl.
      rewrite list_elem_of_singleton. done. }
    split.
    + rewrite prop_push_keys.
      destruct (prop_get cat G) eqn:E; [done |].
      rewrite fmap_app. simpl. apply NoDup_app. split; [done |].
      split; [| apply NoDup_singleton].
      intros c Hc ->%list_elem_of_singleton.
      by apply prop_get_None in E.
    + intros c. rewrite prop_get_push.
      rewrite filter_app, filter_cons, filter_nil.
      pose proof (IH c) as IHc. pose proof (IH cat) as IHcat.
      destruct (decide (cat = c)) as [<-|Hne].
      * rewrite bool_decide_true by done.
        rewrite decide_True by (apply Hmem; by right).
        rewrite (decide_True (P := category (heap w) = cat)) by done.
        destruct (prop_get cat G) as [g|] eqn:E.
        -- rewrite E. case_decide; simplify_eq. done.
        -- rewrite prop_get_snoc, E, bool_decide_true by done. simpl.
           case_decide; [done |]. by rewrite filter_category_nil.
      * rewrite bool_decide_false by done.
        rewrite (decide_False (P := category (heap w) = c)) by done.
        rewrite app_nil_r.
        assert (prop_get c
                  match prop_get cat G with
                  | Some _ => G
                  | None => G ++ [(cat, [])]
                  end = prop_get c G) as ->.
        { destruct (prop_get cat G); [done |].
          rewrite prop_get_snoc, bool_decide_false by done.
          by destruct (prop_get c G). }
        rewrite IHc. apply decide_ext. rewrite Hmem.
        split; [by left | intros [?|?]; [done | by subst]].
Qed.

Lemma Object_keys_Permutation {W} (o : list (string * W)) :
  Object_keys o ≡ₚ o.*1.
Proof.
  unfold Object_keys. rewrite merge_sort_Permutation.
  apply filter_app_complement.
Qed.

(** The categories the second loop walks through: each category of the
    corpus, once. *)
Lemma categories_spec ws :
  NoDup (Object_keys (group_words heap ws))
  ∧ ∀ c, c ∈ Object_keys (group_words heap ws)
         ↔ c ∈ (λ w, category (heap w)) <$> ws.
Proof.
  destruct (group_words_spec ws) as [Hnd Hget].
  split; [by rewrite Object_keys_Permutation |].
  intros c. rewrite Object_keys_Permutation.
  specialize (Hget c). case_decide as Hc.
  - split; [done | intros _].
    destruct (decide (c ∈ (group_words heap ws).*1)) as [|Hn]; [done |].
    apply prop_get_None in Hn. congruence.
  - apply prop_get_None in Hget. done.
Qed.
End Grouping.

(** ** Round-robin emission *)

Lemma interleave_pass_spec byCategory categories index result :
  interleave_pass byCategory categories index result
  = result ++ omap (λ c, prop_get c byCategory ≫= (.!! index)) categories.
Proof.
  unfold interleave_pass. revert result.
  induction categories as [|c cs IH]; intros result; simpl.
  - by rewrite app_nil_r.
  - rewrite IH. destruct (prop_get c byCategory) as [ws|]; simpl; [| done].
    case_bool_decide as Hlt.
    + destruct (ws !! index); simpl; [| by rewrite app_nil_r].
      by rewrite <- (assoc_L (++)).
    + rewrite lookup_ge_None_2 by lia. done.
Qed.

Lemma rounds_S groups k :
  rounds groups (S k) = rounds groups k ++ emit_round groups k.
Proof.
  unfold rounds. rewrite seq_S, fmap_app, concat_app. simpl.
  by rewrite app_nil_r.
Qed.

Lemma take_S_option {A} (l : list A) (k : nat) :
  take (S k) l = take k l ++ option_list (l !! k).
Proof.
  destruct (l !! k) as [x|] eqn:E; simpl.
  - by apply take_S_r.
  - apply lookup_ge_None in E. rewrite !take_ge by lia. by rewrite app_nil_r.
Qed.

Lemma concat_take_S (groups : list (list nat)) (k : nat) :
  concat (take (S k) <$> groups)
  ≡ₚ concat (take k <$> groups) ++ emit_round groups k.
Proof.
  unfold emit_round. induction groups as [|g gs IH]; [done |].
  rewrite !fmap_cons. cbn [concat omap list_omap]. rewrite IH, take_S_option.
  destruct (g !! k) as [x|]; simpl.
  - rewrite <- !(assoc_L (++)). apply Permutation_app_head.
    simpl. by rewrite Permutation_middle.
  - by rewrite app_nil_r, <- (assoc_L (++)).
Qed.

(** The first [k] rounds emit the first [k] items of every group. *)
Lemma rounds_take (groups : list (list nat)) (k : nat) :
  rounds groups k ≡ₚ concat (take k <$> groups).
Proof.
  induction k as [|k IH].
  - unfold rounds. simpl. induction groups as [|g gs IHg]; [done |].
    rewrite fmap_cons. cbn [concat]. by rewrite take_0.
  - by rewrite rounds_S, IH, concat_take_S.
Qed.

Lemma take_all_groups (groups : list (list nat)) (k : nat) :
  (max_list (length <$> groups) ≤ k)%nat → take k <$> groups = groups.
Proof.
  induction groups as [|g gs IH]; [done |].
  rewrite !fmap_cons. simpl. intros Hk.
  rewrite take_ge by lia. rewrite IH by lia. done.
Qed.

Lemma length_concat_take_le (groups : list (list nat)) (k : nat) :
  (length (concat (take k <$> groups)) ≤ length (concat groups))%nat.
Proof.
  induction groups as [|g gs IH]; [done |].
  rewrite fmap_cons. simpl. rewrite !length_app, length_take. lia.
Qed.

Lemma length_concat_take_lt (groups : list (list nat)) (k : nat) :
  (k < max_list (length <$> groups))%nat →
  (length (concat (take k <$> groups)) < length (concat groups))%nat.
Proof.
  induction groups as [|g gs IH]; [simpl; lia |].
  rewrite !fmap_cons. simpl. intros Hk.
  rewrite !length_app, length_take.
  pose proof (length_concat_take_le gs k).
  destruct (decide (k < length g)%nat); [lia |].
  assert (k < max_list (length <$> gs))%nat as Hgs by lia.
  apply IH in Hgs. lia.
Qed.

Lemma max_list_le_concat (groups : list (list nat)) :
  (max_list (length <$> groups) ≤ length (concat groups))%nat.
Proof.
  induction groups as [|g gs IH]; [done |].
  rewrite fmap_cons. simpl. rewrite length_app. lia.
Qed.

(** The [while] loop, entered after [index] rounds, runs the remaining
    rounds and stops when the longest group is exhausted. *)
Lemma interleave_loop_spec byCategory categories groups fuel index :
  (∀ i res, interleave_pass byCategory categories i res
            = res ++ emit_round groups i) →
  (index ≤ max_list (length <$> groups))%nat →
  (max_list (length <$> groups) ≤ index + fuel)%nat →
  interleave_loop fuel byCategory categories (length (concat groups))
    (rounds groups index) index
  = Some (round_robin groups).
Proof.
  intros Hpass. revert index.
  induction fuel as [|fuel IH]; intros index Hle Hfuel.
  - assert (index = max_list (length <$> groups)) as -> by lia.
    simpl. rewrite bool_decide_false; [done |].
    rewrite rounds_take, take_all_groups by lia. lia.
  - simpl. case_bool_decide as Hlen.
    + rewrite Hpass, <- rounds_S. apply IH; [| lia].
      destruct (decide (index = max_list (length <$> groups))) as [->|]; [| lia].
      rewrite rounds_take, take_all_groups in Hlen by lia. lia.
    + destruct (decide (index = max_list (length <$> groups))) as [->|]; [done |].
      exfalso. apply Hlen. rewrite rounds_take.
      apply length_concat_take_lt. lia.
Qed.

Section Interleaving.
Variable heap : nat → Word.

Lemma pass_groups ws cats i :
  (∀ c, c ∈ cats → c ∈ (λ w, category (heap w)) <$> ws) →
  omap (λ c, prop_get c (group_words heap ws) ≫= (.!! i)) cats
  = emit_round (by_category heap cats ws) i.
Proof.
  destruct (group_words_spec heap ws) as [_ Hget].
  unfold emit_round, by_category.
  induction cats as [|c cs IH]; intros Hin; [done |].
  rewrite fmap_cons. cbn [omap list_omap].
  rewrite IH by (intros c' Hc'; apply Hin; by right).
  rewrite Hget, decide_True by (apply Hin; by left). done.
Qed.

Lemma filter_either (P Q : nat → Prop) `{∀ x, Decision (P x)}
    `{∀ x, Decision (Q x)} (l : list nat) :
  (∀ x, P x → Q x → False) →
  filter P l ++ filter Q l ≡ₚ filter (λ x, P x ∨ Q x) l.
Proof.
  intros Hdisj. induction l as [|x l IH]; [done |].
  rewrite !filter_cons.
  destruct (decide (P x)) as [HP|HP], (decide (Q x)) as [HQ|HQ].
  - destruct (Hdisj x HP HQ).
  - rewrite decide_True by (by left). simpl. by rewrite IH.
  - rewrite decide_True by (by right).
    by rewrite <- Permutation_middle, IH.
  - rewrite decide_False by (by intros [?|?]). done.
Qed.

Lemma concat_by_category cats ws :
  NoDup cats →
  concat (by_category heap cats ws)
  ≡ₚ filter (λ w, category (heap w) ∈ cats) ws.
Proof.
  unfold by_category. induction 1 as [|c cs Hc Hnd IH].
  - simpl. induction ws as [|w ws IHw]; [done |].
    rewrite filter_cons_False; [done | apply not_elem_of_nil].
  - rewrite fmap_cons. cbn [concat]. rewrite IH.
    rewrite (filter_either (λ w, category (heap w) = c)
               (λ w, category (heap w) ∈ cs)) by (intros w -> ?; done).
    erewrite list_filter_iff; [done |].
    intros w. by rewrite elem_of_cons.
Qed.

Lemma filter_all (P : nat → Prop) `{∀ x, Decision (P x)} (l : list nat) :
  (∀ x, x ∈ l → P x) → filter P l = l.
Proof.
  induction l as [|x l IH]; intros HP; [done |].
  rewrite filter_cons_True by (apply HP; by left).
  rewrite IH; [done |]. intros y Hy. apply HP. by right.
Qed.

(** The groups partition the words. *)
Lemma groups_Permutation ws :
  concat (by_category heap (Object_keys (group_words heap ws)) ws) ≡ₚ ws.
Proof.
  destruct (categories_spec heap ws) as [Hnd Hmem].
  rewrite concat_by_category by done.
  rewrite filter_all; [done |].
  intros w Hw. apply Hmem. by apply (list_elem_of_fmap_2 (λ w, category (heap w))).
Qed.

Lemma round_robin_Permutation groups : round_robin groups ≡ₚ concat groups.
Proof. unfold round_robin. by rewrite rounds_take, take_all_groups. Qed.

(** The first loop does not throw on categories that name no inherited
    property, and builds the groups. *)
Lemma group_loop_own ws b :
  own_categories heap ws →
  group_loop heap ws b = inr (fold_left (group_add heap) ws b).
Proof.
  revert b. induction ws as [|w ws IH]; intros b Hall; [done |].
  apply Forall_cons in Hall as [Hw Hall]. cbn [group_loop fold_left].
  assert (group_step heap b w = inr (group_add heap b w)) as ->.
  { unfold group_step, group_add.
    destruct (prop_get (category (heap w)) b); [done |].
    by rewrite decide_False. }
  by apply IH.
Qed.

(** It throws as soon as it meets a category that names one. *)
Lemma group_loop_throws ws b :
  Forall (λ k, k ∉ Object_prototype) b.*1 →
  Exists (λ w, category (heap w) ∈ Object_prototype) ws →
  group_loop heap ws b = inl TypeError.
Proof.
  revert b. induction ws as [|w ws IH]; intros b Hb Hex.
  { by apply Exists_nil in Hex. }
  cbn [group_loop]. unfold group_step.
  destruct (decide (category (heap w) ∈ Object_prototype)) as [Hin | Hout].
  - destruct (prop_get (category (heap w)) b) as [g |] eqn:Hget; [| done].
    exfalso. assert (category (heap w) ∈ b.*1) as Hkey.
    { destruct (decide (category (heap w) ∈ b.*1)) as [| Hn]; [done |].
      apply prop_get_None in Hn. congruence. }
    rewrite Forall_forall in Hb. by apply (Hb _ Hkey).
  - apply Exists_cons in Hex as [Hex | Hex]; [done |].
    destruct (prop_get (category (heap w)) b) as [g |] eqn:Hget.
    + apply IH; [| done]. by rewrite prop_push_keys.
    + apply IH; [| done]. rewrite prop_push_keys, fmap_app.
      apply Forall_app. split; [done |]. by repeat constructor.
Qed.

(** With at least as many passes allowed as there are words, the loop
    ends and yields the round-robin emission of the groups. *)
Lemma interleaveByCategory_fuel_spec (words : list nat) (fuel : nat) :
  own_categories heap words →
  (length words ≤ fuel)%nat →
  interleaveByCategory_fuel heap fuel words
  = inr (Some (round_robin
                 (by_category heap (Object_keys (group_words heap words))
                    words))).
Proof.
  intros Hown Hfuel.
  destruct (categories_spec heap words) as [Hnd Hmem].
  set (cats := Object_keys (group_words heap words)) in *.
  set (groups := by_category heap cats words).
  assert (concat groups ≡ₚ words) as Hperm by apply groups_Permutation.
  assert (length (concat groups) = length words) as Hlen by (by rewrite Hperm).
  unfold interleaveByCategory_fuel. rewrite group_loop_own by done.
  fold (group_words heap words). fold cats. do 2 f_equal.
  rewrite <- Hlen. change [] with (rounds groups 0).
  apply interleave_loop_spec.
  - intros i res. rewrite interleave_pass_spec. f_equal.
    apply pass_groups. intros c Hc. by apply Hmem.
  - lia.
  - pose proof (max_list_le_concat groups) as Hmax. lia.
Qed.

Lemma interleaveByCategory_throws (words : list nat) (fuel : nat) :
  Exists (λ w, category (heap w) ∈ Object_prototype) words →
  interleaveByCategory_fuel heap fuel words = inl TypeError.
Proof.
  intros Hex. unfold interleaveByCategory_fuel.
  by rewrite group_loop_throws by (done || constructor).
Qed.

Lemma interleave_Permutation (words : list nat) :
  round_robin (by_category heap (Object_keys (group_words heap words)) words)
  ≡ₚ words.
Proof. by rewrite round_robin_Permutation, groups_Permutation. Qed.

(** X27. For an input none of whose categories names a property
    that objects inherit ([Object_prototype]: "constructor", "toString"
    and the like), the interleaver returns (its loop ends within as many
    passes as there are words), and what it returns is the round-robin
    emission over the words grouped by category: the categories are those
    of the input, each once, in the order [Object.keys] lists them; each
    group keeps the input order of its words; round [i], from 0 on, emits
    the item at position [i] of each group that has one, until the
    longest group is exhausted. The result is a permutation of the input,
    so every item is emitted exactly once. More fuel changes nothing. *)
Theorem interleave_is_round_robin (words : list nat) :
  own_categories heap words →
  NoDup (Object_keys (group_words heap words))
  ∧ (∀ c, c ∈ Object_keys (group_words heap words)
          ↔ ∃ w, w ∈ words ∧ category (heap w) = c)
  ∧ interleaveByCategory heap words
    = inr (Some (round_robin
                   (by_category heap (Object_keys (group_words heap words))
                      words)))
  ∧ (∀ extra,
       interleaveByCategory_fuel heap (length words + extra) words
       = interleaveByCategory heap words)
  ∧ round_robin (by_category heap (Object_keys (group_words heap words)) words)
    ≡ₚ words.
Proof.
  intros Hown.
  destruct (categories_spec heap words) as [Hnd Hmem].
  split; [done |]. split.
  { intros c. rewrite Hmem, list_elem_of_fmap.
    split; intros (w & ? & ?); exists w; by split. }
  split; [by apply interleaveByCategory_fuel_spec |]. split.
  - intros extra. unfold interleaveByCategory.
    rewrite !interleaveByCategory_fuel_spec by (done || lia). done.
  - apply interleave_Permutation.
Qed.
End Interleaving.

(** ** The lists of the daily queue *)

Section QueueLists.
Variable heap : nat → Word.
Variable now : Z.

(** Which words each list of the queue can hold. *)
Lemma buildDailyQueue_members words goal st :
  ∃ q st',
    buildDailyQueue heap now words goal st = (inr q, st')
    ∧ (∀ w, w ∈ words →
         includes w (dueWords q) = is_due heap now (read_stats st) w
         ∧ includes w (recentlyWrong q)
           = is_recentlyWrong heap now (read_stats st) w
         ∧ includes w (hardWords q) = is_hard heap (read_stats st) w)
    ∧ (∀ w, w ∈ newWords q → w ∈ words ∧ is_new heap (read_stats st) w = true)
    ∧ (∀ w, w ∈ mixedReview q →
         w ∈ words ∧ is_unclassified heap now (read_stats st) w = true)
    ∧ (∀ w, w ∈ dueWords q ∨ w ∈ recentlyWrong q ∨ w ∈ hardWords q →
         w ∈ words)
    ∧ (NoDup words →
         NoDup (dueWords q) ∧ NoDup (recentlyWrong q) ∧ NoDup (hardWords q)
         ∧ NoDup (newWords q) ∧ NoDup (mixedReview q)).
Proof.
  destruct (buildDailyQueue_run heap now words goal st)
    as (q & sn & sr & st' & Hrun & _ & Hd & Hrw & Hh & Hsn & Hnew & Hsr
        & Hmix & _).
  rewrite classify_buckets in Hd, Hrw, Hh, Hsn, Hsr.
  cbn [b_dueWords b_recentlyWrong b_hardWords b_newWords b_seenWords]
    in Hd, Hrw, Hh, Hsn, Hsr.
  exists q, st'. split; [exact Hrun |].
  split; [| split; [| split; [| split]]].
  - intros w Hw.
    rewrite (includes_Permutation _ _ _ Hd), (includes_Permutation _ _ _ Hrw),
      (includes_Permutation _ _ _ Hh).
    by rewrite !includes_filter.
  - intros w Hw. rewrite Hnew in Hw. apply slice0_subseteq in Hw.
    rewrite Hsn in Hw. apply list_elem_of_filter in Hw as [Hp Hw].
    split; [done |]. by apply Is_true_eq_true.
  - intros w Hw. rewrite Hmix in Hw. apply slice0_subseteq in Hw.
    rewrite Hsr in Hw. apply list_elem_of_filter in Hw as [Hp Hw].
    apply list_elem_of_filter in Hw as [Hseen Hw]. split; [done |].
    rewrite !includes_filter in Hp by done.
    unfold is_unclassified. apply Is_true_eq_true.
    apply andb_True in Hp as [Hp ?]. apply andb_True in Hp as [? ?].
    rewrite !andb_True. done.
  - intros w. rewrite Hd, Hrw, Hh, !list_elem_of_filter. tauto.
  - intros Hnd. rewrite Hd, Hrw, Hh, Hnew, Hmix.
    repeat split; try (by apply NoDup_filter);
      apply slice0_NoDup; [rewrite Hsn | rewrite Hsr];
      repeat apply NoDup_filter; done.
Qed.
End QueueLists.

Lemma seen_and_new heap m p w :
  is_new heap m w = true → seen_and heap m p w = false.
Proof. unfold seen_and. by intros ->. Qed.

Lemma prioritized_elem q w :
  w ∈ prioritized q ↔ 0 < lists_holding w q.
Proof.
  unfold prioritized, lists_holding, includes.
  rewrite !elem_of_app, !list_elem_of_filter.
  repeat case_bool_decide; simpl; intuition lia.
Qed.

Lemma prioritized_NoDup q :
  NoDup (dueWords q) → NoDup (recentlyWrong q) → NoDup (hardWords q) →
  NoDup (newWords q) → NoDup (mixedReview q) →
  (∀ w, w ∈ newWords q →
     (w ∉ dueWords q) ∧ (w ∉ recentlyWrong q) ∧ (w ∉ hardWords q)) →
  (∀ w, w ∈ mixedReview q →
     (w ∉ dueWords q) ∧ (w ∉ recentlyWrong q) ∧ (w ∉ hardWords q)
     ∧ (w ∉ newWords q)) →
  NoDup (prioritized q).
Proof.
  intros Hd Hrw Hh Hn Hm Dn Dm. unfold prioritized, includes.
  repeat (apply NoDup_app; split; [by try apply NoDup_filter | split]);
    try done; intros w Hw; rewrite ?elem_of_app, ?list_elem_of_filter;
    rewrite ?list_elem_of_filter in Hw.
  - intros [[Hnot _]|[[Hnot _]|[Hin|Hin]]].
    + by case_bool_decide.
    + apply andb_True in Hnot as [Hnot _]. by case_bool_decide.
    + by apply Dn in Hin as [? _].
    + by apply Dm in Hin as [? _].
  - destruct Hw as [_ Hw]. intros [[Hnot _]|[Hin|Hin]].
    + apply andb_True in Hnot as [_ Hnot]. by case_bool_decide.
    + by apply Dn in Hin as (_ & ? & _).
    + by apply Dm in Hin as (_ & ? & _).
  - destruct Hw as [_ Hw]. intros [Hin|Hin].
    + by apply Dn in Hin as (_ & _ & ?).
    + by apply Dm in Hin as (_ & _ & ? & _).
  - intros Hin. by apply Dm in Hin as (_ & _ & _ & ?).
Qed.

(** C4, amended. For a corpus without repeated word objects, whose ids
    the statistics map reads as its own and whose categories name no
    inherited property: the due list, the recently-wrong list and the
    hard list of the DailyQueue hold exactly the words of the corpus that
    satisfy the predicate of the list, so a word that satisfies several
    occurs in several lists; the new list holds new words only, the
    mixed-review list only seen words that satisfy none of the three
    predicates, and a word in one of these two occurs in that list only.
    The precedence due > recentlyWrong > hard > new > mixed is applied
    when the lists are flattened: the array [prioritized] is the due list
    followed by the recently-wrong words that are not due, the hard words
    that are neither due nor recently wrong, the new words and the
    mixed-review words; every word of the queue occurs in it exactly
    once, and [getDailySessionQueue] returns a permutation of it. *)
Theorem queue_lists heap now words goal st :
  corpus_reads_own heap (read_stats st) words →
  own_categories heap words →
  NoDup words →
  ∃ q st' flat,
    buildDailyQueue heap now words goal st = (inr q, st')
    ∧ (∀ w, w ∈ dueWords q
            ↔ w ∈ words ∧ is_due heap now (read_stats st) w = true)
    ∧ (∀ w, w ∈ recentlyWrong q
            ↔ w ∈ words ∧ is_recentlyWrong heap now (read_stats st) w = true)
    ∧ (∀ w, w ∈ hardWords q
            ↔ w ∈ words ∧ is_hard heap (read_stats st) w = true)
    ∧ (∀ w, w ∈ newWords q →
            w ∈ words ∧ is_new heap (read_stats st) w = true
            ∧ lists_holding w q = 1)
    ∧ (∀ w, w ∈ mixedReview q →
            w ∈ words ∧ is_unclassified heap now (read_stats st) w = true
            ∧ lists_holding w q = 1)
    ∧ (∀ w, w ∈ words →
         lists_holding w q
         = if includes w (newWords q) || includes w (mixedReview q) then 1
           else priority_matches heap now (read_stats st) w)
    ∧ (∃ wrong_not_due hard_only,
         prioritized q
         = dueWords q ++ wrong_not_due ++ hard_only ++ newWords q
           ++ mixedReview q
         ∧ wrong_not_due `sublist_of` recentlyWrong q
         ∧ hard_only `sublist_of` hardWords q
         ∧ (∀ w, w ∈ wrong_not_due
                 ↔ w ∈ recentlyWrong q ∧ (w ∉ dueWords q))
         ∧ (∀ w, w ∈ hard_only
                 ↔ w ∈ hardWords q ∧ (w ∉ dueWords q)
                   ∧ (w ∉ recentlyWrong q)))
    ∧ NoDup (prioritized q)
    ∧ (∀ w, w ∈ prioritized q ↔ 0 < lists_holding w q)
    ∧ (∀ w, w ∈ prioritized q → w ∈ words)
    ∧ getDailySessionQueue heap now words goal st = (inr (Some flat), st')
    ∧ flat ≡ₚ prioritized q.
Proof.
  intros _ Hcats Hnd.
  destruct (buildDailyQueue_members heap now words goal st)
    as (q & st' & Hrun & Hprio & Hnew & Hmix & Hin & Hnodup).
  destruct (Hnodup Hnd) as (Nd & Nrw & Nh & Nn & Nm).
  assert (∀ w, w ∈ newWords q →
            (w ∉ dueWords q) ∧ (w ∉ recentlyWrong q) ∧ (w ∉ hardWords q)) as Dn.
  { intros w Hw. destruct (Hnew w Hw) as [Hws Hn].
    destruct (Hprio w Hws) as (Hd & Hr & Hh).
    unfold is_due, is_recentlyWrong, is_hard in *.
    rewrite (seen_and_new heap _ _ _ Hn) in Hd.
    rewrite (seen_and_new heap _ _ _ Hn) in Hr.
    rewrite (seen_and_new heap _ _ _ Hn) in Hh.
    by rewrite <- !includes_false. }
  assert (∀ w, w ∈ mixedReview q →
            (w ∉ dueWords q) ∧ (w ∉ recentlyWrong q) ∧ (w ∉ hardWords q)
            ∧ (w ∉ newWords q)) as Dm.
  { intros w Hw. destruct (Hmix w Hw) as [Hws Hu].
    destruct (Hprio w Hws) as (Hd & Hr & Hh).
    unfold is_unclassified in Hu.
    apply andb_true_iff in Hu as [Hu Hh'].
    apply andb_true_iff in Hu as [Hu Hr'].
    apply andb_true_iff in Hu as [Hn' Hd'].
    apply negb_true_iff in Hn', Hd', Hr', Hh'.
    rewrite Hd' in Hd. rewrite Hr' in Hr. rewrite Hh' in Hh.
    rewrite <- !includes_false. repeat split; try done.
    apply includes_false. intros Hwn. apply Hnew in Hwn as [_ Hwn]. congruence. }
  assert (∀ w, w ∈ words →
            lists_holding w q
            = if includes w (newWords q) || includes w (mixedReview q) then 1
              else priority_matches heap now (read_stats st) w) as Hcount.
  { intros w Hw. destruct (Hprio w Hw) as (Hd & Hr & Hh).
    unfold lists_holding, priority_matches. rewrite <- Hd, <- Hr, <- Hh.
    destruct (includes w (newWords q)) eqn:En.
    + assert (w ∈ newWords q) as Hwn by (by apply includes_true).
      destruct (Dn w Hwn) as (H1%includes_false & H2%includes_false
                              & H3%includes_false).
      destruct (includes w (mixedReview q)) eqn:Em.
      * apply includes_true, Dm in Em as (_ & _ & _ & Em). done.
      * simpl. by rewrite H1, H2, H3.
    + destruct (includes w (mixedReview q)) eqn:Em; simpl; [| lia].
      apply includes_true, Dm in Em as (H1%includes_false & H2%includes_false
                                        & H3%includes_false & _).
      by rewrite H1, H2, H3. }
  assert (∀ w, w ∈ prioritized q → w ∈ words) as Hsub.
  { intros w Hw. apply prioritized_elem in Hw. apply prioritized_elem in Hw.
    unfold prioritized in Hw.
    rewrite !elem_of_app, !list_elem_of_filter in Hw.
    destruct Hw as [?|[[_ ?]|[[_ ?]|[Hw|Hw]]]];
      [apply Hin; auto .. | by apply Hnew in Hw as [? _]
      | by apply Hmix in Hw as [? _]]. }
  assert (own_categories heap (prioritized q)) as Hcats'.
  { unfold own_categories in *. rewrite Forall_forall in Hcats.
    apply Forall_forall. intros w Hw. by apply Hcats, Hsub. }
  exists q, st', (round_robin
    (by_category heap (Object_keys (group_words heap (prioritized q)))
       (prioritized q))).
  split; [exact Hrun |].
  split.
  { intros w. split.
    - intros Hw. assert (w ∈ words) as Hws by (apply Hin; auto).
      split; [done |]. destruct (Hprio w Hws) as (<- & _).
      by apply includes_true.
    - intros [Hws Hp]. destruct (Hprio w Hws) as (Hd & _).
      apply includes_true. by rewrite Hd. }
  split.
  { intros w. split.
    - intros Hw. assert (w ∈ words) as Hws by (apply Hin; auto).
      split; [done |]. destruct (Hprio w Hws) as (_ & <- & _).
      by apply includes_true.
    - intros [Hws Hp]. destruct (Hprio w Hws) as (_ & Hd & _).
      apply includes_true. by rewrite Hd. }
  split.
  { intros w. split.
    - intros Hw. assert (w ∈ words) as Hws by (apply Hin; auto).
      split; [done |]. destruct (Hprio w Hws) as (_ & _ & <-).
      by apply includes_true.
    - intros [Hws Hp]. destruct (Hprio w Hws) as (_ & _ & Hd).
      apply includes_true. by rewrite Hd. }
  split.
  { intros w Hw. destruct (Hnew w Hw) as [Hws Hn].
    split; [done |]. split; [done |].
    rewrite (Hcount w Hws). apply includes_true in Hw. by rewrite Hw. }
  split.
  { intros w Hw. destruct (Hmix w Hw) as [Hws Hu].
    split; [done |]. split; [done |].
    rewrite (Hcount w Hws). apply includes_true in Hw.
    by rewrite Hw, orb_true_r. }
  split; [exact Hcount |].
  split.
  { eexists _, _. split; [reflexivity |].
    split; [apply sublist_filter |]. split; [apply sublist_filter |].
    split; intros w; rewrite list_elem_of_filter; unfold includes.
    - rewrite negb_True, bool_decide_spec. tauto.
    - rewrite andb_True, !negb_True, !bool_decide_spec. tauto. }
  split; [by apply prioritized_NoDup |].
  split; [apply prioritized_elem |].
  split; [exact Hsub |].
  split.
  - unfold getDailySessionQueue, mbind, M_bind. rewrite Hrun.
    unfold interleaveByCategory.
    by rewrite interleaveByCategory_fuel_spec.
  - apply interleave_Permutation.
Qed.

(** ** Storage failures *)

Lemma getProgressSummary_run heap now words st :
  ∃ p, getProgressSummary heap now words st = (inr p, after_accesses 2 st).
Proof.
  unfold getProgressSummary.
  unfold mbind at 1, M_bind at 1. rewrite getWordStats_run.
  unfold mbind, M_bind.
  destruct (getStreak_run (after_accesses 1 st)) as [n ->].
  unfold mret, M_ret. rewrite after_accesses_after. eauto.
Qed.


(* ================================================================== *)
(** * Further properties of the engine *)

(** ** Due dates *)

Lemma interval_cases lvl :
  interval lvl
  = if bool_decide (lvl ≤ 0) then 0
    else if bool_decide (lvl = 1) then 1
    else if bool_decide (lvl = 2) then 3
    else if bool_decide (lvl = 3) then 7
    else if bool_decide (lvl = 4) then 14
    else 30.
Proof.
  unfold interval.
  assert (lvl ≤ 0 ∨ lvl = 1 ∨ lvl = 2 ∨ lvl = 3 ∨ lvl = 4 ∨ 5 ≤ lvl)
    as [H|[->|[->|[->|[->|H]]]]] by lia; try reflexivity.
  - rewrite bool_decide_true by done. rewrite Z.min_l by lia.
    destruct lvl; try reflexivity. lia.
  - rewrite Z.min_r by lia. repeat case_bool_decide; try lia. reflexivity.
Qed.

(** X1. Where no change of the local clock lies between now and the
    interval of a level ahead, the due date computed for the level is
    never before today and never more than 30 days ahead, whatever the
    level (levels above 5 read the last entry of the table, levels below 0
    none), and a higher level never gives an earlier date. In any zone
    the due date is at most two days before today and at most 32 days
    ahead. *)
Theorem next_due_monotone (now l1 l2 : Z) :
  l1 ≤ l2 →
  (whole_days now (interval l1) → whole_days now (interval l2) →
   getTodayString now ≤ computeNextDue now l1
   ∧ computeNextDue now l1 ≤ computeNextDue now l2
   ∧ computeNextDue now l2 ≤ getTodayString now + 30)
  ∧ getTodayString now - 2 ≤ computeNextDue now l1
    ≤ getTodayString now + 32.
Proof.
  intros Hle. split.
  - intros H1 H2. rewrite !computeNextDue_interval by done.
    rewrite !interval_cases. repeat case_bool_decide; lia.
  - pose proof (computeNextDue_near now l1) as Hn.
    rewrite interval_cases in Hn. repeat case_bool_decide; lia.
Qed.

(** ** Well-formed statistics *)

Lemma resetWordProgress_run w st :
  resetWordProgress w st =
    match fault_at 1 st with
    | Some e => (inl e, after_accesses 2 st)
    | None => (inr (),
               {| word_stats := Some (delete w (read_stats st));
                  current_streak := current_streak st;
                  faults := drop 2 (faults st);
                  random := random st |})
    end.
Proof.
  unfold resetWordProgress.
  unfold mbind, M_bind. rewrite getWordStats_run, saveWordStats_run.
  rewrite fault_at_after. simpl.
  destruct (fault_at 1 st).
  - by rewrite after_accesses_after.
  - by rewrite drop_drop.
Qed.

Lemma freshStats_wf w hard : stats_wf w (freshStats w hard).
Proof.
  unfold stats_wf, freshStats; simpl.
  repeat split; try done; try lia; intros; lia.
Qed.

Lemma apply_result_wf now w r old :
  (∀ s, old = Some s → stats_wf w s) →
  stats_wf w (apply_result now w r old).
Proof.
  intros Hold.
  assert (stats_wf w (default (freshStats w false) old)) as H0.
  { destruct old as [s|]; simpl; [by apply Hold | apply freshStats_wf]. }
  unfold apply_result. cbv zeta.
  revert H0. generalize (default (freshStats w false) old). intros s.
  unfold stats_wf.
  intros (Hid & Hc & Hw & Hs & Hst & Hl & Hz & Hp & Hwz & Hwp).
  destruct r; simpl; repeat case_bool_decide; simpl;
    (split; [done |]); repeat split; eauto; try lia;
    try (intros; lia);
    try (intros Hx; apply Hwz; lia);
    try (intros Hx; apply Hwp; lia).
Qed.

Lemma set_hardFlag_wf k b s : stats_wf k s → stats_wf k (set_hardFlag b s).
Proof. done. Qed.

Lemma read_stats_wf st : store_wf st → map_Forall stats_wf (read_stats st).
Proof.
  unfold store_wf, read_stats. intros H.
  destruct (fault_at 0 st); [apply map_Forall_empty | done].
Qed.

Lemma run_op_wf o st : store_wf st → store_wf (run_op o st).2.
Proof.
  intros Hst. pose proof (read_stats_wf st Hst) as Hread.
  destruct o as [now w r|w|w]; unfold run_op.
  - unfold mbind, M_bind. rewrite updateStatsOnResult_run. cbv zeta.
    destruct (fault_at 1 st); simpl; [done |].
    unfold store_wf; simpl. apply map_Forall_insert_2; [| done].
    apply apply_result_wf. intros s Hs. by apply (Hread w).
  - unfold mbind, M_bind. rewrite toggleHardFlag_run. cbv zeta.
    destruct (fault_at 1 st); simpl; [done |].
    unfold store_wf; simpl. apply map_Forall_insert_2; [| done].
    destruct (read_stats st !! w) as [s|] eqn:E; simpl.
    + apply set_hardFlag_wf. by apply (Hread w).
    + apply freshStats_wf.
  - rewrite resetWordProgress_run.
    destruct (fault_at 1 st); simpl; [done |].
    unfold store_wf; simpl. by apply map_Forall_delete.
Qed.

(** X2. Every operation on the word statistics (recording a result,
    toggling the hard flag, resetting a word) keeps every persisted
    record well formed, whether its store accesses succeed or fail:
    stored under its own id, counters not negative, correct + wrong at
    most seen, streak between 0 and correct, level in [0,5], due date and
    last-seen date set exactly when the word was seen, last-wrong date
    set exactly when it was answered wrong. *)
Theorem store_wf_preserved (ops : list Op) (st : World) :
  store_wf st → store_wf (run_ops ops st).
Proof.
  revert st. induction ops as [|o ops IH]; intros st Hst; [done |].
  simpl. apply IH. by apply run_op_wf.
Qed.

(** ** An answered word in the next queue *)







Section QueueAfter.
Variable heap : nat → Word.





End QueueAfter.

(** ** The hard flag and the reset of a word *)






(** ** Shuffling, once more *)

Lemma with_random_id st : with_random (random st) st = st.
Proof. by destruct st. Qed.

Lemma shuffle_loop_draws {A} (i : nat) (l : list A) (st : World) :
  ∃ l', shuffle_loop i l st = (inr l', with_random (drop i (random st)) st)
        ∧ l' ≡ₚ l.
Proof.
  revert l st. induction i as [|i IH]; intros l st.
  - exists l. rewrite drop_0, with_random_id. done.
  - cbn [shuffle_loop]. unfold mbind, M_bind, random_below.
    match goal with
    | |- context [shuffle_loop i ?l2 ?st2] =>
        destruct (IH l2 st2) as (l' & Hrun & Hp)
    end.
    exists l'. rewrite Hrun. split; [| by rewrite Hp, swap_Permutation].
    unfold with_random; simpl.
    assert (drop i (tail (random st)) = drop (S i) (random st)) as ->
      by (destruct (random st) as [|d ds]; simpl; [by destruct i | done]).
    done.
Qed.

(** X8. [shuffleArray] always returns, and returns a permutation of its
    argument: no element is lost, added or repeated. It touches nothing
    of the store and takes one draw less than there are elements; the
    empty array and the one-element array come back as they are. *)
Theorem shuffle_is_permutation {A} (array : list A) (st : World) :
  (∃ shuffled,
     shuffleArray array st
       = (inr shuffled, with_random (drop (length array - 1) (random st)) st)
     ∧ shuffled ≡ₚ array
     ∧ length shuffled = length array)
  ∧ shuffleArray (@nil A) st = (inr [], st)
  ∧ ∀ x : A, shuffleArray [x] st = (inr [x], st).
Proof.
  split; [| split].
  - destruct (shuffle_loop_draws (length array - 1) array st) as (l' & Hrun & Hp).
    exists l'. split; [exact Hrun |]. split; [done | by rewrite Hp].
  - by destruct st.
  - intros x. by destruct st.
Qed.

(** ** The size of the queue *)

(** X9. The queue is never cut below its priority lists and never filled
    beyond the daily goal: its total is the priority count when that
    reaches the goal, the goal when the new and the unclassified seen
    words suffice to fill it, and otherwise the priority count plus all
    of these words. The estimated minutes are half the total, rounded
    up, and building the queue writes nothing to the store. The corpus
    is one whose identifiers the statistics object reads as its own
    properties: no identifier without a record is a name every object
    inherits. *)
Theorem queue_total heap now words goal st :
  corpus_reads_own heap (read_stats st) words →
  ∃ q st',
    buildDailyQueue heap now words goal st = (inr q, st')
    ∧ total q
      = Z.max (priorityCount (classify heap now (read_stats st) words))
          (Z.min goal
             (priorityCount (classify heap now (read_stats st) words)
              + Z.of_nat (length (filter (is_new heap (read_stats st)) words))
              + Z.of_nat (length (filter (is_unclassified heap now (read_stats st))
                                         words))))
    ∧ total q = Z.of_nat (length (dueWords q)) + Z.of_nat (length (recentlyWrong q))
                + Z.of_nat (length (hardWords q)) + Z.of_nat (length (newWords q))
                + Z.of_nat (length (mixedReview q))
    ∧ 2 * estimatedMinutes q - 1 ≤ total q ≤ 2 * estimatedMinutes q
    ∧ word_stats st' = word_stats st.
Proof.
  intros _.
  destruct (buildDailyQueue_run heap now words goal st)
    as (q & sn & sr & st' & Hrun & Hst & Hd & Hrw & Hh & Hsn & Hnew & Hsr
        & Hmix & Htot & Hest).
  exists q, st'. split; [exact Hrun |].
  assert (Z.of_nat (length (newWords q))
          = Z.min (Z.of_nat (length sn))
              (Z.max 0 (goal - priorityCount
                                 (classify heap now (read_stats st) words))))
    as Hn by (rewrite Hnew at 1; apply slice0_length; lia).
  assert (Z.of_nat (length (mixedReview q))
          = Z.min (Z.of_nat (length sr))
              (Z.max 0 (goal - priorityCount
                                 (classify heap now (read_stats st) words)
                        - Z.of_nat (length (newWords q)))))
    as Hm by (rewrite Hmix at 1; apply slice0_length; lia).
  rewrite classify_buckets in Hsn, Hsr. simpl in Hsn, Hsr.
  rewrite rest_unclassified in Hsr. rewrite Hsn in Hn. rewrite Hsr in Hm.
  split; [lia |]. split.
  - rewrite Htot. unfold priorityCount. rewrite Hd, Hrw, Hh. done.
  - split; [| done]. rewrite Hest. unfold ceil_half.
    pose proof (Z.div_mod (total q + 1) 2).
    pose proof (Z.mod_pos_bound (total q + 1) 2). lia.
Qed.

(** ** One word per category in each pass *)

Lemma emit_round_categories heap cats ws i :
  (λ w, category (heap w)) <$> emit_round (by_category heap cats ws) i
  `sublist_of` cats.
Proof.
  unfold emit_round, by_category.
  induction cats as [|c cs IH]; [done |].
  rewrite fmap_cons. cbn [omap list_omap].
  destruct (filter (λ w, category (heap w) = c) ws !! i) as [x|] eqn:E.
  - apply list_elem_of_lookup_2, list_elem_of_filter in E as [<- _].
    rewrite fmap_cons. by apply sublist_skip.
  - by apply sublist_cons.
Qed.

(** X10. For words whose categories name no inherited property, the
    session order is made of passes over the categories, and a pass never
    emits two words of one category: within each pass the categories are
    pairwise different and come in the order of the category list. *)
Theorem one_word_per_category_per_pass heap (words : list nat) :
  own_categories heap words →
  ∃ res,
    interleaveByCategory heap words = inr (Some res)
    ∧ res = concat
              (emit_round
                 (by_category heap (Object_keys (group_words heap words)) words)
               <$> seq 0 (max_list
                   (length <$> by_category heap
                                 (Object_keys (group_words heap words)) words)))
    ∧ ∀ i,
        NoDup ((λ w, category (heap w))
               <$> emit_round
                     (by_category heap (Object_keys (group_words heap words))
                        words) i)
        ∧ (λ w, category (heap w))
          <$> emit_round
                (by_category heap (Object_keys (group_words heap words)) words) i
          `sublist_of` Object_keys (group_words heap words).
Proof.
  intros Hown.
  eexists. split; [by apply interleaveByCategory_fuel_spec |].
  split; [done |]. intros i.
  destruct (categories_spec heap words) as [Hnd _].
  split; [| apply emit_round_categories].
  exact (sublist_NoDup _ _ Hnd (emit_round_categories heap _ words i)).
Qed.

(** ** The progress summary *)

Section Summary.
Variable heap : nat → Word.
Variable now : Z.
Variable m : gmap string WordStats.

Lemma seen_and_seen_stats p w :
  seen_and heap m p w = from_option p false (seen_stats heap m w).
Proof.
  unfold seen_and, is_new, seen_stats.
  destruct (m !! id (heap w)) as [s|]; simpl; [| done].
  by case_bool_decide.
Qed.

Lemma is_new_seen_stats w :
  is_new heap m w = bool_decide (seen_stats heap m w = None).
Proof.
  unfold is_new, seen_stats.
  destruct (m !! id (heap w)) as [s|]; simpl; [| done].
  by case_bool_decide.
Qed.

Lemma count_sumZ p l : count p l = sumZ (λ w, b2z (p w)) l.
Proof. apply length_filter_sumZ. Qed.

(** What one word adds to the counters. *)
Lemma progress_step_counts acc w :
  totalWords (progress_step heap now m acc w) = totalWords acc
  ∧ streakDays (progress_step heap now m acc w) = streakDays acc
  ∧ wordsNew (progress_step heap now m acc w)
    = wordsNew acc + b2z (is_new heap m w)
  ∧ wordsMastered (progress_step heap now m acc w)
    = wordsMastered acc + b2z (seen_and heap m at_mastered w)
  ∧ wordsLearned (progress_step heap now m acc w)
    = wordsLearned acc + b2z (seen_and heap m at_learned w)
  ∧ wordsInProgress (progress_step heap now m acc w)
    = wordsInProgress acc + b2z (seen_and heap m at_in_progress w)
  ∧ dueToday (progress_step heap now m acc w)
    = dueToday acc + b2z (is_due heap now m w)
  ∧ totalCorrect (progress_step heap now m acc w)
    = totalCorrect acc + from_option correct 0 (seen_stats heap m w)
  ∧ totalSeen (progress_step heap now m acc w)
    = totalSeen acc + from_option seen 0 (seen_stats heap m w).
Proof.
  unfold is_due. rewrite !seen_and_seen_stats, is_new_seen_stats.
  unfold progress_step, seen_stats, at_mastered, at_learned, at_in_progress.
  destruct (m !! id (heap w)) as [s|]; simpl.
  - case_bool_decide; simpl; [repeat split; lia |].
    repeat split; try lia; repeat case_bool_decide; simpl; lia.
  - repeat split; lia.
Qed.

Lemma progress_fold_counts ws acc :
  totalWords (fold_left (progress_step heap now m) ws acc) = totalWords acc
  ∧ streakDays (fold_left (progress_step heap now m) ws acc) = streakDays acc
  ∧ wordsNew (fold_left (progress_step heap now m) ws acc)
    = wordsNew acc + count (is_new heap m) ws
  ∧ wordsMastered (fold_left (progress_step heap now m) ws acc)
    = wordsMastered acc + count (seen_and heap m at_mastered) ws
  ∧ wordsLearned (fold_left (progress_step heap now m) ws acc)
    = wordsLearned acc + count (seen_and heap m at_learned) ws
  ∧ wordsInProgress (fold_left (progress_step heap now m) ws acc)
    = wordsInProgress acc + count (seen_and heap m at_in_progress) ws
  ∧ dueToday (fold_left (progress_step heap now m) ws acc)
    = dueToday acc + count (is_due heap now m) ws
  ∧ totalCorrect (fold_left (progress_step heap now m) ws acc)
    = totalCorrect acc
      + sumZ (λ w, from_option correct 0 (seen_stats heap m w)) ws
  ∧ totalSeen (fold_left (progress_step heap now m) ws acc)
    = totalSeen acc + sumZ (λ w, from_option seen 0 (seen_stats heap m w)) ws.
Proof.
  rewrite !count_sumZ. revert acc.
  induction ws as [|w ws IH]; intros acc; simpl; [repeat split; lia |].
  destruct (IH (progress_step heap now m acc w))
    as (-> & -> & -> & -> & -> & -> & -> & -> & ->).
  destruct (progress_step_counts acc w)
    as (-> & -> & -> & -> & -> & -> & -> & -> & ->).
  repeat split; lia.
Qed.

(** A word is new, or seen and in progress, or seen and mastered. *)
Lemma word_partition w :
  b2z (is_new heap m w) + b2z (seen_and heap m at_in_progress w)
  + b2z (seen_and heap m at_mastered w) = 1
  ∧ b2z (seen_and heap m at_learned w)
    ≤ b2z (seen_and heap m at_in_progress w)
  ∧ b2z (is_due heap now m w) ≤ 1 - b2z (is_new heap m w).
Proof.
  unfold is_due. rewrite !seen_and_seen_stats, is_new_seen_stats.
  unfold at_mastered, at_learned, at_in_progress.
  destruct (seen_stats heap m w) as [s|]; simpl.
  - destruct (isDue now (nextDue s)); repeat case_bool_decide; simpl; lia.
  - lia.
Qed.

Lemma sumZ_le (f g : nat → Z) l :
  (∀ w, f w ≤ g w) → sumZ f l ≤ sumZ g l.
Proof.
  intros Hfg. induction l as [|w l IH]; simpl; [lia |].
  specialize (Hfg w). lia.
Qed.

Lemma sumZ_const_1 (f : nat → Z) l :
  (∀ w, f w = 1) → sumZ f l = Z.of_nat (length l).
Proof.
  intros Hf. induction l as [|w l IH]; simpl; [done |].
  rewrite Hf, IH. lia.
Qed.
End Summary.

Lemma getProgressSummary_fold heap now words st :
  ∃ s st',
    getProgressSummary heap now words st
    = (inr (fold_left (progress_step heap now (read_stats st)) words
              {| totalWords := Z.of_nat (length words); wordsLearned := 0;
                 wordsMastered := 0; wordsInProgress := 0; wordsNew := 0;
                 dueToday := 0; streakDays := s; totalCorrect := 0;
                 totalSeen := 0;
                 byLevel := list_to_map
                              [(0,0); (1,0); (2,0); (3,0); (4,0); (5,0)];
                 byCategory := ∅ |}), st')
    ∧ word_stats st' = word_stats st
    ∧ current_streak st' = current_streak st.
Proof.
  unfold getProgressSummary.
  unfold mbind at 1, M_bind at 1. rewrite getWordStats_run.
  unfold mbind, M_bind.
  destruct (getStreak_run (after_accesses 1 st)) as [n ->].
  unfold mret, M_ret. by exists n, (after_accesses 1 (after_accesses 1 st)).
Qed.

(** X11. The progress summary always comes back, writes nothing, and its
    counters count the corpus: every word is counted once, as new (no
    record, or never seen), as in progress (seen, level below 4) or as
    mastered (seen, level 4 or 5), so the three counters add up to the
    total; the learned words are the seen words at levels 1 to 3, a part
    of those in progress; the due words are among the seen ones. The
    corpus is one whose identifiers the statistics object reads as its own
    properties: no identifier without a record is a name every object
    inherits. *)
Theorem progress_counts heap now words st :
  corpus_reads_own heap (read_stats st) words →
  ∃ p st',
    getProgressSummary heap now words st = (inr p, st')
    ∧ word_stats st' = word_stats st
    ∧ totalWords p = Z.of_nat (length words)
    ∧ wordsNew p = count (is_new heap (read_stats st)) words
    ∧ wordsInProgress p
      = count (seen_and heap (read_stats st) at_in_progress) words
    ∧ wordsMastered p = count (seen_and heap (read_stats st) at_mastered) words
    ∧ wordsLearned p = count (seen_and heap (read_stats st) at_learned) words
    ∧ dueToday p = count (is_due heap now (read_stats st)) words
    ∧ wordsNew p + wordsInProgress p + wordsMastered p = totalWords p
    ∧ 0 ≤ wordsLearned p ≤ wordsInProgress p
    ∧ 0 ≤ dueToday p ≤ totalWords p - wordsNew p.
Proof.
  intros _.
  destruct (getProgressSummary_fold heap now words st) as (s & st' & -> & Hst & _).
  eexists _, st'. split; [reflexivity |]. split; [exact Hst |].
  match goal with
  | |- context [fold_left _ words ?acc] =>
      destruct (progress_fold_counts heap now (read_stats st) words acc)
        as (-> & _ & -> & -> & -> & -> & -> & _)
  end.
  simpl. rewrite !count_sumZ.
  set (mm := read_stats st).
  assert (sumZ (λ w, b2z (is_new heap mm w)) words
          + sumZ (λ w, b2z (seen_and heap mm at_in_progress w)) words
          + sumZ (λ w, b2z (seen_and heap mm at_mastered w)) words
          = Z.of_nat (length words)) as Hpart.
  { rewrite <- !sumZ_add. apply sumZ_const_1.
    intros w. by destruct (word_partition heap now mm w) as [? _]. }
  pose proof (sumZ_le (λ w, b2z (seen_and heap mm at_learned w))
                (λ w, b2z (seen_and heap mm at_in_progress w)) words
                (λ w, proj1 (proj2 (word_partition heap now mm w)))) as Hl.
  pose proof (sumZ_le (λ w, b2z (is_due heap now mm w))
                (λ w, 1 - b2z (is_new heap mm w)) words
                (λ w, proj2 (proj2 (word_partition heap now mm w)))) as Hd.
  pose proof (sumZ_le (λ _, 0) (λ w, b2z (seen_and heap mm at_learned w)) words)
    as Hl0.
  pose proof (sumZ_le (λ _, 0) (λ w, b2z (is_due heap now mm w)) words) as Hd0.
  assert (sumZ (λ _, 0) words = 0) as Hz
    by (clear; induction words; simpl; lia).
  assert (sumZ (λ w, 1 - b2z (is_new heap mm w)) words
          = Z.of_nat (length words) - sumZ (λ w, b2z (is_new heap mm w)) words)
    as Hone by (clear; induction words; simpl; lia).
  assert (∀ b, 0 ≤ b2z b) as Hb by (intros []; simpl; lia).
  specialize (Hl0 (λ w, Hb _)). specialize (Hd0 (λ w, Hb _)).
  repeat split; lia.
Qed.

Section Histogram.
Variable heap : nat → Word.
Variable now : Z.
Variable m : gmap string WordStats.

Lemma progress_step_byLevel acc w :
  byLevel (progress_step heap now m acc w)
  = <[counted_level heap m w
      := default 0 (byLevel acc !! counted_level heap m w) + 1]> (byLevel acc).
Proof.
  unfold progress_step, counted_level, seen_stats.
  destruct (m !! id (heap w)) as [s|]; simpl; [| done].
  by case_bool_decide.
Qed.

Lemma progress_fold_byLevel ws acc l :
  default 0 (byLevel (fold_left (progress_step heap now m) ws acc) !! l)
  = default 0 (byLevel acc !! l)
    + count (λ w, bool_decide (counted_level heap m w = l)) ws
  ∧ (is_Some (byLevel acc !! l)
     → is_Some (byLevel (fold_left (progress_step heap now m) ws acc) !! l)).
Proof.
  rewrite count_sumZ. revert acc.
  induction ws as [|w ws IH]; intros acc; simpl; [split; [lia | done] |].
  destruct (IH (progress_step heap now m acc w)) as [-> Hsome].
  rewrite progress_step_byLevel.
  destruct (decide (counted_level heap m w = l)) as [Heq|Hne].
  - rewrite Heq, lookup_insert_eq, bool_decide_true by done. simpl.
    split; [lia |]. intros _. apply Hsome.
    rewrite progress_step_byLevel, Heq, lookup_insert_eq. eauto.
  - rewrite lookup_insert_ne, bool_decide_false by done. simpl.
    split; [lia |]. intros Hacc. apply Hsome.
    by rewrite progress_step_byLevel, lookup_insert_ne.
Qed.

Lemma progress_step_byCategory acc w c :
  byCategory (progress_step heap now m acc w) !! c
  = if bool_decide (category (heap w) = c)
    then Some ((default (0, 0) (byCategory acc !! c)).1 + 1,
               (default (0, 0) (byCategory acc !! c)).2
               + b2z (seen_and heap m at_some_level w))
    else byCategory acc !! c.
Proof.
  rewrite seen_and_seen_stats.
  unfold progress_step, seen_stats, at_some_level.
  set (cat := category (heap w)).
  set (byCat := match byCategory acc !! cat with
                | Some _ => byCategory acc
                | None => <[cat:=(0, 0)]> (byCategory acc)
                end).
  assert (byCat !! cat = Some (default (0, 0) (byCategory acc !! cat))) as Hcat.
  { unfold byCat. destruct (byCategory acc !! cat) eqn:E; [done |].
    by rewrite lookup_insert_eq. }
  assert (∀ k, k ≠ cat → byCat !! k = byCategory acc !! k) as Hother.
  { intros k Hk. unfold byCat. destruct (byCategory acc !! cat); [done |].
    by rewrite lookup_insert_ne. }
  case_bool_decide as Hc.
  - subst c.
    destruct (m !! id (heap w)) as [s|]; simpl;
      [case_bool_decide; simpl |];
      rewrite ?lookup_alter_eq, ?Hcat; simpl;
      try (do 2 f_equal; lia).
    repeat case_bool_decide; simpl; try lia;
      rewrite ?lookup_alter_eq, ?Hcat; simpl; do 2 f_equal; lia.
  - assert (c ≠ cat) as Hc' by done.
    destruct (m !! id (heap w)) as [s|]; simpl;
      [case_bool_decide; simpl |];
      rewrite ?lookup_alter_ne by done; auto.
    destruct (_ || _); rewrite ?lookup_alter_ne by done; auto.
Qed.

Lemma progress_fold_byCategory ws acc c :
  default (0, 0) (byCategory (fold_left (progress_step heap now m) ws acc) !! c)
  = ((default (0, 0) (byCategory acc !! c)).1 + count (in_category heap c) ws,
     (default (0, 0) (byCategory acc !! c)).2
     + count (learned_in_category heap m c) ws)
  ∧ (is_Some (byCategory (fold_left (progress_step heap now m) ws acc) !! c)
     ↔ is_Some (byCategory acc !! c) ∨ c ∈ (λ w, category (heap w)) <$> ws).
Proof.
  rewrite !count_sumZ. revert acc.
  induction ws as [|w ws IH]; intros acc.
  - cbn [fold_left sumZ foldr]. rewrite fmap_nil. split.
    + destruct (default (0, 0) (byCategory acc !! c)) as [t l]. simpl.
      f_equal; lia.
    + split; [by left | intros [?|Hin]; [done | by apply elem_of_nil in Hin]].
  - simpl fold_left. destruct (IH (progress_step heap now m acc w)) as [-> ->].
    rewrite !progress_step_byCategory, fmap_cons, elem_of_cons. simpl sumZ.
    unfold learned_in_category, in_category.
    case_bool_decide as Hc; simpl.
    + split; [f_equal; lia |].
      split; [intros _; right; by left | intros _; by left].
    + split; [f_equal; lia |].
      split; [intros [?|?]; [by left | right; by right]
             | intros [?|[?|?]]; [by left | congruence | by right]].
Qed.
End Histogram.

Lemma sumZ_ext (f g : nat → Z) l :
  (∀ w, f w = g w) → sumZ f l = sumZ g l.
Proof. intros H. induction l as [|w l IH]; simpl; [done |]. by rewrite H, IH. Qed.

(** X12. The summary's histogram by level counts every word of the corpus
    under one level, a new word under level 0 and a seen word under the
    level of its record; the six buckets 0 to 5 are always there, and
    when the stored levels are within [0,5] they add up to the number of
    words. The corpus is one whose identifiers the statistics object reads
    as its own properties: no identifier without a record is a name every
    object inherits. *)
Theorem progress_by_level heap now words st :
  corpus_reads_own heap (read_stats st) words →
  ∃ p st',
    getProgressSummary heap now words st = (inr p, st')
    ∧ (∀ l, default 0 (byLevel p !! l)
            = count (λ w, bool_decide (counted_level heap (read_stats st) w = l))
                    words)
    ∧ Forall (λ l, is_Some (byLevel p !! l)) [0; 1; 2; 3; 4; 5]
    ∧ (store_ok st →
       default 0 (byLevel p !! 0) + default 0 (byLevel p !! 1)
       + default 0 (byLevel p !! 2) + default 0 (byLevel p !! 3)
       + default 0 (byLevel p !! 4) + default 0 (byLevel p !! 5)
       = totalWords p).
Proof.
  intros _.
  destruct (getProgressSummary_fold heap now words st) as (s & st' & -> & _).
  eexists _, st'. split; [reflexivity |].
  match goal with
  | |- context [fold_left _ words ?acc] => set (acc0 := acc)
  end.
  assert (∀ l, default 0 (byLevel (fold_left
              (progress_step heap now (read_stats st)) words acc0) !! l)
            = count (λ w, bool_decide (counted_level heap (read_stats st) w = l))
                    words) as Hl.
  { intros l.
    destruct (progress_fold_byLevel heap now (read_stats st) words acc0 l)
      as [-> _].
    assert (default 0 (byLevel acc0 !! l) = 0) as ->; [| lia].
    unfold acc0; simpl. rewrite !lookup_insert, lookup_empty.
    repeat case_decide; done. }
  split; [exact Hl |]. split.
  - repeat constructor;
      match goal with
      | |- is_Some (_ !! ?l) =>
          apply (progress_fold_byLevel heap now (read_stats st) words acc0 l)
      end; by eexists.
  - intros Hok. pose proof (read_stats_ok st Hok) as Hread.
    rewrite !Hl, !count_sumZ, <- !sumZ_add.
    destruct (progress_fold_counts heap now (read_stats st) words acc0)
      as (-> & _).
    simpl. apply sumZ_const_1. intros w.
    assert (0 ≤ counted_level heap (read_stats st) w ≤ 5) as Hw.
    { unfold counted_level, seen_stats.
      destruct (read_stats st !! id (heap w)) as [r|] eqn:E; simpl; [| lia].
      case_bool_decide; simpl; [lia |]. by apply (Hread _ _ E). }
    repeat case_bool_decide; simpl; lia.
Qed.

(** X13. The summary by category has an entry for exactly the categories
    of the corpus; the entry gives the number of words of the category
    and, as learned, the number of them that were seen and stand at
    level 1 or above, never more than the former. The corpus is one
    whose identifiers the statistics object reads as its own properties,
    and none of its categories is a name every object inherits. *)
Theorem progress_by_category heap now words st :
  corpus_reads_own heap (read_stats st) words →
  own_categories heap words →
  ∃ p st',
    getProgressSummary heap now words st = (inr p, st')
    ∧ ∀ c,
        byCategory p !! c
        = (if bool_decide (c ∈ (λ w, category (heap w)) <$> words)
           then Some (count (in_category heap c) words,
                      count (learned_in_category heap (read_stats st) c) words)
           else None)
        ∧ count (learned_in_category heap (read_stats st) c) words
          ≤ count (in_category heap c) words.
Proof.
  intros _ _.
  destruct (getProgressSummary_fold heap now words st) as (s & st' & -> & _).
  eexists _, st'. split; [reflexivity |]. intros c. split.
  - match goal with
    | |- context [fold_left ?f words ?acc] =>
        destruct (progress_fold_byCategory heap now (read_stats st) words acc c)
          as [Hval Hsome];
        set (p := fold_left f words acc) in *
    end.
    cbn [byCategory] in Hval, Hsome. rewrite lookup_empty in Hval, Hsome.
    case_bool_decide as Hc.
    + assert (is_Some (byCategory p !! c)) as [v Hv]
        by (apply Hsome; by right).
      rewrite Hv in Hval |- *. simpl in Hval. rewrite Hval.
      do 2 f_equal; lia.
    + apply eq_None_not_Some. rewrite Hsome.
      intros [[? ?]|?]; [done | done].
  - rewrite !count_sumZ. apply sumZ_le. intros w.
    unfold learned_in_category.
    destruct (in_category heap c w), (seen_and _ _ _ w); simpl; lia.
Qed.

Lemma sumZ_nonneg (f : nat → Z) l : (∀ w, 0 ≤ f w) → 0 ≤ sumZ f l.
Proof.
  intros Hf. induction l as [|w l IH]; simpl; [lia |]. specialize (Hf w). lia.
Qed.

Lemma sumZ_zero (f g : nat → Z) l :
  (∀ w, 0 ≤ f w) → (∀ w, f w = 0 → g w = 0) →
  sumZ f l = 0 → sumZ g l = 0.
Proof.
  intros Hf Hfg. induction l as [|w l IH]; simpl; [done |].
  pose proof (sumZ_nonneg f l Hf). pose proof (Hf w). intros Hsum.
  rewrite (Hfg w), IH by lia. done.
Qed.

(** X14. With well-formed statistics, the two totals from which the
    accuracy is computed are sound: the correct answers of the seen
    words are not negative and never exceed their exposures, so the
    accuracy lies between 0 and 100 percent; there is at least one
    exposure per seen word, and none exactly when every word is new (the
    case in which the accuracy is reported as 0). The corpus is one
    whose identifiers the statistics object reads as its own properties:
    no identifier without a record is a name every object inherits. *)
Theorem progress_accuracy_totals heap now words st :
  corpus_reads_own heap (read_stats st) words →
  store_wf st →
  ∃ p st',
    getProgressSummary heap now words st = (inr p, st')
    ∧ 0 ≤ totalCorrect p ≤ totalSeen p
    ∧ totalWords p - wordsNew p ≤ totalSeen p
    ∧ (totalSeen p = 0 ↔ wordsNew p = totalWords p).
Proof.
  intros _ Hwf. pose proof (read_stats_wf st Hwf) as Hread.
  destruct (getProgressSummary_fold heap now words st) as (s & st' & -> & _).
  eexists _, st'. split; [reflexivity |].
  match goal with
  | |- context [fold_left _ words ?acc] =>
      destruct (progress_fold_counts heap now (read_stats st) words acc)
        as (-> & _ & -> & _ & _ & _ & _ & -> & ->)
  end.
  simpl. rewrite count_sumZ.
  set (mm := read_stats st).
  assert (∀ w, 0 ≤ from_option correct 0 (seen_stats heap mm w)
               ≤ from_option seen 0 (seen_stats heap mm w)
             ∧ 1 - b2z (is_new heap mm w)
               ≤ from_option seen 0 (seen_stats heap mm w)
             ∧ (1 - b2z (is_new heap mm w) = 0
                → from_option seen 0 (seen_stats heap mm w) = 0)) as Hw.
  { intros w. rewrite is_new_seen_stats. unfold seen_stats.
    destruct (mm !! id (heap w)) as [r|] eqn:E; simpl; [| lia].
    case_bool_decide as Hs; simpl; [lia |].
    destruct (Hread _ _ E) as (_ & ? & ? & ? & _). lia. }
  pose proof (sumZ_nonneg (λ w, from_option correct 0 (seen_stats heap mm w))
                words (λ w, proj1 (proj1 (Hw w)))) as H0.
  pose proof (sumZ_le (λ w, from_option correct 0 (seen_stats heap mm w))
                (λ w, from_option seen 0 (seen_stats heap mm w)) words
                (λ w, proj2 (proj1 (Hw w)))) as H1.
  pose proof (sumZ_le (λ w, 1 - b2z (is_new heap mm w))
                (λ w, from_option seen 0 (seen_stats heap mm w)) words
                (λ w, proj1 (proj2 (Hw w)))) as H2.
  assert (sumZ (λ w, 1 - b2z (is_new heap mm w)) words
          = Z.of_nat (length words) - sumZ (λ w, b2z (is_new heap mm w)) words)
    as Hone by (clear; induction words; simpl; lia).
  assert (∀ w, 0 ≤ 1 - b2z (is_new heap mm w)) as Hnn
    by (intros w; destruct (is_new heap mm w); simpl; lia).
  pose proof (sumZ_nonneg _ words Hnn) as H3.
  pose proof (sumZ_zero (λ w, 1 - b2z (is_new heap mm w))
                (λ w, from_option seen 0 (seen_stats heap mm w)) words
                Hnn (λ w, proj2 (proj2 (Hw w)))) as H4.
  repeat split; lia.
Qed.

(** ** The day streak *)

Lemma access_fault_free st : faults st = [] → access st = (inr (), st).
Proof. intros Hf. unfold access. rewrite Hf. simpl. destruct st; simpl in *. by subst. Qed.

Lemma lift_access_fault_free s :
  faults (world s) = [] → lift access s = (inr (), s).
Proof.
  intros Hf. unfold lift. rewrite access_fault_free by done. by destruct s.
Qed.

Lemma getStreak_fault_free st :
  faults st = [] → getStreak st = (inr (default 0 (current_streak st)), st).
Proof.
  intros Hf. unfold getStreak, try_catch, get_CURRENT_STREAK, mbind, M_bind.
  by rewrite access_fault_free.
Qed.

Lemma get_LAST_SESSION_DATE_fault_free s :
  faults (world s) = [] → get_LAST_SESSION_DATE s = (inr (last_session s), s).
Proof.
  intros Hf. unfold get_LAST_SESSION_DATE, mbind, MS_bind.
  by rewrite lift_access_fault_free.
Qed.

Lemma set_CURRENT_STREAK_fault_free v st :
  faults st = [] →
  set_CURRENT_STREAK v st
  = (inr (), {| word_stats := word_stats st; current_streak := Some v;
                faults := faults st; random := random st |}).
Proof.
  intros Hf. unfold set_CURRENT_STREAK, mbind, M_bind.
  by rewrite access_fault_free.
Qed.

Lemma set_LAST_SESSION_DATE_fault_free v s :
  faults (world s) = [] →
  set_LAST_SESSION_DATE v s
  = (inr (), {| world := world s; sessions := sessions s;
                last_session := v; game_scores := game_scores s |}).
Proof.
  intros Hf. unfold set_LAST_SESSION_DATE, mbind, MS_bind.
  by rewrite lift_access_fault_free.
Qed.

Lemma updateStreak_fault_free now s :
  faults (world s) = [] →
  updateStreak now s
  = if bool_decide (last_session s = Some (getTodayString now))
    then (inr (streak_of s), s)
    else (inr (streak_after (getTodayString now)
                 (toISODate (addDays now (-1))) s),
          with_streak (streak_after (getTodayString now)
                         (toISODate (addDays now (-1))) s)
                      (getTodayString now) s).
Proof.
  intros Hf. unfold updateStreak.
  unfold mbind at 1, MS_bind at 1.
  rewrite get_LAST_SESSION_DATE_fault_free by done.
  unfold mbind at 1, MS_bind at 1. unfold lift at 1.
  rewrite getStreak_fault_free by done. cbn [fst snd].
  replace {| world := world s; sessions := sessions s;
             last_session := last_session s; game_scores := game_scores s |}
    with s by (by destruct s).
  fold (streak_of s). unfold streak_after.
  case_bool_decide as Htoday; [done |].
  rewrite (bool_decide_true (last_session s ≠ _)) by done.
  unfold mbind at 1, MS_bind at 1. unfold lift.
  rewrite set_CURRENT_STREAK_fault_free by done. cbn [fst snd].
  unfold mbind, MS_bind.
  rewrite set_LAST_SESSION_DATE_fault_free by done.
  unfold mret, MS_ret, with_streak. done.
Qed.

Lemma updateStreak_whole_days now s :
  faults (world s) = [] →
  whole_days now (-1) →
  updateStreak now s
  = if bool_decide (last_session s = Some (getTodayString now))
    then (inr (streak_of s), s)
    else (inr (next_streak (getTodayString now) s),
          with_streak (next_streak (getTodayString now) s)
                      (getTodayString now) s).
Proof.
  intros Hf Hwd. rewrite updateStreak_fault_free by done.
  rewrite toISODate_addDays by done. unfold next_streak, getTodayString.
  by replace (toISODate now + -1) with (toISODate now - 1) by lia.
Qed.

(** X15. The day streak between two calls, neither of them within a day
    after a change of the local clock (moving back one local day is moving
    back 24 hours). With the store answering, the first call of a day
    returns the stored streak plus one when the last session was the day
    before, and 1 after any longer gap (or with no last session); it
    stamps the day. A later call on the same day returns the same streak
    and changes nothing; a call on the next day returns one more; a call
    on any other day starts again from 1. *)
Theorem streak_between_calls (now now2 : Z) (s : Store) :
  faults (world s) = [] →
  whole_days now (-1) →
  whole_days now2 (-1) →
  ∃ s1 s2,
    updateStreak now s = (inr (next_streak (getTodayString now) s), s1)
    ∧ last_session s1 = Some (getTodayString now)
    ∧ updateStreak now2 s1
      = (inr (if bool_decide (getTodayString now2 = getTodayString now)
              then next_streak (getTodayString now) s
              else if bool_decide (getTodayString now2 = getTodayString now + 1)
                   then next_streak (getTodayString now) s + 1
                   else 1), s2)
    ∧ (if bool_decide (getTodayString now2 = getTodayString now)
       then s2 = s1
       else last_session s2 = Some (getTodayString now2)).
Proof.
  intros Hf Hwd Hwd2. rewrite updateStreak_whole_days by done.
  set (d := getTodayString now). set (d2 := getTodayString now2).
  assert (∃ s1, (if bool_decide (last_session s = Some d)
                 then (inr (streak_of s), s)
                 else (inr (next_streak d s), with_streak (next_streak d s) d s))
                = (inr (next_streak d s) : Err + Z, s1)
                ∧ faults (world s1) = []
                ∧ last_session s1 = Some d
                ∧ streak_of s1 = next_streak d s) as (s1 & -> & Hf1 & Hl1 & Hs1).
  { unfold next_streak, streak_after. case_bool_decide as Hd.
    - by exists s.
    - eexists. split; [reflexivity |]. done. }
  exists s1. rewrite (updateStreak_whole_days now2 s1) by done.
  fold d2. rewrite Hl1.
  destruct (decide (d2 = d)) as [Heq|Hne].
  - exists s1. rewrite Heq, Hs1, !bool_decide_true by done. done.
  - exists (with_streak (next_streak d2 s1) d2 s1).
    rewrite (bool_decide_false (Some d = Some d2)) by congruence.
    rewrite (bool_decide_false (d2 = d)) by done.
    split; [done |]. split; [done |]. split; [| reflexivity]. do 2 f_equal.
    unfold next_streak, streak_after. rewrite Hl1, Hs1.
    rewrite (bool_decide_false (Some d = Some d2)) by congruence.
    rewrite (bool_decide_ext (Some d = Some (d2 - 1)) (d2 = d + 1))
      by (split; [intros [= ?]; lia | intros ->; f_equal; lia]).
    done.
Qed.

(** X16. The two writes of [updateStreak] are not one transaction: when
    the last session was the day before (and no change of the local clock
    lies within the last day), the write of the streak succeeds and the
    write of the date fails, the call rejects with that error, the streak
    stays incremented and the date of the last session stays as it was; a
    new call on the same day, now succeeding, increments the streak once
    more. *)
Theorem streak_write_not_atomic (now : Z) (s : Store) (e : Err) :
  faults (world s) = [None; None; None; Some e] →
  whole_days now (-1) →
  last_session s = Some (getTodayString now - 1) →
  ∃ s1 s2,
    updateStreak now s = (inl e, s1)
    ∧ streak_of s1 = streak_of s + 1
    ∧ last_session s1 = last_session s
    ∧ updateStreak now s1 = (inr (streak_of s + 2), s2).
Proof.
  intros Hf Hwd Hl.
  assert (Some (getTodayString now - 1) ≠ Some (getTodayString now)) as Hne
    by (intros [= ?]; lia).
  assert (∃ s1, updateStreak now s = (inl e, s1)
                ∧ streak_of s1 = streak_of s + 1
                ∧ last_session s1 = last_session s
                ∧ faults (world s1) = []) as (s1 & -> & Hs1 & Hl1 & Hf1).
  { unfold updateStreak, get_LAST_SESSION_DATE, set_LAST_SESSION_DATE,
      set_CURRENT_STREAK, getStreak, get_CURRENT_STREAK, try_catch, lift,
      access, getsS, gets, put_current_streak, put_last_session,
      mbind, MS_bind, M_bind, mret, MS_ret, M_ret.
    destruct s as [[ws cs fs rs] ss ls gs]. simpl in *. subst fs ls. simpl.
    rewrite toISODate_addDays by done. unfold getTodayString in *.
    replace (toISODate now + -1) with (toISODate now - 1) by lia.
    rewrite (bool_decide_false (Some (toISODate now - 1) = Some (toISODate now)))
      by done.
    rewrite bool_decide_true by done. simpl.
    eexists. split; [reflexivity |]. done. }
  exists s1. rewrite (updateStreak_whole_days now s1) by done.
  rewrite Hl1, Hl, bool_decide_false by done.
  eexists. split; [reflexivity |]. split; [done |]. split; [done |].
  do 2 f_equal. unfold next_streak, streak_after.
  rewrite Hl1, Hl, bool_decide_false, bool_decide_true by done. lia.
Qed.

(** ** Recording sessions *)

Lemma getSessions_fault_free s :
  faults (world s) = [] → getSessions s = (inr (sessions_of s), s).
Proof.
  intros Hf. unfold getSessions, try_catchS, get_SESSIONS, mbind, MS_bind.
  by rewrite lift_access_fault_free.
Qed.

Lemma set_SESSIONS_fault_free v s :
  faults (world s) = [] → set_SESSIONS v s = (inr (), with_sessions v s).
Proof.
  intros Hf. unfold set_SESSIONS, mbind, MS_bind.
  by rewrite lift_access_fault_free.
Qed.

(** The list [recordSession] builds by [findIndex] and assignment. *)
Lemma merge_session_findIndex today inp ss :
  match findIndex_date today ss with
  | Some i =>
      match ss !! i with
      | Some old =>
          <[i := {| date := date old;
                    wordsStudied := wordsStudied old + in_wordsStudied inp;
                    correctAnswers := correctAnswers old + in_correctAnswers inp;
                    wrongAnswers := wrongAnswers old + in_wrongAnswers inp;
                    timeSpentMinutes :=
                      timeSpentMinutes old + in_timeSpentMinutes inp;
                    completedGoal :=
                      in_completedGoal inp || completedGoal old |}]> ss
      | None => ss
      end
  | None =>
      ss ++ [{| date := today; wordsStudied := in_wordsStudied inp;
                correctAnswers := in_correctAnswers inp;
                wrongAnswers := in_wrongAnswers inp;
                timeSpentMinutes := in_timeSpentMinutes inp;
                completedGoal := in_completedGoal inp |}]
  end
  = merge_session today inp ss.
Proof.
  induction ss as [|x ss IH]; [done |].
  cbn [findIndex_date merge_session].
  case_bool_decide as Hx; [done |].
  destruct (findIndex_date today ss) as [i|]; simpl.
  - rewrite <- IH. by destruct (ss !! i).
  - by rewrite <- IH.
Qed.

Lemma recordSession_fault_free now inp s :
  faults (world s) = [] →
  recordSession now inp s
  = (inr (),
     (updateStreak now
        (with_sessions
           (filter (λ x, toISODate (addDays now (-30)) ≤ date x)
                   (merge_session (getTodayString now) inp (sessions_of s)))
           s)).2).
Proof.
  intros Hf. unfold recordSession.
  unfold mbind at 1, MS_bind at 1. rewrite getSessions_fault_free by done.
  rewrite merge_session_findIndex.
  unfold mbind at 1, MS_bind at 1. rewrite set_SESSIONS_fault_free by done.
  unfold mbind, MS_bind.
  rewrite updateStreak_fault_free by done.
  by case_bool_decide.
Qed.

Lemma recordSession_whole_days now inp s :
  faults (world s) = [] →
  whole_days now (-30) →
  recordSession now inp s
  = (inr (),
     (updateStreak now
        (with_sessions
           (filter (λ x, getTodayString now - 30 ≤ date x)
                   (merge_session (getTodayString now) inp (sessions_of s)))
           s)).2).
Proof.
  intros Hf Hwd. rewrite recordSession_fault_free by done.
  rewrite toISODate_addDays by done. unfold getTodayString.
  by replace (toISODate now + -30) with (toISODate now - 30) by lia.
Qed.

(** Whatever the zone, the sessions of today are kept. *)
Lemma cutoff_le_today now :
  toISODate (addDays now (-30)) ≤ getTodayString now.
Proof.
  pose proof (toISODate_addDays_near now (-30)). unfold getTodayString. lia.
Qed.

Section Sessions.
Variable today : Z.
Variable inp : SessionInput.

Lemma merge_session_dates ss :
  date <$> merge_session today inp ss
  = if bool_decide (today ∈ date <$> ss) then date <$> ss
    else (date <$> ss) ++ [today].
Proof.
  induction ss as [|x ss IH]; [done |].
  cbn [merge_session]. rewrite !fmap_cons.
  destruct (decide (date x = today)) as [Hx|Hx].
  - rewrite (bool_decide_true (date x = today)) by done.
    rewrite bool_decide_true by (rewrite Hx; left). done.
  - rewrite (bool_decide_false (date x = today)) by done.
    rewrite fmap_cons, IH.
    destruct (decide (today ∈ date <$> ss)) as [Hin|Hin].
    + rewrite !bool_decide_true; [done | by right | done].
    + rewrite !bool_decide_false; [done | | done].
      rewrite not_elem_of_cons. split; [congruence | done].
Qed.

Lemma merge_session_NoDup ss :
  NoDup (date <$> ss) → NoDup (date <$> merge_session today inp ss).
Proof.
  intros Hnd. rewrite merge_session_dates. case_bool_decide as Hin; [done |].
  apply NoDup_app. split; [done |]. split; [| apply NoDup_singleton].
  intros d Hd ->%list_elem_of_singleton. done.
Qed.

Lemma merge_session_others ss :
  filter (λ x, date x ≠ today) (merge_session today inp ss)
  = filter (λ x, date x ≠ today) ss.
Proof.
  induction ss as [|x ss IH]; cbn [merge_session].
  - by rewrite filter_cons_False by (simpl; intros H; by apply H).
  - case_bool_decide as Hx.
    + by rewrite !filter_cons_False by (simpl; intros H; by apply H).
    + by rewrite !filter_cons_True, IH by done.
Qed.

Lemma filter_date_nil ss :
  today ∉ date <$> ss → filter (λ x, date x = today) ss = [].
Proof.
  induction ss as [|x ss IH]; [done |].
  rewrite fmap_cons, not_elem_of_cons. intros [Hx Hin].
  rewrite filter_cons_False by (simpl; congruence). by apply IH.
Qed.

Lemma merge_session_today ss :
  NoDup (date <$> ss) →
  filter (λ x, date x = today) (merge_session today inp ss)
  = [from_option (add_session inp) (new_session today inp)
       (head (filter (λ x, date x = today) ss))].
Proof.
  induction ss as [|x ss IH]; intros Hnd; cbn [merge_session].
  - by rewrite filter_cons_True.
  - rewrite fmap_cons in Hnd. apply NoDup_cons in Hnd as [Hx Hnd].
    case_bool_decide as Hd.
    + rewrite !filter_cons_True by done.
      rewrite filter_date_nil by (by rewrite <- Hd). done.
    + rewrite !filter_cons_False by done. by apply IH.
Qed.

End Sessions.


(** X17. Recording a session, with the store answering, at most one
    stored session per day and no change of the local clock within the
    last 30 days: the sessions keep one entry per day; the
    entry of today carries the figures of the session added to those
    already recorded today (the goal counts as completed once any
    session of the day completed it); the entries of the other days are
    those that were stored, less the ones more than 30 days old; and the
    day streak is brought up to today. *)
Theorem record_session (now : Z) (inp : SessionInput) (s : Store) :
  faults (world s) = [] →
  whole_days now (-1) →
  whole_days now (-30) →
  NoDup (date <$> sessions_of s) →
  ∃ s1,
    recordSession now inp s = (inr (), s1)
    ∧ NoDup (date <$> sessions_of s1)
    ∧ Forall (λ x, getTodayString now - 30 ≤ date x) (sessions_of s1)
    ∧ filter (λ x, date x = getTodayString now) (sessions_of s1)
      = [from_option (add_session inp) (new_session (getTodayString now) inp)
           (head (filter (λ x, date x = getTodayString now) (sessions_of s)))]
    ∧ filter (λ x, date x ≠ getTodayString now) (sessions_of s1)
      = filter (λ x, date x ≠ getTodayString now)
          (filter (λ x, getTodayString now - 30 ≤ date x) (sessions_of s))
    ∧ last_session s1 = Some (getTodayString now)
    ∧ streak_of s1 = next_streak (getTodayString now) s.
Proof.
  intros Hf Hwd1 Hwd30 Hnd. rewrite recordSession_whole_days by done.
  set (today := getTodayString now).
  set (new := filter (λ x, today - 30 ≤ date x)
                (merge_session today inp (sessions_of s))).
  assert (∃ s1, (updateStreak now (with_sessions new s)).2 = s1
                ∧ sessions_of s1 = new
                ∧ last_session s1 = Some today
                ∧ streak_of s1 = next_streak today s)
    as (s1 & -> & Hs1 & Hl1 & Hst1).
  { rewrite updateStreak_whole_days by done. fold today.
    unfold next_streak, streak_after. cbn [with_sessions last_session].
    case_bool_decide as Hd; eexists; (split; [reflexivity |]); [| done].
    split; [done |]. split; [done |]. reflexivity. }
  exists s1. split; [done |]. rewrite Hs1. unfold new.
  split; [| split; [| split; [| split; [| done]]]].
  - eapply sublist_NoDup; [by apply merge_session_NoDup |].
    apply fmap_sublist, sublist_filter.
  - apply List.Forall_forall. intros x Hx.
    apply list_elem_of_In, list_elem_of_filter in Hx. by destruct Hx.
  - rewrite list_filter_filter.
    rewrite (list_filter_iff _ (λ x, date x = today))
      by (intros x; split; [by intros [? _] | intros Hx; split; [done | lia]]).
    by apply merge_session_today.
  - rewrite !list_filter_filter.
    rewrite (list_filter_iff _ (λ x, today - 30 ≤ date x ∧ date x ≠ today))
      by (intros x; tauto).
    rewrite <- !list_filter_filter, merge_session_others.
    rewrite !list_filter_filter. apply list_filter_iff. intros x; tauto.
Qed.



(* ================================================================== *)
(** ** Reset of everything *)

Lemma resetAllProgress_fault_free s :
  faults (world s) = [] →
  resetAllProgress s
  = (inr (),
     {| world := {| word_stats := Some ∅; current_streak := Some 0;
                    faults := []; random := random (world s) |};
        sessions := Some []; last_session := None;
        game_scores := game_scores s |}).
Proof.
  destruct s as [[ws cs fs rs] ss ls gs]. cbn [world faults].
  intros ->. reflexivity.
Qed.

(** X19. With the store answering, [resetAllProgress] leaves an empty
    statistics map, no session, streak 0 and no date of a last session, and
    does not touch the game scores. What is read afterwards is what a fresh
    installation reads, and the first session recorded afterwards is the
    only one on the list and starts the streak at 1. *)
Theorem reset_all (s : Store) :
  faults (world s) = [] →
  ∃ s1,
    resetAllProgress s = (inr (), s1)
    ∧ read_stats (world s1) = ∅
    ∧ sessions_of s1 = []
    ∧ streak_of s1 = 0
    ∧ last_session s1 = None
    ∧ game_scores s1 = game_scores s
    ∧ random (world s1) = random (world s)
    ∧ ∀ now inp, ∃ s2,
        recordSession now inp s1 = (inr (), s2)
        ∧ sessions_of s2 = [new_session (getTodayString now) inp]
        ∧ streak_of s2 = 1
        ∧ last_session s2 = Some (getTodayString now).
Proof.
  intros Hf. rewrite resetAllProgress_fault_free by done.
  eexists. split; [reflexivity |].
  repeat (split; [reflexivity |]).
  intros now inp. rewrite recordSession_fault_free by done.
  rewrite updateStreak_fault_free by done.
  eexists. split; [reflexivity |].
  cbn [with_sessions last_session sessions_of sessions default].
  rewrite bool_decide_false by done.
  cbn [snd]. unfold with_streak, streak_after, streak_of, sessions_of.
  cbn [world sessions last_session current_streak default].
  rewrite !bool_decide_false by done.
  split; [| done].
  unfold with_sessions, Datatypes.id. cbn [sessions default merge_session].
  rewrite filter_cons, decide_True; [done |].
  unfold new_session; cbn [date]. apply cutoff_le_today.
Qed.

(** X20. [resetAllProgress] is four writes in a row with no handler: when
    the write number [k] (counted from 0) is the first to fail, the call
    rejects with that error, the [k] writes before it stay done and the
    later ones are not made. The statistics can so be gone while the
    sessions and the streak are still there. *)
Theorem reset_all_interrupted (k : nat) (e : Err) (rest : list (option Err))
    (s : Store) :
  (k < 4)%nat →
  faults (world s) = replicate k None ++ Some e :: rest →
  ∃ s1,
    resetAllProgress s = (inl e, s1)
    ∧ faults (world s1) = rest
    ∧ word_stats (world s1)
      = (if decide (1 ≤ k)%nat then Some ∅ else word_stats (world s))
    ∧ sessions s1 = (if decide (2 ≤ k)%nat then Some [] else sessions s)
    ∧ current_streak (world s1)
      = (if decide (3 ≤ k)%nat then Some 0 else current_streak (world s))
    ∧ last_session s1 = last_session s
    ∧ game_scores s1 = game_scores s.
Proof.
  destruct s as [[ws cs fs rs] ss ls gs]. cbn [world faults].
  intros Hk ->.
  destruct k as [|[|[|[|k]]]]; [| | | | lia];
    (eexists; split; [reflexivity |]); done.
Qed.

(* ================================================================== *)
(** ** Game scores *)

Lemma getGameScores_fault_free s :
  faults (world s) = [] → getGameScores s = (inr (scores_of s), s).
Proof.
  intros Hf. unfold getGameScores, try_catchS, get_GAME_SCORES, mbind, MS_bind.
  by rewrite lift_access_fault_free.
Qed.

Lemma set_GAME_SCORES_fault_free v s :
  faults (world s) = [] →
  set_GAME_SCORES v s
  = (inr (), {| world := world s; sessions := sessions s;
                last_session := last_session s; game_scores := Some v |}).
Proof.
  intros Hf. unfold set_GAME_SCORES, mbind, MS_bind.
  by rewrite lift_access_fault_free.
Qed.

Lemma saveGameScore_fault_free sc s :
  faults (world s) = [] →
  saveGameScore sc s
  = (inr (),
     {| world := world s; sessions := sessions s;
        last_session := last_session s;
        game_scores :=
          Some (<[Game.game sc :=
                    take 10 (sort_desc (scores_of s (Game.game sc) ++ [sc]))]>
                  (scores_of s)) |}).
Proof.
  intros Hf. unfold saveGameScore, mbind, MS_bind.
  rewrite getGameScores_fault_free by done.
  by rewrite set_GAME_SCORES_fault_free.
Qed.


Lemma insert_desc_Permutation x l : insert_desc x l ≡ₚ x :: l.
Proof.
  induction l as [|y l IH]; [done |]. cbn [insert_desc].
  case_bool_decide; [| done]. rewrite IH. apply Permutation_swap.
Qed.

Lemma sort_desc_Permutation l : sort_desc l ≡ₚ l.
Proof.
  induction l as [|x l IH]; [done |]. cbn [sort_desc].
  by rewrite insert_desc_Permutation, IH.
Qed.

Lemma insert_desc_sorted x l :
  StronglySorted (λ a b, Game.score b ≤ Game.score a) l →
  StronglySorted (λ a b, Game.score b ≤ Game.score a) (insert_desc x l).
Proof.
  induction 1 as [|y l Hs IH Hy]; cbn [insert_desc].
  - repeat constructor.
  - case_bool_decide as Hlt.
    + constructor; [done |].
      rewrite insert_desc_Permutation. constructor; [lia | done].
    + constructor; [by constructor |].
      constructor; [lia |].
      eapply Forall_impl; [exact Hy |]. cbn. intros; lia.
Qed.

Lemma sort_desc_sorted l :
  StronglySorted (λ a b, Game.score b ≤ Game.score a) (sort_desc l).
Proof.
  induction l as [|x l IH]; cbn [sort_desc]; [constructor |].
  by apply insert_desc_sorted.
Qed.

Lemma filter_none {A} (P : A → Prop) `{!∀ x, Decision (P x)} (l : list A) :
  Forall (λ x, ¬ P x) l → filter P l = [].
Proof.
  induction 1 as [|x l Hx _ IH]; [done |]. by rewrite filter_cons_False.
Qed.

Lemma filter_every {A} (P : A → Prop) `{!∀ x, Decision (P x)} (l : list A) :
  Forall P l → filter P l = l.
Proof.
  induction 1 as [|x l Hx _ IH]; [done |].
  by rewrite filter_cons_True, IH.
Qed.








Lemma scores_of_put w ss ls f g :
  scores_of {| world := w; sessions := ss; last_session := ls;
               game_scores := Some f |} g = f g.
Proof. done. Qed.

(** X21. With the store answering, [saveGameScore] leaves the list of the
    score's game sorted by falling score, one entry longer than it was but
    never longer than ten; the entries kept and the entries dropped are
    together the old entries and the new one, and no dropped entry has a
    higher score than a kept one. The lists of the other games, the
    statistics, the sessions and the streak are as they were. The old
    list need not have been sorted. *)
Theorem save_game_score (sc : Game.Score) (s : Store) :
  faults (world s) = [] →
  ∃ s1 dropped,
    saveGameScore sc s = (inr (), s1)
    ∧ StronglySorted (λ a b, Game.score b ≤ Game.score a)
        (scores_of s1 (Game.game sc))
    ∧ length (scores_of s1 (Game.game sc))
      = (10 `min` S (length (scores_of s (Game.game sc))))%nat
    ∧ scores_of s (Game.game sc) ++ [sc]
      ≡ₚ scores_of s1 (Game.game sc) ++ dropped
    ∧ (∀ x y, x ∈ scores_of s1 (Game.game sc) → y ∈ dropped →
              Game.score y ≤ Game.score x)
    ∧ (∀ g, g ≠ Game.game sc → scores_of s1 g = scores_of s g)
    ∧ world s1 = world s
    ∧ sessions s1 = sessions s
    ∧ last_session s1 = last_session s.
Proof.
  intros Hf. rewrite saveGameScore_fault_free by done.
  set (old := scores_of s (Game.game sc)).
  eexists. exists (drop 10 (sort_desc (old ++ [sc]))).
  split; [reflexivity |].
  rewrite !scores_of_put, functions.fn_lookup_insert.
  pose proof (sort_desc_sorted (old ++ [sc])) as Hs.
  rewrite <- (take_drop 10 (sort_desc (old ++ [sc]))) in Hs.
  apply StronglySorted_app in Hs as (Hcross & Hs1 & _).
  split; [done |].
  split.
  { rewrite length_take, (Permutation_length (sort_desc_Permutation _)).
    rewrite length_app. cbn [length]. lia. }
  split; [by rewrite take_drop, sort_desc_Permutation |].
  split; [intros x y Hx Hy; exact (Hcross x y Hx Hy) |].
  split; [| done].
  intros g Hg. by rewrite scores_of_put, functions.fn_lookup_insert_ne.
Qed.


Lemma is_new_empty heap w : is_new heap ∅ w = true.
Proof. unfold is_new. by rewrite lookup_empty. Qed.

Lemma seen_and_empty heap p w : seen_and heap ∅ p w = false.
Proof. unfold seen_and. by rewrite is_new_empty. Qed.

Lemma classify_empty heap now words :
  classify heap now ∅ words
  = {| b_dueWords := []; b_recentlyWrong := []; b_hardWords := [];
       b_newWords := words; b_seenWords := [] |}.
Proof.
  rewrite classify_buckets. f_equal.
  - apply filter_none, Forall_forall. intros x _.
    unfold is_due. rewrite seen_and_empty. by intros [].
  - apply filter_none, Forall_forall. intros x _.
    unfold is_recentlyWrong. rewrite seen_and_empty. by intros [].
  - apply filter_none, Forall_forall. intros x _.
    unfold is_hard. rewrite seen_and_empty. by intros [].
  - apply filter_every, Forall_forall. intros x _. by rewrite is_new_empty.
  - apply filter_none, Forall_forall. intros x _. rewrite is_new_empty.
    by intros [].
Qed.

(** C8, amended. A failure of the write of the statistics map, inside
    [updateStatsOnResult] or [toggleHardFlag], is propagated unmodified
    and leaves the stored map as it was. A failure of the read is caught
    by [getWordStats], which then hands back an empty map: the operation
    goes on as if nothing had ever been recorded. So [buildDailyQueue] and
    [getProgressSummary], which only read, always complete, and
    [updateStatsOnResult] and [toggleHardFlag] fail exactly when their
    write fails; after a failed read and a successful write the stored map
    holds the updated record alone. After a failed read the queue is the
    one of an empty map: every word of the corpus is new, the due,
    recently-wrong, hard and mixed-review lists are empty and the new
    words fill the goal as far as the corpus allows; the summary then
    counts every word as new, at level 0, with nothing seen, learned,
    mastered or due. The identifiers are those the statistics object reads
    as its own properties: none without a record is a name every object
    inherits. *)
Theorem storage_failures heap now w r words goal st :
  reads_own (read_stats st) w →
  corpus_reads_own heap (read_stats st) words →
  getWordStats st
    = (inr (match fault_at 0 st with
            | Some _ => ∅
            | None => default ∅ (word_stats st)
            end), after_accesses 1 st)
  ∧ (updateStatsOnResult now w r st).1
    = match fault_at 1 st with
      | Some e => inl e
      | None => inr (apply_result now w r (read_stats st !! w))
      end
  ∧ word_stats (updateStatsOnResult now w r st).2
    = match fault_at 1 st with
      | Some _ => word_stats st
      | None => Some (<[w := apply_result now w r (read_stats st !! w)]>
                        (read_stats st))
      end
  ∧ (toggleHardFlag w st).1
    = match fault_at 1 st with
      | Some e => inl e
      | None => inr (from_option (λ s, negb (hardFlag s)) true
                                 (read_stats st !! w))
      end
  ∧ word_stats (toggleHardFlag w st).2
    = match fault_at 1 st with
      | Some _ => word_stats st
      | None =>
          Some (<[w := from_option
                         (λ s, set_hardFlag (negb (hardFlag s)) s)
                         (freshStats w true) (read_stats st !! w)]>
                  (read_stats st))
      end
  ∧ (∃ q, (buildDailyQueue heap now words goal st).1 = inr q
          ∧ (is_Some (fault_at 0 st) →
             dueWords q = [] ∧ recentlyWrong q = [] ∧ hardWords q = []
             ∧ mixedReview q = []
             ∧ (∃ shuffled, shuffled ≡ₚ words
                            ∧ newWords q = slice0 (Z.max 0 goal) shuffled)
             ∧ total q = Z.min (Z.of_nat (length words)) (Z.max 0 goal)))
  ∧ (∃ p, (getProgressSummary heap now words st).1 = inr p
          ∧ (is_Some (fault_at 0 st) →
             totalWords p = Z.of_nat (length words)
             ∧ wordsNew p = Z.of_nat (length words)
             ∧ wordsLearned p = 0 ∧ wordsMastered p = 0
             ∧ wordsInProgress p = 0 ∧ dueToday p = 0
             ∧ totalCorrect p = 0 ∧ totalSeen p = 0
             ∧ default 0 (byLevel p !! 0) = Z.of_nat (length words))).
Proof.
  intros _ _.
  split; [apply getWordStats_run |].
  assert (∃ q, (buildDailyQueue heap now words goal st).1 = inr q
          ∧ (is_Some (fault_at 0 st) →
             dueWords q = [] ∧ recentlyWrong q = [] ∧ hardWords q = []
             ∧ mixedReview q = []
             ∧ (∃ shuffled, shuffled ≡ₚ words
                            ∧ newWords q = slice0 (Z.max 0 goal) shuffled)
             ∧ total q = Z.min (Z.of_nat (length words)) (Z.max 0 goal)))
    as Hqueue.
  { destruct (buildDailyQueue_run heap now words goal st)
      as (q & sn & sr & st' & -> & _ & Hd & Hrw & Hh & Hsn & Hnew & Hsr
          & Hmix & Htot & _).
    exists q. split; [done |]. intros [e He].
    assert (read_stats st = ∅) as Hread by (unfold read_stats; by rewrite He).
    rewrite Hread, classify_empty in *. simpl in *.
    apply Permutation_nil_r in Hd, Hrw, Hh. rewrite filter_nil in Hsr.
    apply Permutation_nil_r in Hsr. subst sr.
    assert (mixedReview q = []) as Hm.
    { rewrite Hmix. unfold slice0. case_bool_decide; by rewrite take_nil. }
    unfold priorityCount in *. simpl in *.
    rewrite Z.sub_0_r in Hnew.
    split; [done |]. split; [done |]. split; [done |]. split; [done |].
    split; [by exists sn |].
    rewrite Htot, Hm. simpl. rewrite Hnew, slice0_length by lia.
    rewrite Hsn. lia. }
  assert (∃ p, (getProgressSummary heap now words st).1 = inr p
          ∧ (is_Some (fault_at 0 st) →
             totalWords p = Z.of_nat (length words)
             ∧ wordsNew p = Z.of_nat (length words)
             ∧ wordsLearned p = 0 ∧ wordsMastered p = 0
             ∧ wordsInProgress p = 0 ∧ dueToday p = 0
             ∧ totalCorrect p = 0 ∧ totalSeen p = 0
             ∧ default 0 (byLevel p !! 0) = Z.of_nat (length words)))
    as Hsummary.
  { destruct (getProgressSummary_fold heap now words st)
      as (s & st' & -> & _).
    eexists. split; [reflexivity |]. intros [e He].
    assert (read_stats st = ∅) as Hread by (unfold read_stats; by rewrite He).
    rewrite Hread.
    match goal with
    | |- context [fold_left _ words ?acc] =>
        destruct (progress_fold_counts heap now ∅ words acc)
          as (-> & _ & -> & -> & -> & -> & -> & -> & ->);
        destruct (progress_fold_byLevel heap now ∅ words acc 0) as [-> _]
    end.
    simpl.
    rewrite !count_sumZ.
    rewrite (sumZ_ext _ (λ _, 1)) by (intros x; by rewrite is_new_empty).
    rewrite (sumZ_ext (λ w, b2z (seen_and heap ∅ at_mastered w)) (λ _, 0)),
            (sumZ_ext (λ w, b2z (seen_and heap ∅ at_learned w)) (λ _, 0)),
            (sumZ_ext (λ w, b2z (seen_and heap ∅ at_in_progress w)) (λ _, 0)),
            (sumZ_ext (λ w, b2z (is_due heap now ∅ w)) (λ _, 0)),
            (sumZ_ext (λ w, from_option correct 0 (seen_stats heap ∅ w)) (λ _, 0)),
            (sumZ_ext (λ w, from_option seen 0 (seen_stats heap ∅ w)) (λ _, 0)),
            (sumZ_ext (λ w, b2z (bool_decide (counted_level heap ∅ w = 0)))
                      (λ _, 1))
      by (intros x; unfold is_due, counted_level, seen_stats;
          by rewrite ?seen_and_empty, ?lookup_empty).
    rewrite (sumZ_const_1 (λ _, 1)) by done.
    assert (sumZ (λ _, 0) words = 0) as -> by (clear; induction words; simpl; lia).
    repeat split; lia. }
  rewrite updateStatsOnResult_run, toggleHardFlag_run. cbv zeta.
  destruct (fault_at 1 st) as [e|]; simpl.
  - repeat split; done.
  - split; [done |]. split; [done |]. split; [done |].
    split; [by destruct (read_stats st !! w) |]. done.
Qed.
End Zone.

(* ================================================================== *)
(** * Instances on the sample data

    The witnesses of the hypotheses and the counterexamples, on a device
    on UTC. *)

Section OnUtc.
#[local] Existing Instance Sample.utc.

(** On UTC the wall clock is universal time: every shift is one of whole
    days. *)
Lemma utc_whole_days t d : whole_days t d.
Proof. reflexivity. Qed.


(** A Skipped result on a word that is due later moves its due date:
    "hola", at level 1 and due on day 11, skipped at noon of day 15, comes
    back due on day 16. *)
Lemma skip_moves_due_date :
  (updateStatsOnResult (Sample.noon 15) "hola" Skipped
     (Sample.world {[ "hola" := Sample.hola_twice ]})).1
  = inr {| wordId := "hola"; seen := 3; correct := 2; wrong := 0; streak := 2;
           level := 1; lastSeen := Some 15; nextDue := Some 16;
           hardFlag := false; lastWrongDate := None |}
  ∧ nextDue Sample.hola_twice = Some 11.
Proof. split; reflexivity. Qed.

Lemma skip_effect_witness :
  reads_own (read_stats (Sample.world {[ "hola" := Sample.hola_twice ]})) "hola"
  ∧ fault_at 1 (Sample.world {[ "hola" := Sample.hola_twice ]}) = None
  ∧ ∃ s' st',
      updateStatsOnResult (Sample.noon 15) "hola" Skipped
        (Sample.world {[ "hola" := Sample.hola_twice ]}) = (inr s', st')
      ∧ seen s' = 3 ∧ level s' = 1 ∧ nextDue s' = Some 16.
Proof.
  assert (reads_own (read_stats (Sample.world {[ "hola" := Sample.hola_twice ]}))
            "hola") as Hown by by_evaluation.
  split; [exact Hown |]. split; [reflexivity |].
  destruct (skip_effect (Sample.noon 15) "hola"
              (Sample.world {[ "hola" := Sample.hola_twice ]}) Hown eq_refl)
    as (s' & st' & Hrun & Hseen & _ & _ & Hdue & _ & Hlevel & _).
  exists s', st'. split; [exact Hrun |].
  split; [exact Hseen |]. split; [exact Hlevel |].
  exact (Hdue (utc_whole_days _ _)).
Defined.

(** A record whose streak is already 1 gains a level on the first Correct:
    "hola" at level 0 with streak 1 comes back at level 1. *)
Lemma first_correct_levels_up :
  (updateStatsOnResult (Sample.noon 10) "hola" Correct
     (Sample.world {[ "hola" := Sample.hola_once ]})).1
  = inr {| wordId := "hola"; seen := 2; correct := 2; wrong := 0; streak := 2;
           level := 1; lastSeen := Some 10; nextDue := Some 11;
           hardFlag := false; lastWrongDate := None |}
  ∧ level Sample.hola_once = 0.
Proof. split; reflexivity. Qed.

Lemma level_up_rule_witness :
  ∃ s1 st1 s2 st2,
    session [(Sample.noon 10, "hola", Correct); (Sample.noon 10, "hola", Correct)]
            Sample.blank
      = [(inr s1, st1); (inr s2, st2)]
    ∧ streak s1 = 1 ∧ streak s2 = 2 ∧ level s1 = 0 ∧ level s2 = 1.
Proof.
  assert (0 ≤ streak (stats_before "hola" Sample.blank)) as Hs
    by (vm_compute; discriminate).
  assert (reads_own (read_stats Sample.blank) "hola") as Hown by by_evaluation.
  exact (level_up_rule (Sample.noon 10) (Sample.noon 10) "hola" Sample.blank 0
           Hown eq_refl eq_refl eq_refl Hs).
Defined.

Lemma level_down_rule_witness :
  ∃ s' st',
    updateStatsOnResult (Sample.noon 12) "adios" Wrong
      (Sample.world {[ "adios" := Sample.adios ]}) = (inr s', st')
    ∧ level s' = 2 ∧ streak s' = 0 ∧ wrong s' = 3
    ∧ lastWrongDate s' = Some 12 ∧ nextDue s' = Some 15.
Proof.
  assert (level (stats_before "adios" (Sample.world {[ "adios" := Sample.adios ]}))
          = 3) as HL by reflexivity.
  assert (reads_own (read_stats (Sample.world {[ "adios" := Sample.adios ]}))
            "adios") as Hown by by_evaluation.
  destruct (level_down_rule (Sample.noon 12) "adios"
              (Sample.world {[ "adios" := Sample.adios ]}) 3
              Hown eq_refl HL)
    as (s' & st' & Hrun & Hl & Hs & Hwr & Hlw & _ & Hdue & _).
  exists s', st'. split; [exact Hrun |].
  specialize (Hdue (utc_whole_days _ _)). rewrite Hl in Hdue.
  repeat split; [exact Hl | exact Hs | exact Hwr | exact Hlw | exact Hdue].
Defined.

(** The scenario of the specification: "hola", never met, answered
    Correct, Correct and Wrong on one day. *)
Example hola_scenario :
  (session [(Sample.noon 10, "hola", Correct);
            (Sample.noon 10, "hola", Correct);
            (Sample.noon 10, "hola", Wrong)] Sample.blank).*1
  = [inr {| wordId := "hola"; seen := 1; correct := 1; wrong := 0; streak := 1;
            level := 0; lastSeen := Some 10; nextDue := Some 10;
            hardFlag := false; lastWrongDate := None |};
     inr {| wordId := "hola"; seen := 2; correct := 2; wrong := 0; streak := 2;
            level := 1; lastSeen := Some 10; nextDue := Some 11;
            hardFlag := false; lastWrongDate := None |};
     inr {| wordId := "hola"; seen := 3; correct := 2; wrong := 1; streak := 0;
            level := 0; lastSeen := Some 10; nextDue := Some 10;
            hardFlag := false; lastWrongDate := Some 10 |}].
Proof. vm_compute. reflexivity. Qed.

(** An item answered wrong on day 3 is, at noon of day 10 (exactly seven
    calendar days later), not counted as recently wrong: "adios", last
    wrong on day 3, is absent from the recently-wrong list of the queue
    built then. *)
Lemma wrong_seven_days_ago_not_recent :
  wasWrongRecently (Sample.noon 10) (Some 3) 7 = false
  ∧ getTodayString (Sample.noon 10) - 7 = 3
  ∧ lastWrongDate Sample.adios = Some 3
  ∧ (buildDailyQueue Sample.heap (Sample.noon 10) [1%nat] 15
       (Sample.world {[ "adios" := Sample.adios ]})).1
    = inr {| dueWords := []; recentlyWrong := []; hardWords := [1%nat];
             newWords := []; mixedReview := []; total := 1;
             estimatedMinutes := 1 |}.
Proof. repeat split; vm_compute; reflexivity. Qed.

Lemma recently_wrong_window_witness :
  Forall (λ w, reads_own ({[ "adios" := Sample.adios ]} : gmap string WordStats)
                 (id (Sample.heap w))) [0; 1; 2]%nat
  ∧ wasWrongRecently (Sample.noon 10) (Some 4) 7 = true
  ∧ wasWrongRecently (Sample.noon 10) (Some 3) 7 = false
  ∧ wasWrongRecently (parseDate 10) (Some 3) 7 = true.
Proof.
  assert (Forall (λ w, reads_own ({[ "adios" := Sample.adios ]}
                                    : gmap string WordStats)
                         (id (Sample.heap w))) [0; 1; 2]%nat) as Hown
    by by_evaluation.
  split; [exact Hown |].
  destruct (recently_wrong_window (Sample.noon 10) 4 Sample.heap _ _ Hown)
    as (_ & _ & Hfour & _).
  destruct (recently_wrong_window (Sample.noon 10) 3 Sample.heap _ _ Hown)
    as (_ & _ & Hthree & _).
  destruct (recently_wrong_window (parseDate 10) 3 Sample.heap _ _ Hown)
    as (_ & _ & Hmidnight & _).
  destruct (Hfour (utc_whole_days _ _)) as [_ ->].
  destruct (Hthree (utc_whole_days _ _)) as [_ ->].
  destruct (Hmidnight (utc_whole_days _ _)) as [_ ->].
  repeat split; vm_compute; reflexivity.
Defined.

(** Daily goal 5 and ten due words: all ten are returned. *)
Lemma small_goal_priority_only_witness :
  ∃ q st',
    buildDailyQueue Sample.numbered (Sample.noon 10) (seq 0 10) 5
      (Sample.world (Sample.all_due 10)) = (inr q, st')
    ∧ dueWords q ≡ₚ seq 0 10
    ∧ newWords q = [] ∧ mixedReview q = [] ∧ total q = 10.
Proof.
  assert (5 ≤ priorityCount
            (classify Sample.numbered (Sample.noon 10)
               (read_stats (Sample.world (Sample.all_due 10))) (seq 0 10)))
    as Hgoal by (vm_compute; discriminate).
  assert (corpus_reads_own Sample.numbered
            (read_stats (Sample.world (Sample.all_due 10))) (seq 0 10))
    as Hown by by_evaluation.
  destruct (small_goal_priority_only Sample.numbered (Sample.noon 10)
              (seq 0 10) 5 (Sample.world (Sample.all_due 10)) Hown
              (or_introl Hgoal))
    as (q & st' & Hrun & Hd & _ & _ & Hn & Hm & Ht & _).
  exists q, st'. split; [exact Hrun |]. split; [exact Hd |].
  split; [exact Hn |]. split; [exact Hm | exact Ht].
Defined.

(** "adios" is due and hard at noon of day 20: it is counted twice. With
    a daily goal of 2 the budget for new words is therefore 0 and the new
    word "gato" is left out, where a count of distinct items (1) would
    leave room for it. *)
Lemma priority_count_counts_twice :
  priorityCount
    (classify Sample.heap (Sample.noon 20) {[ "adios" := Sample.adios ]} [1; 2]%nat)
  = 2
  ∧ distinct_priority_count
      (classify Sample.heap (Sample.noon 20) {[ "adios" := Sample.adios ]} [1; 2]%nat)
    = 1
  ∧ (buildDailyQueue Sample.heap (Sample.noon 20) [1; 2]%nat 2
       (Sample.world {[ "adios" := Sample.adios ]})).1
    = inr {| dueWords := [1%nat]; recentlyWrong := []; hardWords := [1%nat];
             newWords := []; mixedReview := []; total := 2;
             estimatedMinutes := 1 |}.
Proof. repeat split; vm_compute; reflexivity. Qed.

Lemma priority_count_sums_buckets_witness :
  corpus_reads_own Sample.heap
    (read_stats (Sample.world {[ "adios" := Sample.adios ]})) [1; 2]%nat
  ∧ priorityCount
      (classify Sample.heap (Sample.noon 20)
         (read_stats (Sample.world {[ "adios" := Sample.adios ]})) [1; 2]%nat)
    = sumZ (priority_matches Sample.heap (Sample.noon 20)
              (read_stats (Sample.world {[ "adios" := Sample.adios ]})))
           [1; 2]%nat
  ∧ ∃ q st',
      buildDailyQueue Sample.heap (Sample.noon 20) [1; 2]%nat 2
        (Sample.world {[ "adios" := Sample.adios ]}) = (inr q, st')
      ∧ Z.of_nat (length (newWords q)) = 0.
Proof.
  assert (corpus_reads_own Sample.heap
            (read_stats (Sample.world {[ "adios" := Sample.adios ]}))
            [1; 2]%nat) as Hown by by_evaluation.
  split; [exact Hown |].
  destruct (priority_count_sums_buckets Sample.heap (Sample.noon 20)
              [1; 2]%nat 2 (Sample.world {[ "adios" := Sample.adios ]}) Hown)
    as (Hsum & _ & q & st' & Hrun & Hnew & _).
  split; [exact Hsum |]. exists q, st'. split; [exact Hrun |].
  rewrite Hnew. vm_compute. reflexivity.
Defined.

(** Keys that are array indices come first, in numeric order. *)
Example Object_keys_sample :
  Object_keys [("food", [0%nat]); ("10", [1%nat]); ("2", [2%nat]); ("07", [3%nat])]
  = ["2"; "10"; "food"; "07"].
Proof. vm_compute. reflexivity. Qed.

(** Five words, two categories: hola, adios (greetings), gato (animals),
    and two more animals. *)
Example interleave_sample :
  interleaveByCategory Sample.heap [0; 1; 2; 3; 4]%nat
  = inr (Some [0; 2; 1; 3; 4]%nat).
Proof. vm_compute. reflexivity. Qed.

(** C10. The interleaver does not emit a permutation of every input. The
    grouping loop keeps the groups as properties of an object created as
    [{}]; a category that names a property every object inherits is read
    as that property, which is truthy and has no [push], so the call
    throws. For the corpus [Sample.trades], whose first word is filed
    under "constructor", the interleaver throws a TypeError and emits
    nothing, whatever the number of passes it is allowed. *)
Theorem interleave_throws_on_inherited_category :
  category (Sample.trades 0) = "constructor"
  ∧ interleaveByCategory Sample.trades [0; 1]%nat = inl TypeError
  ∧ ∀ fuel,
      interleaveByCategory_fuel Sample.trades fuel [0; 1]%nat = inl TypeError.
Proof.
  split; [reflexivity |]. split; [reflexivity |].
  intros fuel. apply interleaveByCategory_throws.
  apply Exists_cons_hd. by_evaluation.
Qed.

Lemma interleave_is_round_robin_witness :
  own_categories Sample.heap [0; 1; 2; 3; 4]%nat
  ∧ interleaveByCategory Sample.heap [0; 1; 2; 3; 4]%nat
    = inr (Some [0; 2; 1; 3; 4]%nat)
  ∧ [0; 2; 1; 3; 4]%nat ≡ₚ [0; 1; 2; 3; 4]%nat.
Proof.
  assert (own_categories Sample.heap [0; 1; 2; 3; 4]%nat) as Hcat
    by by_evaluation.
  split; [exact Hcat |].
  destruct (interleave_is_round_robin Sample.heap [0; 1; 2; 3; 4]%nat Hcat)
    as (_ & _ & Hrun & _ & Hperm).
  split; [exact Hrun | exact Hperm].
Defined.

Lemma one_word_per_category_per_pass_witness :
  own_categories Sample.heap [0; 1; 2; 3; 4]%nat
  ∧ ∃ res,
      interleaveByCategory Sample.heap [0; 1; 2; 3; 4]%nat = inr (Some res)
      ∧ NoDup ((λ w, category (Sample.heap w))
               <$> emit_round
                     (by_category Sample.heap
                        (Object_keys (group_words Sample.heap
                                        [0; 1; 2; 3; 4]%nat))
                        [0; 1; 2; 3; 4]%nat) 1).
Proof.
  assert (own_categories Sample.heap [0; 1; 2; 3; 4]%nat) as Hcat
    by by_evaluation.
  split; [exact Hcat |].
  destruct (one_word_per_category_per_pass Sample.heap [0; 1; 2; 3; 4]%nat Hcat)
    as (res & Hrun & _ & Hpass).
  exists res. split; [exact Hrun | exact (proj1 (Hpass 1%nat))].
Defined.

(** "adios" is due and hard at noon of day 20: the queue built for the
    corpus hola, adios, gato lists it both among the due words and among
    the hard words. *)
Lemma due_and_hard_listed_twice :
  (buildDailyQueue Sample.heap (Sample.noon 20) [0; 1; 2]%nat 15
     (Sample.world {[ "hola" := Sample.hola_twice; "adios" := Sample.adios ]})).1
  = inr {| dueWords := [1; 0]%nat; recentlyWrong := []; hardWords := [1%nat];
           newWords := [2%nat]; mixedReview := []; total := 4;
           estimatedMinutes := 2 |}
  ∧ lists_holding 1
      {| dueWords := [1; 0]%nat; recentlyWrong := []; hardWords := [1%nat];
         newWords := [2%nat]; mixedReview := []; total := 4;
         estimatedMinutes := 2 |} = 2.
Proof. split; vm_compute; reflexivity. Qed.

Lemma queue_lists_witness :
  ∃ q st' flat,
    buildDailyQueue Sample.heap (Sample.noon 20) [0; 1; 2]%nat 15
      (Sample.world {[ "hola" := Sample.hola_twice; "adios" := Sample.adios ]})
      = (inr q, st')
    ∧ NoDup (prioritized q)
    ∧ getDailySessionQueue Sample.heap (Sample.noon 20) [0; 1; 2]%nat 15
        (Sample.world {[ "hola" := Sample.hola_twice; "adios" := Sample.adios ]})
      = (inr (Some flat), st')
    ∧ flat ≡ₚ prioritized q.
Proof.
  assert (NoDup [0; 1; 2]%nat) as Hnd by exact (NoDup_seq 0 3).
  assert (corpus_reads_own Sample.heap
            (read_stats (Sample.world {[ "hola" := Sample.hola_twice;
                                         "adios" := Sample.adios ]}))
            [0; 1; 2]%nat) as Hown by by_evaluation.
  assert (own_categories Sample.heap [0; 1; 2]%nat) as Hcat by by_evaluation.
  destruct (queue_lists Sample.heap (Sample.noon 20) [0; 1; 2]%nat 15
              (Sample.world {[ "hola" := Sample.hola_twice;
                               "adios" := Sample.adios ]}) Hown Hcat Hnd)
    as (q & st' & flat & Hrun & _ & _ & _ & _ & _ & _ & _ & Hp & _ & _
        & Hflat & Hperm).
  exists q, st', flat.
  split; [exact Hrun |]. split; [exact Hp |]. split; [exact Hflat | exact Hperm].
Defined.

(** A failed read is not propagated: with the store rejecting the read,
    recording a Correct for "hola" completes, hands back a fresh record as
    if "hola" had never been seen, and replaces the stored map, which held
    "hola" at level 1 and "adios" at level 3, by that single record. *)
Lemma read_failure_reported_as_success :
  updateStatsOnResult (Sample.noon 12) "hola" Correct
    {| word_stats := Some {[ "hola" := Sample.hola_twice;
                             "adios" := Sample.adios ]};
       current_streak := None;
       faults := [Some "read failed"];
       random := [] |}
  = (inr {| wordId := "hola"; seen := 1; correct := 1; wrong := 0; streak := 1;
            level := 0; lastSeen := Some 12; nextDue := Some 12;
            hardFlag := false; lastWrongDate := None |},
     Sample.world
       {[ "hola" := {| wordId := "hola"; seen := 1; correct := 1; wrong := 0;
                       streak := 1; level := 0; lastSeen := Some 12;
                       nextDue := Some 12; hardFlag := false;
                       lastWrongDate := None |} ]}).
Proof. vm_compute. reflexivity. Qed.

Lemma storage_failures_witness :
  reads_own (read_stats
               {| word_stats := Some {[ "hola" := Sample.hola_twice;
                                        "adios" := Sample.adios ]};
                  current_streak := None;
                  faults := [Some "read failed"; Some "write failed"];
                  random := [] |}) "hola"
  ∧ (updateStatsOnResult (Sample.noon 12) "hola" Correct
       {| word_stats := Some {[ "hola" := Sample.hola_twice;
                                "adios" := Sample.adios ]};
          current_streak := None;
          faults := [Some "read failed"; Some "write failed"];
          random := [] |}).1 = inl "write failed"
  ∧ ∃ q p,
      (buildDailyQueue Sample.heap (Sample.noon 12) [0; 1; 2]%nat 2
         {| word_stats := Some {[ "hola" := Sample.hola_twice;
                                  "adios" := Sample.adios ]};
            current_streak := None;
            faults := [Some "read failed"; Some "write failed"];
            random := [] |}).1 = inr q
      ∧ dueWords q = [] ∧ hardWords q = [] ∧ total q = 2
      ∧ (getProgressSummary Sample.heap (Sample.noon 12) [0; 1; 2]%nat
           {| word_stats := Some {[ "hola" := Sample.hola_twice;
                                    "adios" := Sample.adios ]};
              current_streak := None;
              faults := [Some "read failed"; Some "write failed"];
              random := [] |}).1 = inr p
      ∧ wordsNew p = 3 ∧ totalSeen p = 0.
Proof.
  set (st := {| word_stats := Some {[ "hola" := Sample.hola_twice;
                                      "adios" := Sample.adios ]};
                current_streak := None;
                faults := [Some "read failed"; Some "write failed"];
                random := [] |}).
  assert (reads_own (read_stats st) "hola") as Hown by by_evaluation.
  assert (corpus_reads_own Sample.heap (read_stats st) [0; 1; 2]%nat) as Hcorpus
    by by_evaluation.
  assert (is_Some (fault_at 0 st)) as Hfail by (by eexists).
  split; [exact Hown |].
  destruct (storage_failures Sample.heap (Sample.noon 12) "hola" Correct
              [0; 1; 2]%nat 2 st Hown Hcorpus)
    as (_ & Hup & _ & _ & _ & (q & Hq & Hempty) & (p & Hp & Hnew)).
  split; [exact Hup |].
  destruct (Hempty Hfail) as (Hd & _ & Hh & _ & _ & Ht).
  destruct (Hnew Hfail) as (_ & Hn & _ & _ & _ & _ & _ & Hs & _).
  exists q, p. repeat split; assumption.
Defined.

Lemma next_due_monotone_witness :
  getTodayString (Sample.noon 10) ≤ computeNextDue (Sample.noon 10) 2
  ∧ computeNextDue (Sample.noon 10) 2 ≤ computeNextDue (Sample.noon 10) 9
  ∧ computeNextDue (Sample.noon 10) 9 ≤ getTodayString (Sample.noon 10) + 30.
Proof.
  assert (2 ≤ 9) as H by lia.
  exact (proj1 (next_due_monotone (Sample.noon 10) 2 9 H)
           (utc_whole_days _ _) (utc_whole_days _ _)).
Defined.

Lemma store_wf_preserved_witness :
  store_wf
    (run_ops [ToggleHard "hola"; Answer (Sample.noon 10) "hola" Correct;
              Answer (Sample.noon 11) "hola" Wrong; ResetWord "adios";
              Answer (Sample.noon 12) "adios" Skipped] Sample.blank).
Proof.
  assert (store_wf Sample.blank) as H
    by (unfold store_wf; simpl; apply map_Forall_empty).
  exact (store_wf_preserved _ _ H).
Defined.






Lemma queue_total_witness :
  corpus_reads_own Sample.heap
    (read_stats (Sample.world {[ "hola" := Sample.hola_twice;
                                 "adios" := Sample.adios ]})) [0; 1; 2]%nat
  ∧ ∃ q st',
      buildDailyQueue Sample.heap (Sample.noon 20) [0; 1; 2]%nat 15
        (Sample.world {[ "hola" := Sample.hola_twice; "adios" := Sample.adios ]})
      = (inr q, st')
      ∧ total q = 4.
Proof.
  assert (corpus_reads_own Sample.heap
            (read_stats (Sample.world {[ "hola" := Sample.hola_twice;
                                         "adios" := Sample.adios ]}))
            [0; 1; 2]%nat) as Hown by by_evaluation.
  split; [exact Hown |].
  destruct (queue_total Sample.heap (Sample.noon 20) [0; 1; 2]%nat 15 _ Hown)
    as (q & st' & Hrun & Ht & _).
  exists q, st'. split; [exact Hrun |]. rewrite Ht. vm_compute. reflexivity.
Defined.

Lemma progress_counts_witness :
  corpus_reads_own Sample.heap
    (read_stats (Sample.world {[ "hola" := Sample.hola_twice;
                                 "adios" := Sample.adios ]})) [0; 1; 2]%nat
  ∧ ∃ p st',
      getProgressSummary Sample.heap (Sample.noon 20) [0; 1; 2]%nat
        (Sample.world {[ "hola" := Sample.hola_twice; "adios" := Sample.adios ]})
      = (inr p, st')
      ∧ wordsNew p = 1
      ∧ wordsNew p + wordsInProgress p + wordsMastered p = totalWords p.
Proof.
  assert (corpus_reads_own Sample.heap
            (read_stats (Sample.world {[ "hola" := Sample.hola_twice;
                                         "adios" := Sample.adios ]}))
            [0; 1; 2]%nat) as Hown by by_evaluation.
  split; [exact Hown |].
  destruct (progress_counts Sample.heap (Sample.noon 20) [0; 1; 2]%nat _ Hown)
    as (p & st' & Hrun & _ & _ & Hn & _ & _ & _ & _ & Hsum & _).
  exists p, st'. split; [exact Hrun |]. split; [| exact Hsum].
  rewrite Hn. vm_compute. reflexivity.
Defined.

Lemma progress_by_category_witness :
  corpus_reads_own Sample.heap
    (read_stats (Sample.world {[ "hola" := Sample.hola_twice;
                                 "adios" := Sample.adios ]})) [0; 1; 2]%nat
  ∧ own_categories Sample.heap [0; 1; 2]%nat
  ∧ ∃ p st',
      getProgressSummary Sample.heap (Sample.noon 20) [0; 1; 2]%nat
        (Sample.world {[ "hola" := Sample.hola_twice; "adios" := Sample.adios ]})
      = (inr p, st')
      ∧ byCategory p !! "greetings" = Some (2, 2)
      ∧ byCategory p !! "animals" = Some (1, 0)
      ∧ byCategory p !! "numbers" = None.
Proof.
  assert (corpus_reads_own Sample.heap
            (read_stats (Sample.world {[ "hola" := Sample.hola_twice;
                                         "adios" := Sample.adios ]}))
            [0; 1; 2]%nat) as Hown by by_evaluation.
  assert (own_categories Sample.heap [0; 1; 2]%nat) as Hcat by by_evaluation.
  split; [exact Hown |]. split; [exact Hcat |].
  destruct (progress_by_category Sample.heap (Sample.noon 20) [0; 1; 2]%nat _
              Hown Hcat) as (p & st' & Hrun & Hc).
  exists p, st'. split; [exact Hrun |].
  destruct (Hc "greetings") as [-> _]. destruct (Hc "animals") as [-> _].
  destruct (Hc "numbers") as [-> _].
  repeat split; vm_compute; reflexivity.
Defined.

Lemma progress_by_level_witness :
  ∃ p st',
    getProgressSummary Sample.heap (Sample.noon 20) [0; 1; 2]%nat
      (Sample.world {[ "hola" := Sample.hola_twice; "adios" := Sample.adios ]})
    = (inr p, st')
    ∧ default 0 (byLevel p !! 0) + default 0 (byLevel p !! 1)
      + default 0 (byLevel p !! 2) + default 0 (byLevel p !! 3)
      + default 0 (byLevel p !! 4) + default 0 (byLevel p !! 5)
      = totalWords p.
Proof.
  assert (store_ok (Sample.world {[ "hola" := Sample.hola_twice;
                                    "adios" := Sample.adios ]})) as Hok.
  { unfold store_ok; simpl. apply map_Forall_insert_2.
    - unfold level_ok; simpl; lia.
    - apply map_Forall_singleton. unfold level_ok; simpl; lia. }
  assert (corpus_reads_own Sample.heap
            (read_stats (Sample.world {[ "hola" := Sample.hola_twice;
                                         "adios" := Sample.adios ]}))
            [0; 1; 2]%nat) as Hown by by_evaluation.
  destruct (progress_by_level Sample.heap (Sample.noon 20) [0; 1; 2]%nat _ Hown)
    as (p & st' & Hrun & _ & _ & Hsum).
  exists p, st'. split; [exact Hrun | exact (Hsum Hok)].
Defined.

Lemma progress_accuracy_totals_witness :
  ∃ p st',
    getProgressSummary Sample.heap (Sample.noon 20) [0; 1; 2]%nat
      (Sample.world {[ "adios" := Sample.adios ]}) = (inr p, st')
    ∧ 0 ≤ totalCorrect p ≤ totalSeen p.
Proof.
  assert (store_wf (Sample.world {[ "adios" := Sample.adios ]})) as Hwf.
  { unfold store_wf; simpl. apply map_Forall_singleton.
    unfold stats_wf; simpl.
    repeat split; eauto; try lia; try discriminate. }
  assert (corpus_reads_own Sample.heap
            (read_stats (Sample.world {[ "adios" := Sample.adios ]}))
            [0; 1; 2]%nat) as Hown by by_evaluation.
  destruct (progress_accuracy_totals Sample.heap (Sample.noon 20) [0; 1; 2]%nat
              _ Hown Hwf) as (p & st' & Hrun & Hacc & _).
  exists p, st'. split; [exact Hrun | exact Hacc].
Defined.

Lemma streak_between_calls_witness :
  ∃ s1 s2,
    updateStreak (Sample.noon 10)
      {| world := Sample.blank; sessions := None; last_session := Some 9;
         game_scores := None |} = (inr 1, s1)
    ∧ updateStreak (Sample.noon 11) s1 = (inr 2, s2).
Proof.
  destruct (streak_between_calls (Sample.noon 10) (Sample.noon 11)
              {| world := Sample.blank; sessions := None;
                 last_session := Some 9; game_scores := None |} eq_refl
              (utc_whole_days _ _) (utc_whole_days _ _))
    as (s1 & s2 & H1 & _ & H2 & _).
  exists s1, s2. split; [exact H1 | exact H2].
Defined.

Lemma streak_write_not_atomic_witness :
  ∃ s1 s2,
    updateStreak (Sample.noon 10)
      {| world := {| word_stats := None; current_streak := Some 4;
                     faults := [None; None; None; Some "quota exceeded"];
                     random := [] |};
         sessions := None; last_session := Some 9; game_scores := None |}
      = (inl "quota exceeded", s1)
    ∧ streak_of s1 = 5
    ∧ updateStreak (Sample.noon 10) s1 = (inr 6, s2).
Proof.
  destruct (streak_write_not_atomic (Sample.noon 10)
              {| world := {| word_stats := None; current_streak := Some 4;
                             faults := [None; None; None; Some "quota exceeded"];
                             random := [] |};
                 sessions := None; last_session := Some 9; game_scores := None |}
              "quota exceeded" eq_refl (utc_whole_days _ _) eq_refl)
    as (s1 & s2 & H1 & H2 & _ & H3).
  exists s1, s2. split; [exact H1 |]. split; [exact H2 | exact H3].
Defined.

Lemma record_session_witness :
  ∃ s1,
    recordSession (Sample.noon 40) (SampleStore.input 5 4 1 3 true)
      SampleStore.two_sessions = (inr (), s1)
    ∧ sessions_of s1
      = [{| date := 40; wordsStudied := 7; correctAnswers := 5;
            wrongAnswers := 2; timeSpentMinutes := 4; completedGoal := true |}].
Proof.
  assert (NoDup (date <$> sessions_of SampleStore.two_sessions)) as Hnd.
  { apply NoDup_cons. split; [| apply NoDup_singleton].
    intros Hin%list_elem_of_singleton. discriminate. }
  destruct (record_session (Sample.noon 40) (SampleStore.input 5 4 1 3 true)
              SampleStore.two_sessions eq_refl (utc_whole_days _ _)
              (utc_whole_days _ _) Hnd) as (s1 & Hrun & _).
  exists s1. split; [exact Hrun |].
  assert (s1 = (recordSession (Sample.noon 40) (SampleStore.input 5 4 1 3 true)
                  SampleStore.two_sessions).2) as -> by (by rewrite Hrun).
  reflexivity.
Defined.


Lemma reset_all_witness :
  ∃ s1,
    resetAllProgress SampleStore.two_sessions = (inr (), s1)
    ∧ read_stats (world s1) = ∅
    ∧ sessions_of s1 = []
    ∧ streak_of s1 = 0
    ∧ last_session s1 = None
    ∧ game_scores s1 = game_scores SampleStore.two_sessions
    ∧ random (world s1) = random (world SampleStore.two_sessions)
    ∧ ∀ now inp, ∃ s2,
        recordSession now inp s1 = (inr (), s2)
        ∧ sessions_of s2 = [new_session (getTodayString now) inp]
        ∧ streak_of s2 = 1
        ∧ last_session s2 = Some (getTodayString now).
Proof. exact (reset_all SampleStore.two_sessions eq_refl). Defined.

Lemma reset_all_interrupted_witness :
  ∃ s1,
    resetAllProgress
      {| world := {| word_stats := Some {[ "hola" := Sample.hola_once ]};
                     current_streak := Some 3;
                     faults := [None; Some "quota"];
                     random := [] |};
         sessions := Some [new_session 40 (SampleStore.input 2 1 1 1 false)];
         last_session := Some 40; game_scores := None |} = (inl "quota", s1)
    ∧ word_stats (world s1) = Some ∅
    ∧ sessions s1 = Some [new_session 40 (SampleStore.input 2 1 1 1 false)]
    ∧ current_streak (world s1) = Some 3.
Proof.
  destruct (reset_all_interrupted 1 "quota" []
    {| world := {| word_stats := Some {[ "hola" := Sample.hola_once ]};
                     current_streak := Some 3;
                     faults := [None; Some "quota"];
                     random := [] |};
         sessions := Some [new_session 40 (SampleStore.input 2 1 1 1 false)];
         last_session := Some 40; game_scores := None |})
    as (s1 & Hrun & _ & Hws & Hss & Hcs & _); [lia | reflexivity |].
  exists s1. repeat split; assumption.
Defined.

Lemma save_game_score_witness :
  ∃ s1 dropped,
    saveGameScore (SampleStore.a_score sprint 70) SampleStore.empty
      = (inr (), s1)
    ∧ scores_of s1 sprint = [SampleStore.a_score sprint 70]
    ∧ dropped = @nil Game.Score.
Proof.
  destruct (save_game_score (SampleStore.a_score sprint 70) SampleStore.empty
              eq_refl)
    as (s1 & dropped & Hrun & _ & Hlen & Hp & _).
  exists s1, dropped. split; [exact Hrun |].
  assert (s1 = (saveGameScore (SampleStore.a_score sprint 70)
                  SampleStore.empty).2) as Hs1 by (by rewrite Hrun).
  assert (scores_of s1 sprint = [SampleStore.a_score sprint 70]) as Hsc
    by (rewrite Hs1; reflexivity).
  split; [exact Hsc |].
  cbn [Game.game SampleStore.a_score] in Hp. rewrite Hsc in Hp.
  apply Permutation_length in Hp. cbn in Hp.
  destruct dropped; [done | cbn in Hp; lia].
Defined.


End OnUtc.

(* ================================================================== *)
(** ** A device on US Eastern time

    Across a change of the clock a shift by local days is not one of
    whole days, and the dates read from it move by one. *)

Section OnEastern.
#[local] Existing Instance Sample.eastern_2024.

(** 2024-10-20, 23:30 UTC, a word at level 5: thirty local days later the
    clock has gone back an hour, and the due date is 31 days ahead. *)
Example due_date_across_fall_back :
  getTodayString 1729467000000 = 20016
  ∧ computeNextDue 1729467000000 5 = 20047
  ∧ ¬ whole_days 1729467000000 (interval 5).
Proof.
  split; [reflexivity |]. split; [reflexivity |].
  unfold whole_days. vm_compute. discriminate.
Qed.

(** 2024-03-10, 00:30 UTC, a word at level 1: one local day later the
    clock has gone forward an hour, and the word is due again today. *)
Example due_date_across_spring_forward :
  getTodayString (parseDate 19792 + 1800000) = 19792
  ∧ computeNextDue (parseDate 19792 + 1800000) 1 = 19792.
Proof. split; reflexivity. Qed.

(** 2024-03-13, 23:30 UTC: an answer that was wrong on 2024-03-07, six
    days back, is not recent; on UTC it is. *)
Example six_days_ago_not_recent :
  getTodayString (parseDate 19795 + 84600000) = 19795
  ∧ wasWrongRecently (parseDate 19795 + 84600000) (Some 19789) 7 = false
  ∧ @wasWrongRecently Sample.utc (parseDate 19795 + 84600000)
      (Some 19789) 7 = true.
Proof. repeat split; vm_compute; reflexivity. Qed.

(** 2024-03-10, 23:30 UTC: the local day before is the same UTC day, so a
    session recorded yesterday does not continue the streak. *)
Example yesterday_is_today :
  getTodayString (parseDate 19792 + 84600000) = 19792
  ∧ toISODate (addDays (parseDate 19792 + 84600000) (-1)) = 19792.
Proof. split; reflexivity. Qed.
End OnEastern.

(* ================================================================== *)
(** ** Edit distance *)

Section EditDistance.
Context {char : Type} `{!EqDecision char}.
Implicit Types xs ys zs : list char.

Lemma edit_nil_r xs : edit xs [] = Z.of_nat (length xs).
Proof. by destruct xs. Qed.

Lemma edit_nil_l ys : edit [] ys = Z.of_nat (length ys).
Proof. done. Qed.

Lemma edit_cons x y xs ys :
  edit (x :: xs) (y :: ys)
  = if decide (x = y) then edit xs ys
    else Z.min (edit xs ys + 1)
               (Z.min (edit (x :: xs) ys + 1) (edit xs (y :: ys) + 1)).
Proof. done. Qed.

Lemma edit_sym xs ys : edit xs ys = edit ys xs.
Proof.
  revert ys. induction xs as [|x xs IHx]; intros ys.
  { by rewrite edit_nil_r. }
  induction ys as [|y ys IHy]; [done |].
  rewrite !edit_cons, IHy, (IHx ys), (IHx (y :: ys)).
  destruct (decide (x = y)) as [-> | Hne].
  - by rewrite decide_True.
  - rewrite decide_False by done. lia.
Qed.

Lemma edit_bounds xs ys :
  Z.abs (Z.of_nat (length xs) - Z.of_nat (length ys)) ≤ edit xs ys
  ∧ edit xs ys ≤ Z.of_nat (length xs) `max` Z.of_nat (length ys).
Proof.
  revert ys. induction xs as [|x xs IHx]; intros ys.
  { cbn [edit length]. lia. }
  induction ys as [|y ys IHy].
  { cbn [edit length]. lia. }
  rewrite edit_cons.
  pose proof (IHx ys). pose proof (IHx (y :: ys)).
  cbn [length] in *. destruct (decide (x = y)); lia.
Qed.

Lemma edit_zero xs ys : edit xs ys = 0 ↔ xs = ys.
Proof.
  revert ys. induction xs as [|x xs IHx]; intros ys.
  { destruct ys; cbn [edit length]; split; (done || lia). }
  induction ys as [|y ys IHy].
  { cbn [edit length]. split; (done || lia). }
  rewrite edit_cons. destruct (decide (x = y)) as [-> | Hne].
  - rewrite IHx. split; [by intros -> | by intros [= ->]].
  - pose proof (edit_bounds xs ys). pose proof (edit_bounds (x :: xs) ys).
    pose proof (edit_bounds xs (y :: ys)).
    split; [lia | by intros [= -> ->]].
Qed.

(** One character more on one side moves the number by at most one. *)
Lemma edit_step xs ys :
  (∀ x, edit (x :: xs) ys ≤ edit xs ys + 1)
  ∧ (∀ y, edit xs (y :: ys) ≤ edit xs ys + 1)
  ∧ (∀ x, edit xs ys ≤ edit (x :: xs) ys + 1)
  ∧ (∀ y, edit xs ys ≤ edit xs (y :: ys) + 1).
Proof.
  remember (length xs + length ys)%nat as k eqn:Hk.
  revert xs ys Hk. induction (lt_wf k) as [k _ IH]. intros xs ys ->.
  assert (∀ xs' ys', (length xs' + length ys' < length xs + length ys)%nat →
            (∀ x, edit (x :: xs') ys' ≤ edit xs' ys' + 1)
            ∧ (∀ y, edit xs' (y :: ys') ≤ edit xs' ys' + 1)
            ∧ (∀ x, edit xs' ys' ≤ edit (x :: xs') ys' + 1)
            ∧ (∀ y, edit xs' ys' ≤ edit xs' (y :: ys') + 1)) as IH'.
  { intros xs' ys' Hlt. by eapply IH. }
  clear IH.
  destruct xs as [|x0 xs], ys as [|y0 ys].
  - cbn. repeat split; intros; lia.
  - repeat split; intros c; rewrite ?edit_cons; repeat rewrite edit_nil_l; cbn [length];
      pose proof (edit_bounds [c] ys) as Hb; cbn [length] in Hb;
      try destruct (decide (c = y0)); lia.
  - repeat split; intros c; rewrite ?edit_cons; repeat rewrite edit_nil_r; cbn [length];
      pose proof (edit_bounds xs [c]) as Hb; cbn [length] in Hb;
      try destruct (decide (x0 = c)); lia.
  - destruct (IH' (x0 :: xs) ys) as (B1 & B2 & B3 & B4); [cbn; lia |].
    destruct (IH' xs (y0 :: ys)) as (C1 & C2 & C3 & C4); [cbn; lia |].
    repeat split; intros c.
    + rewrite (edit_cons c y0). specialize (B4 y0).
      destruct (decide (c = y0)); lia.
    + rewrite (edit_cons x0 c). specialize (C3 x0).
      destruct (decide (x0 = c)); lia.
    + rewrite (edit_cons c y0). specialize (B2 y0). specialize (B3 c).
      destruct (decide (c = y0)); lia.
    + rewrite (edit_cons x0 c). specialize (C1 x0). specialize (C4 c).
      destruct (decide (x0 = c)); lia.
Qed.

Lemma edit_nonneg xs ys : 0 ≤ edit xs ys.
Proof. pose proof (edit_bounds xs ys). lia. Qed.

Lemma edits_nil_l ys : edits [] ys (length ys).
Proof. induction ys; cbn [length]; by constructor. Qed.

Lemma edits_nil_r xs : edits xs [] (length xs).
Proof. induction xs; cbn [length]; by constructor. Qed.

Lemma edit_achieved xs ys : edits xs ys (Z.to_nat (edit xs ys)).
Proof.
  revert ys. induction xs as [|x xs IHx]; intros ys.
  { rewrite edit_nil_l, Nat2Z.id. apply edits_nil_l. }
  induction ys as [|y ys IHy].
  { rewrite edit_nil_r, Nat2Z.id. apply edits_nil_r. }
  rewrite edit_cons. destruct (decide (x = y)) as [-> | Hne].
  { constructor. apply IHx. }
  pose proof (edit_nonneg xs ys). pose proof (edit_nonneg (x :: xs) ys).
  pose proof (edit_nonneg xs (y :: ys)).
  destruct (Z.min_spec (edit (x :: xs) ys + 1) (edit xs (y :: ys) + 1))
    as [[_ Hm] | [_ Hm]]; rewrite Hm;
    [destruct (Z.min_spec (edit xs ys + 1) (edit (x :: xs) ys + 1))
       as [[_ Hm'] | [_ Hm']]
    |destruct (Z.min_spec (edit xs ys + 1) (edit xs (y :: ys) + 1))
       as [[_ Hm'] | [_ Hm']]]; rewrite Hm', Z2Nat.inj_add by lia;
    rewrite Nat.add_1_r.
  - apply edits_replace, IHx.
  - apply edits_insert, IHy.
  - apply edits_replace, IHx.
  - apply edits_delete, IHx.
Qed.

Lemma edit_least xs ys n : edits xs ys n → edit xs ys ≤ Z.of_nat n.
Proof.
  induction 1 as [|x xs ys n _ IH|x y xs ys n _ IH|x xs ys n _ IH
                 |y xs ys n _ IH].
  - done.
  - by rewrite edit_cons, decide_True.
  - rewrite edit_cons. destruct (decide (x = y)); lia.
  - destruct (edit_step xs ys) as (H1 & _). specialize (H1 x). lia.
  - destruct (edit_step xs ys) as (_ & H2 & _). specialize (H2 y). lia.
Qed.

Lemma edits_snoc_keep x xs ys n :
  edits xs ys n → edits (xs ++ [x]) (ys ++ [x]) n.
Proof. induction 1; cbn [app]; repeat constructor; done. Qed.

Lemma edits_snoc_replace x y xs ys n :
  edits xs ys n → edits (xs ++ [x]) (ys ++ [y]) (S n).
Proof. induction 1; cbn [app]; repeat constructor; done. Qed.

Lemma edits_snoc_delete x xs ys n :
  edits xs ys n → edits (xs ++ [x]) ys (S n).
Proof. induction 1; cbn [app]; repeat constructor; done. Qed.

Lemma edits_snoc_insert y xs ys n :
  edits xs ys n → edits xs (ys ++ [y]) (S n).
Proof. induction 1; cbn [app]; repeat constructor; done. Qed.

Lemma edits_reverse xs ys n :
  edits xs ys n → edits (reverse xs) (reverse ys) n.
Proof.
  induction 1; rewrite ?reverse_cons.
  - constructor.
  - by apply edits_snoc_keep.
  - by apply edits_snoc_replace.
  - by apply edits_snoc_delete.
  - by apply edits_snoc_insert.
Qed.

Lemma edit_reverse_le xs ys : edit (reverse xs) (reverse ys) ≤ edit xs ys.
Proof.
  pose proof (edit_least _ _ _ (edits_reverse _ _ _ (edit_achieved xs ys))).
  pose proof (edit_nonneg xs ys). lia.
Qed.

Lemma edit_reverse xs ys : edit (reverse xs) (reverse ys) = edit xs ys.
Proof.
  pose proof (edit_reverse_le xs ys).
  pose proof (edit_reverse_le (reverse xs) (reverse ys)) as H'.
  rewrite !reverse_involutive in H'. lia.
Qed.

Lemma edit_triangle xs ys zs : edit xs zs ≤ edit xs ys + edit ys zs.
Proof.
  assert (∀ xs ys n, edits xs ys n →
            ∀ zs m, edits ys zs m → edit xs zs ≤ Z.of_nat n + Z.of_nat m) as H.
  { clear. induction 1 as [|x xs ys n _ IH|x y xs ys n _ IH|x xs ys n _ IH
                          |y xs ys n _ IH]; intros zs m H2.
    - apply edit_least in H2. lia.
    - remember (x :: ys) as l eqn:Hl. revert Hl.
      induction H2 as [|x' l' zs' m H2 _|x' z l' zs' m H2 _|x' l' zs' m H2 _
                      |z l' zs' m _ IH2]; intros Hl; simplify_eq.
      + rewrite edit_cons, decide_True by done. by apply IH.
      + specialize (IH _ _ H2). rewrite edit_cons.
        destruct (decide (x = z)); lia.
      + specialize (IH _ _ H2).
        destruct (edit_step xs zs') as (H1 & _). specialize (H1 x). lia.
      + specialize (IH2 eq_refl).
        destruct (edit_step (x :: xs) zs') as (_ & H1 & _).
        specialize (H1 z). lia.
    - remember (y :: ys) as l eqn:Hl. revert Hl.
      induction H2 as [|x' l' zs' m H2 _|x' z l' zs' m H2 _|x' l' zs' m H2 _
                      |z l' zs' m _ IH2]; intros Hl; simplify_eq.
      + specialize (IH _ _ H2). rewrite edit_cons.
        destruct (decide (x = y)); lia.
      + specialize (IH _ _ H2). rewrite edit_cons.
        destruct (decide (x = z)); lia.
      + specialize (IH _ _ H2).
        destruct (edit_step xs zs') as (H1 & _). specialize (H1 x). lia.
      + specialize (IH2 eq_refl).
        destruct (edit_step (x :: xs) zs') as (_ & H1 & _).
        specialize (H1 z). lia.
    - specialize (IH _ _ H2).
      destruct (edit_step xs zs) as (H1 & _). specialize (H1 x). lia.
    - remember (y :: ys) as l eqn:Hl. revert Hl.
      induction H2 as [|x' l' zs' m H2 _|x' z l' zs' m H2 _|x' l' zs' m H2 _
                      |z l' zs' m _ IH2]; intros Hl; simplify_eq.
      + specialize (IH _ _ H2).
        destruct (edit_step xs zs') as (_ & H1 & _). specialize (H1 y). lia.
      + specialize (IH _ _ H2).
        destruct (edit_step xs zs') as (_ & H1 & _). specialize (H1 z). lia.
      + specialize (IH _ _ H2). lia.
      + specialize (IH2 eq_refl).
        destruct (edit_step xs zs') as (_ & H1 & _). specialize (H1 z). lia. }
  pose proof (H _ _ _ (edit_achieved xs ys) _ _ (edit_achieved ys zs)).
  pose proof (edit_nonneg xs ys). pose proof (edit_nonneg ys zs). lia.
Qed.

(** *** The matrix *)

Lemma assign_end {A} (v : A) (l : list A) :
  assign (length l) v l = Some (l ++ [v]).
Proof.
  unfold assign. rewrite decide_False by lia. by rewrite decide_True.
Qed.

Lemma set2_end i v row matrix :
  matrix !! i = Some row →
  set2 i (length row) v matrix = Some (<[i := row ++ [v]]> matrix).
Proof.
  intros Hrow. unfold set2. rewrite Hrow. cbn [mbind option_bind].
  by rewrite assign_end.
Qed.

Lemma for_each_rows k n :
  for_each (seq k n) (λ i matrix, assign i [Z.of_nat i] matrix)
    ((λ i, [Z.of_nat i]) <$> seq 0 k)
  = Some ((λ i, [Z.of_nat i]) <$> seq 0 (k + n)).
Proof.
  revert k. induction n as [|n IH]; intros k.
  { by rewrite Nat.add_0_r. }
  cbn [seq for_each].
  pose proof (assign_end [Z.of_nat k] ((λ i, [Z.of_nat i]) <$> seq 0 k)) as Ha.
  rewrite length_fmap, length_seq in Ha. rewrite Ha. cbn [mbind option_bind].
  replace (((λ i, [Z.of_nat i]) <$> seq 0 k) ++ [[Z.of_nat k]])
    with ((λ i, [Z.of_nat i]) <$> seq 0 (S k))
    by (by rewrite seq_S, fmap_app).
  rewrite IH. by replace (k + S n)%nat with (S k + n)%nat by lia.
Qed.

Lemma for_each_first_row k n rest :
  for_each (seq k n) (λ j matrix, set2 0 j (Z.of_nat j) matrix)
    ((Z.of_nat <$> seq 0 k) :: rest)
  = Some ((Z.of_nat <$> seq 0 (k + n)) :: rest).
Proof.
  revert k. induction n as [|n IH]; intros k.
  { by rewrite Nat.add_0_r. }
  cbn [seq for_each].
  pose proof (set2_end 0 (Z.of_nat k) (Z.of_nat <$> seq 0 k)
                ((Z.of_nat <$> seq 0 k) :: rest) eq_refl) as Ha.
  rewrite length_fmap, length_seq in Ha. rewrite Ha.
  cbn [mbind option_bind insert list_insert].
  replace ((Z.of_nat <$> seq 0 k) ++ [Z.of_nat k])
    with (Z.of_nat <$> seq 0 (S k)) by (by rewrite seq_S, fmap_app).
  rewrite IH. by replace (k + S n)%nat with (S k + n)%nat by lia.
Qed.

Section Matrix.
Variables a b : list char.

Lemma cell_0_l j : (j ≤ length a)%nat → cell a b 0 j = Z.of_nat j.
Proof.
  intros Hj. unfold cell. rewrite take_0, edit_nil_l.
  rewrite length_reverse, length_take. lia.
Qed.

Lemma cell_0_r i : (i ≤ length b)%nat → cell a b i 0 = Z.of_nat i.
Proof.
  intros Hi. unfold cell. rewrite take_0, edit_nil_r.
  rewrite length_reverse, length_take. lia.
Qed.

Lemma cell_S i j x y :
  b !! i = Some x → a !! j = Some y →
  cell a b (S i) (S j)
  = if decide (x = y) then cell a b i j
    else Z.min (cell a b i j + 1)
               (Z.min (cell a b (S i) j + 1) (cell a b i (S j) + 1)).
Proof.
  intros Hx Hy. unfold cell.
  rewrite (take_S_r _ _ _ Hx), (take_S_r _ _ _ Hy), !reverse_snoc.
  apply edit_cons.
Qed.

Lemma cell_full : cell a b (length b) (length a) = edit a b.
Proof.
  unfold cell. rewrite !take_ge by done. by rewrite edit_reverse, edit_sym.
Qed.

Lemma matrix_initialised :
  (Z.of_nat <$> seq 0 (S (length a)))
    :: ((λ i, [Z.of_nat i]) <$> seq 1 (length b))
  = filled a b 1 1.
Proof.
  unfold filled.
  change (seq 0 (S (length b))) with (0%nat :: seq 1 (length b)).
  rewrite fmap_cons. f_equal.
  - rewrite decide_True by lia.
    apply list_fmap_ext. intros i j [-> Hj]%lookup_seq.
    rewrite cell_0_l; [done | lia].
  - apply list_fmap_ext. intros k i [-> Hi]%lookup_seq.
    rewrite decide_False by lia.
    replace (if decide (1 + k = 1)%nat then 1%nat else 1%nat) with 1%nat
      by (by destruct (decide _)).
    change (seq 0 1) with [0%nat]. rewrite fmap_cons, fmap_nil.
    rewrite cell_0_r; [done | lia].
Qed.

Lemma filled_lookup i j i' :
  (i' ≤ length b)%nat →
  filled a b i j !! i'
  = Some (cell a b i' <$>
            seq 0 (if decide (i' < i)%nat then S (length a)
                   else if decide (i' = i) then j else 1%nat)).
Proof.
  intros Hi. unfold filled.
  rewrite list_lookup_fmap, lookup_seq_lt by lia. done.
Qed.

Lemma get2_filled i j i' j' :
  (i' ≤ length b)%nat →
  (j' < (if decide (i' < i)%nat then S (length a)
         else if decide (i' = i) then j else 1))%nat →
  get2 i' j' (filled a b i j) = Some (cell a b i' j').
Proof.
  intros Hi Hj. unfold get2. rewrite filled_lookup by done.
  cbn [mbind option_bind].
  rewrite list_lookup_fmap, lookup_seq_lt by done. done.
Qed.

Lemma set2_filled i j :
  (i ≤ length b)%nat →
  set2 i j (cell a b i j) (filled a b i j) = Some (filled a b i (S j)).
Proof.
  intros Hi.
  pose proof (set2_end i (cell a b i j) (cell a b i <$> seq 0 j)
                (filled a b i j)) as Ha.
  rewrite length_fmap, length_seq in Ha. rewrite Ha; last first.
  { rewrite filled_lookup by done.
    by rewrite decide_False, decide_True by lia. }
  f_equal.
  apply list_eq. intros k.
  destruct (decide (k = i)) as [-> | Hne].
  - rewrite list_lookup_insert_eq
      by (unfold filled; rewrite length_fmap, length_seq; lia).
    rewrite filled_lookup by done.
    rewrite decide_False, decide_True by lia.
    by rewrite seq_S, fmap_app.
  - rewrite list_lookup_insert_ne by done.
    unfold filled. rewrite !list_lookup_fmap.
    destruct (seq 0 (S (length b)) !! k) as [i' |] eqn:Hk; [| done].
    apply lookup_seq in Hk as [-> _]. cbn [fmap option_fmap option_map].
    do 3 f_equal. rewrite !(decide_False (P := (0 + k = i)%nat)) by lia. done.
Qed.

Lemma fill_cell_filled i j :
  (1 ≤ i ≤ length b)%nat → (1 ≤ j ≤ length a)%nat →
  fill_cell a b i j (filled a b i j) = Some (filled a b i (S j)).
Proof.
  intros Hi Hj. unfold fill_cell.
  destruct (lookup_lt_is_Some_2 b (i - 1)) as [x Hx]; [lia |].
  destruct (lookup_lt_is_Some_2 a (j - 1)) as [y Hy]; [lia |].
  pose proof (cell_S _ _ _ _ Hx Hy) as Hc.
  replace (S (i - 1)) with i in Hc by lia.
  replace (S (j - 1)) with j in Hc by lia.
  rewrite Hx, Hy.
  rewrite (get2_filled i j (i - 1) (j - 1))
    by (try rewrite decide_True by lia; lia).
  cbn [mbind option_bind].
  destruct (decide (Some x = Some y)) as [[= ->] | Hne].
  - rewrite decide_True in Hc by done. rewrite <- Hc. apply set2_filled; lia.
  - rewrite decide_False in Hc by congruence.
    rewrite (get2_filled i j i (j - 1))
      by (try rewrite decide_False, decide_True by lia; lia).
    rewrite (get2_filled i j (i - 1) j)
      by (try rewrite decide_True by lia; lia).
    cbn [mbind option_bind]. rewrite <- Hc. apply set2_filled; lia.
Qed.

Lemma for_each_cells i j k :
  (1 ≤ i ≤ length b)%nat → (1 ≤ j)%nat → (j + k ≤ S (length a))%nat →
  for_each (seq j k) (fill_cell a b i) (filled a b i j)
  = Some (filled a b i (j + k)).
Proof.
  intros Hi. revert j. induction k as [|k IH]; intros j Hj Hk.
  { by rewrite Nat.add_0_r. }
  cbn [seq for_each]. rewrite fill_cell_filled by lia.
  cbn [mbind option_bind]. rewrite IH by lia.
  by replace (j + S k)%nat with (S j + k)%nat by lia.
Qed.

Lemma filled_next_row i : filled a b i (S (length a)) = filled a b (S i) 1.
Proof.
  unfold filled. apply list_fmap_ext. intros k i' _. f_equal. f_equal.
  repeat case_decide; lia.
Qed.

Lemma for_each_matrix i k :
  (1 ≤ i)%nat → (i + k ≤ S (length b))%nat →
  for_each (seq i k)
    (λ i matrix, for_each (seq 1 (length a)) (fill_cell a b i) matrix)
    (filled a b i 1)
  = Some (filled a b (i + k) 1).
Proof.
  revert i. induction k as [|k IH]; intros i Hi Hk.
  { by rewrite Nat.add_0_r. }
  cbn [seq for_each]. rewrite for_each_cells by lia.
  cbn [mbind option_bind].
  replace (1 + length a)%nat with (S (length a)) by lia.
  rewrite filled_next_row, IH by lia.
  by replace (i + S k)%nat with (S i + k)%nat by lia.
Qed.

Lemma levenshteinDistance_edit :
  levenshteinDistance a b = Some (edit a b).
Proof.
  unfold levenshteinDistance.
  destruct (decide (length a = 0%nat)) as [Ha | Ha].
  { apply nil_length_inv in Ha as ->. by rewrite edit_nil_l. }
  destruct (decide (length b = 0%nat)) as [Hb | Hb].
  { apply nil_length_inv in Hb as ->. by rewrite edit_nil_r. }
  pose proof (for_each_rows 0 (S (length b))) as HA.
  change (seq 0 0) with (@nil nat) in HA. rewrite fmap_nil in HA.
  rewrite HA. cbn [mbind option_bind Nat.add].
  change (seq 0 (S (length b))) with (0%nat :: seq 1 (length b)).
  change (seq 0 (S (length a))) with (0%nat :: seq 1 (length a)).
  rewrite fmap_cons. cbn [for_each].
  assert (set2 0 0 (Z.of_nat 0)
            ([Z.of_nat 0] :: ((λ i, [Z.of_nat i]) <$> seq 1 (length b)))
          = Some ((Z.of_nat <$> seq 0 1)
                    :: ((λ i, [Z.of_nat i]) <$> seq 1 (length b)))) as ->
    by done.
  cbn [mbind option_bind].
  rewrite (for_each_first_row 1 (length a)). cbn [mbind option_bind].
  replace (1 + length a)%nat with (S (length a)) by lia.
  rewrite matrix_initialised.
  rewrite for_each_matrix by lia. cbn [mbind option_bind].
  replace (1 + length b)%nat with (S (length b)) by lia.
  rewrite get2_filled; [by rewrite cell_full | lia |].
  rewrite decide_True by lia. lia.
Qed.
End Matrix.

(** X24. [levenshteinDistance] returns a number for every two strings, and
    it is the least number of characters to delete, insert or replace that
    turns the first string into the second: that many edits do it, and no
    way of doing it has fewer. *)
Theorem levenshtein_least_edits (a b : list char) :
  ∃ d : nat,
    levenshteinDistance a b = Some (Z.of_nat d)
    ∧ edits a b d
    ∧ ∀ n, edits a b n → (d ≤ n)%nat.
Proof.
  exists (Z.to_nat (edit a b)).
  rewrite levenshteinDistance_edit, Z2Nat.id by apply edit_nonneg.
  split; [done |]. split; [apply edit_achieved |].
  intros n Hn%edit_least. lia.
Qed.

(** X25. The distance is a metric on strings: the same in both directions,
    0 exactly for equal strings, and no longer by way of a third string.
    It is at least the difference of the two lengths and at most the
    longer length, so that the quotient [stringSimilarity] takes lies
    between 0 and 1. *)
Theorem levenshtein_metric (a b c : list char) :
  ∃ ab bc ac,
    levenshteinDistance a b = Some ab
    ∧ levenshteinDistance b c = Some bc
    ∧ levenshteinDistance a c = Some ac
    ∧ levenshteinDistance b a = Some ab
    ∧ (ab = 0 ↔ a = b)
    ∧ ac ≤ ab + bc
    ∧ Z.abs (Z.of_nat (length a) - Z.of_nat (length b)) ≤ ab
    ∧ ab ≤ Z.of_nat (length a) `max` Z.of_nat (length b).
Proof.
  exists (edit a b), (edit b c), (edit a c).
  rewrite !levenshteinDistance_edit.
  split; [done |]. split; [done |]. split; [done |].
  split; [by rewrite (edit_sym b a) |].
  split; [apply edit_zero |].
  split; [apply edit_triangle |].
  apply edit_bounds.
Qed.
End EditDistance.

(** The model runs: three edits turn "kitten" into "sitting". *)
Lemma levenshtein_sample :
  levenshteinDistance (String.list_ascii_of_string "kitten")
                      (String.list_ascii_of_string "sitting") = Some 3.
Proof. vm_compute. reflexivity. Qed.

(* ================================================================== *)
(** ** Word list converter *)

Section ConverterProperties.
Variables trim generateId : string → string.
Local Abbreviation trimmed := (trimmed trim).
Local Abbreviation written := (written trim).
Local Abbreviation word_of := (word_of trim).
Local Abbreviation id_of := (id_of generateId).
Local Abbreviation convert_record := (convert_record trim generateId).
Local Abbreviation convert_from := (convert_from trim generateId).
Local Abbreviation convert_records := (convert_records trim generateId).

Lemma free_counter_spec fuel (seen rest : gset string) id c :
  (∀ k, c ≤ k → id +:+ "-" +:+ pretty k ∈ seen →
        id +:+ "-" +:+ pretty k ∈ rest) →
  (size rest < fuel)%nat →
  ∃ r, free_counter fuel seen id c = Some r
       ∧ c ≤ r
       ∧ (id +:+ "-" +:+ pretty r ∉ seen)
       ∧ ∀ k, c ≤ k < r → id +:+ "-" +:+ pretty k ∈ seen.
Proof.
  revert rest c. induction fuel as [|fuel IH]; intros rest c Hrest Hsize.
  { lia. }
  cbn [free_counter]. case_decide as Hin.
  - destruct (IH (rest ∖ {[id +:+ "-" +:+ pretty c]}) (c + 1))
      as (r & Hr & Hle & Hnot & Hbelow).
    + intros k Hk Hks. apply elem_of_difference. split.
      * apply Hrest; [lia | done].
      * rewrite elem_of_singleton. intros Heq.
        apply (inj (String.app id)) in Heq.
        apply (inj (String.app "-")) in Heq.
        apply (inj pretty) in Heq. lia.
    + assert (id +:+ "-" +:+ pretty c ∈ rest) as Hc by (apply Hrest; [lia | done]).
      pose proof (size_difference rest {[id +:+ "-" +:+ pretty c]}) as Hd.
      rewrite size_singleton in Hd.
      assert ({[id +:+ "-" +:+ pretty c]} ⊆ rest) as Hsub by set_solver.
      specialize (Hd Hsub).
      assert (size rest ≠ 0%nat).
      { intros H0. apply size_empty_inv in H0. set_solver. }
      lia.
    + exists r. split; [done |]. split; [lia |]. split; [done |].
      intros k Hk. destruct (decide (k = c)) as [-> | Hne]; [done |].
      apply Hbelow. lia.
  - exists c. split; [done |]. split; [lia |]. split; [done |]. intros; lia.
Qed.

Lemma convert_record_spec fuel record acc :
  seenIds acc = list_to_set (id <$> words acc) →
  NoDup (id <$> words acc) →
  (length (words acc) < fuel)%nat →
  ∃ acc',
    convert_record fuel record acc = Some acc'
    ∧ seenIds acc' = list_to_set (id <$> words acc')
    ∧ NoDup (id <$> words acc')
    ∧ if decide (written record) then
        ∃ w, words acc' = words acc ++ [w]
             ∧ skipped acc' = skipped acc
             ∧ word_of record w
             ∧ id_of w (id w)
             ∧ (generateId (spanish w) ∉ (id <$> words acc) →
                id w = generateId (spanish w))
      else words acc' = words acc ∧ skipped acc' = skipped acc + 1.
Proof.
  intros Hseen Hnd Hfuel. unfold convert_record, word_of.
  destruct (decide (written record)) as [[[sp Hsp] [en Hen]] | Hnw]; last first.
  { destruct (trimmed (Csv.spanish record)) eqn:Hsp,
             (trimmed (Csv.english record)) eqn:Hen;
      [exfalso; apply Hnw; unfold written; rewrite Hsp, Hen; split; eauto
      | | |]; (eexists; split; [reflexivity |]; cbn; done). }
  rewrite Hsp, Hen.
  assert (∀ wid, wid ∉ seenIds acc →
     seenIds {| words := words acc ++ [{| id := wid; spanish := sp;
                  english := en;
                  category :=
                    default "General" (trimmed (Csv.category record));
                  pronunciation := trimmed (Csv.pronunciation record);
                  example := trimmed (Csv.example record) |}];
                skipped := skipped acc; seenIds := {[wid]} ∪ seenIds acc |}
     = list_to_set (id <$> (words acc ++ [{| id := wid; spanish := sp;
                  english := en;
                  category :=
                    default "General" (trimmed (Csv.category record));
                  pronunciation := trimmed (Csv.pronunciation record);
                  example := trimmed (Csv.example record) |}]))
     ∧ NoDup (id <$> (words acc ++ [{| id := wid; spanish := sp;
                  english := en;
                  category :=
                    default "General" (trimmed (Csv.category record));
                  pronunciation := trimmed (Csv.pronunciation record);
                  example := trimmed (Csv.example record) |}]))) as Hnew.
  { intros wid Hid. cbn [seenIds]. rewrite fmap_app, list_to_set_app_L.
    cbn [fmap list_fmap id list_to_set]. rewrite Hseen. split.
    - by rewrite union_empty_r_L, (comm_L (∪)).
    - apply NoDup_app. split; [done |]. split.
      + intros x Hx [-> | []%elem_of_nil]%elem_of_cons.
        apply Hid. rewrite Hseen. by apply elem_of_list_to_set.
      + apply NoDup_singleton. }
  case_decide as Hin.
  - destruct (free_counter_spec fuel (seenIds acc) (seenIds acc)
                (generateId sp) 2) as (r & Hr & Hle & Hnot & _); [done | |].
    { rewrite Hseen.
      rewrite size_list_to_set, length_fmap by done. lia. }
    rewrite Hr. cbn [mbind option_bind].
    eexists. split; [reflexivity |].
    destruct (Hnew _ Hnot) as [H1 H2].
    split; [exact H1 |]. split; [exact H2 |].
    eexists. split; [reflexivity |]. cbn.
    repeat (split; [done |]). split.
    + right. exists r. done.
    + intros Hfree. exfalso. apply Hfree.
      rewrite Hseen in Hin. by apply elem_of_list_to_set in Hin.
  - cbn [mbind option_bind].
    eexists. split; [reflexivity |].
    destruct (Hnew _ Hin) as [H1 H2].
    split; [exact H1 |]. split; [exact H2 |].
    eexists. split; [reflexivity |]. cbn.
    repeat (split; [done |]). split; [by left | done].
Qed.

Lemma convert_from_spec fuel records acc :
  seenIds acc = list_to_set (id <$> words acc) →
  NoDup (id <$> words acc) →
  (length (words acc) + length records < fuel)%nat →
  ∃ out new,
    convert_from fuel records acc = Some out
    ∧ words out = words acc ++ new
    ∧ seenIds out = list_to_set (id <$> words out)
    ∧ NoDup (id <$> words out)
    ∧ Forall2 word_of (filter written records) new
    ∧ Forall (λ w, id_of w (id w)) new
    ∧ skipped out
      = skipped acc + Z.of_nat (length (filter (λ r, ¬ written r) records))
    ∧ ∀ i w, new !! i = Some w →
        generateId (spanish w) ∉ (id <$> (words acc ++ take i new)) →
        id w = generateId (spanish w).
Proof.
  revert acc. induction records as [|record records IH];
    intros acc Hseen Hnd Hfuel.
  { exists acc, []. cbn [convert_from]. rewrite app_nil_r.
    repeat (split; [done || constructor |]).
    split; [cbn; lia |]. intros i w Hi. by rewrite lookup_nil in Hi. }
  cbn [convert_from length] in *.
  destruct (convert_record_spec fuel record acc Hseen Hnd)
    as (acc' & Hstep & Hseen' & Hnd' & Hcase); [lia |].
  rewrite Hstep. cbn [mbind option_bind]. rewrite !filter_cons.
  destruct (decide (written record)) as [Hw | Hw].
  - destruct Hcase as (w & Hwords & Hsk & Hof & Hid & Hbase).
    destruct (IH acc' Hseen' Hnd') as
      (out & new & Hrun & Hout & Hs & Hn & Hf2 & Hids & Hskip & Hfirst).
    { rewrite Hwords, length_app. cbn [length]. lia. }
    exists out, (w :: new). split; [done |].
    split; [by rewrite Hout, Hwords, <- app_assoc |].
    split; [done |]. split; [done |].
    split; [by constructor |]. split; [by constructor |].
    rewrite decide_False by tauto.
    split; [lia |].
    intros [|i] w' Hi Hfree; cbn in Hi.
    + simplify_eq. apply Hbase. by rewrite take_0, app_nil_r in Hfree.
    + apply (Hfirst i w' Hi).
      by rewrite Hwords, <- app_assoc.
  - destruct Hcase as (Hwords & Hsk).
    destruct (IH acc' Hseen' Hnd') as
      (out & new & Hrun & Hout & Hs & Hn & Hf2 & Hids & Hskip & Hfirst).
    { rewrite Hwords. lia. }
    exists out, new. split; [done |].
    split; [by rewrite Hout, Hwords |].
    split; [done |]. split; [done |]. split; [done |]. split; [done |].
    rewrite decide_True by done. cbn [length].
    split; [lia |].
    intros i w' Hi Hfree. apply (Hfirst i w' Hi). by rewrite Hwords.
Qed.

(** X26. Given fuel for more steps than there are records, the loop ends
    and the words it writes have ids that differ from one another, whatever
    the texts and whatever [generateId] makes of them. The words are those
    of the records that have a Spanish and an English text, in their
    order, the others are counted as skipped; a word keeps the id
    generated from its Spanish text when no word before it has that id,
    and has it with a number from 2 on behind a dash otherwise. *)
Theorem converted_ids_unique (fuel : nat) (records : list Csv.Row) :
  (length records < fuel)%nat →
  ∃ out,
    convert_records fuel records = Some out
    ∧ NoDup (id <$> words out)
    ∧ seenIds out = list_to_set (id <$> words out)
    ∧ Forall2 word_of (filter written records) (words out)
    ∧ Forall (λ w, id_of w (id w)) (words out)
    ∧ Z.of_nat (length (words out)) + skipped out = Z.of_nat (length records)
    ∧ ∀ i w, words out !! i = Some w →
        generateId (spanish w) ∉ (id <$> take i (words out)) →
        id w = generateId (spanish w).
Proof.
  intros Hfuel. unfold convert_records.
  destruct (convert_from_spec fuel records
              {| words := []; skipped := 0; seenIds := ∅ |})
    as (out & new & Hrun & Hout & Hs & Hn & Hf2 & Hids & Hskip & Hfirst);
    [done | constructor | cbn; lia |].
  cbn [words skipped app] in *. subst new.
  exists out. repeat (split; [done |]). split; [| done].
  rewrite Hskip, <- (Forall2_length _ _ _ Hf2).
  pose proof (filter_app_complement written records) as Hp.
  apply Permutation_length in Hp. rewrite length_app in Hp. lia.
Qed.
End ConverterProperties.

Lemma converted_ids_unique_witness :
  ∃ out,
    convert_records (λ s, s) (λ s, s) 4
      [ {| Csv.spanish := Some "hola"; Csv.english := Some "hello";
           Csv.category := None; Csv.pronunciation := None;
           Csv.example := None |};
        {| Csv.spanish := Some "hola"; Csv.english := Some "hi";
           Csv.category := Some "Greetings"; Csv.pronunciation := None;
           Csv.example := None |};
        {| Csv.spanish := Some "adios"; Csv.english := Some "";
           Csv.category := None; Csv.pronunciation := None;
           Csv.example := None |} ] = Some out
    ∧ id <$> words out = ["hola"; "hola-2"]
    ∧ skipped out = 1.
Proof.
  destruct (converted_ids_unique (λ s, s) (λ s, s) 4
      [ {| Csv.spanish := Some "hola"; Csv.english := Some "hello";
           Csv.category := None; Csv.pronunciation := None;
           Csv.example := None |};
        {| Csv.spanish := Some "hola"; Csv.english := Some "hi";
           Csv.category := Some "Greetings"; Csv.pronunciation := None;
           Csv.example := None |};
        {| Csv.spanish := Some "adios"; Csv.english := Some "";
           Csv.category := None; Csv.pronunciation := None;
           Csv.example := None |} ]) as (out & Hrun & _); [cbn; lia |].
  exists out. split; [exact Hrun |].
  vm_compute in Hrun. injection Hrun as <-. split; reflexivity.
Defined.
